(** * ClangLib: token databases, persistent index and translation-unit wrapper

    A shallow embedding of the parts of the ClangLib plugin that its design
    document makes checkable statements about:

    - [treemap.h]           the string-keyed container [ClTreeMap];
    - [tokendatabase.cpp]   [ClTokenIndexDatabase], [ClTokenDatabase] and the
                            binary index format;
    - [translationunit.cpp] [ClTranslationUnit] and [HashToken];
    - [clangproxy.h]        [CodeCompleteAtJob::Execute].

    Conventions.  A C++ [int] is a [Z]; a [wxString] is the [string] of its
    UTF-8 bytes; a [std::vector] is a [list]; a [std::set] is a [gset] that is
    walked in ascending order.  Mutexes are not modelled: every function below
    is the body that runs while the lock is held. *)

From stdpp Require Import gmap strings list fin_maps sorting pretty.
From Stdlib Require Import ZArith Lia Ascii.

Open Scope Z_scope.

(** ** Elementary types *)

Abbreviation wxString := string (only parsing).
Abbreviation ClFileId := Z (only parsing).
Abbreviation ClTokenId := Z (only parsing).
Abbreviation ClTranslUnitId := Z (only parsing).

(** [ClTokenType] is a bit mask carried in an [int]. *)
Abbreviation ClTokenType := Z (only parsing).

Definition wxNOT_FOUND : Z := -1.
Definition ClTokenType_Unknown : ClTokenType := 0.

(** [wxString::Format(wxT("%d"), n)] *)
Definition Format_d (n : Z) : wxString := pretty n.
Arguments Format_d : simpl never.

Record ClTokenPosition := mkPosition { line : Z; column : Z }.

Record ClTokenRange := mkRange {
  beginLocation : ClTokenPosition;
  endLocation : ClTokenPosition }.

Record ClIndexTokenLocation := mkLocation {
  tokenType : ClTokenType;
  fileId : ClFileId;
  range : ClTokenRange }.

(** Modelled from the spec: the comparison operators of the three records are
    declared in headers that are not part of the sources; two locations are
    the same "(type, file, range)" entry when all their fields agree. *)
#[global] Instance ClTokenPosition_eq_dec : EqDecision ClTokenPosition.
Proof. solve_decision. Defined.
#[global] Instance ClTokenRange_eq_dec : EqDecision ClTokenRange.
Proof. solve_decision. Defined.
#[global] Instance ClIndexTokenLocation_eq_dec : EqDecision ClIndexTokenLocation.
Proof. solve_decision. Defined.

(** ** [ClTreeMap<int>] *)

Module TreeMapInt.

(** Modelled from the spec: the specialisation [ClTreeMap<int>] is only
    declared in [treemap.h] (its [TreeNode] implementation is not part of
    the sources).  The design document describes it as a key -> id multimap:
    [Insert] adds one (key, id) association and returns the id, [Remove]
    with an id removes that association, [Remove] without one removes all
    associations of the key, [GetIdSet] yields the ids of an exact key (a
    [std::set], hence walked in ascending order), [GetValue] returns the id
    it is given and [GetKeySet] yields the keys currently indexed. *)
Definition empty : gset (wxString * Z) := ∅.

Definition Insert (key : wxString) (value : Z) (m : gset (wxString * Z))
  : gset (wxString * Z) := {[ (key, value) ]} ∪ m.

Definition Remove (key : wxString) (value : Z) (m : gset (wxString * Z))
  : gset (wxString * Z) := m ∖ {[ (key, value) ]}.

Definition RemoveKey (key : wxString) (m : gset (wxString * Z))
  : gset (wxString * Z) := filter (λ p, p.1 ≠ key) m.

Definition GetIdSet (key : wxString) (m : gset (wxString * Z)) : gset Z :=
  set_map snd (filter (λ p, p.1 = key) m).

Definition GetValue (id : Z) : Z := id.

Definition GetKeySet (m : gset (wxString * Z)) : gset wxString :=
  set_map fst m.

End TreeMapInt.

(** Iteration over a [std::set<int>]: ascending. *)
Definition ascending (s : gset Z) : list Z := merge_sort Z.le (elements s).

(** Iteration over a [std::set<wxString>]: ascending in [wxString]'s order,
    which on UTF-8 bytes is the lexicographic one. *)
Definition wxString_le (a b : wxString) : Prop := String.leb a b = true.

#[global] Instance wxString_le_dec : RelDecision wxString_le.
Proof. intros a b. unfold wxString_le. apply _. Defined.

Definition ascending_keys (s : gset wxString) : list wxString :=
  merge_sort wxString_le (elements s).

(** ** [ClTreeMap<_TpVal>] (treemap.h) *)

Module TreeMap.
Section Generic.
Context {V : Type}.

Record t := mk {
  m_Tree : gset (wxString * Z);
  m_Data : list V }.

Definition empty : t := mk ∅ [].

(** [m_Data.push_back(value); return m_Tree.Insert(key, m_Data.size() - 1);]
    (the table is taken to hold fewer than 2^31 values, so that the index
    is the [int] it is converted to). *)
Definition Insert (key : wxString) (value : V) (m : t) : t * Z :=
  let data := m_Data m ++ [value] in
  let id := Z.of_nat (length data) - 1 in
  (mk (TreeMapInt.Insert key id (m_Tree m)) data, id).

Definition GetIdSet (key : wxString) (m : t) : gset Z :=
  TreeMapInt.GetIdSet key (m_Tree m).

Definition RemoveIdKey (key : wxString) (id : Z) (m : t) : t :=
  mk (TreeMapInt.Remove key id (m_Tree m)) (m_Data m).

Definition Remove (key : wxString) (m : t) : t :=
  mk (TreeMapInt.RemoveKey key (m_Tree m)) (m_Data m).

Definition HasValue (id : Z) (m : t) : bool :=
  if Z.ltb id 0 then false
  else if Z.leb (Z.of_nat (length (m_Data m))) id then false
  else true.

(** [m_Data[id]]: indexing a vector out of range is undefined in C++; the
    embedding answers [None] there. *)
Definition GetValue (id : Z) (m : t) : option V :=
  if Z.ltb id 0 then None else m_Data m !! Z.to_nat id.

(** Assignment through the reference [GetValue] returns. *)
Definition SetValue (id : Z) (v : V) (m : t) : t :=
  if Z.ltb id 0 then m else mk (m_Tree m) (<[Z.to_nat id := v]> (m_Data m)).

Definition GetCount (m : t) : Z := Z.of_nat (length (m_Data m)).

Definition GetKeySet (m : t) : gset wxString :=
  TreeMapInt.GetKeySet (m_Tree m).
End Generic.
Arguments t : clear implicits.
End TreeMap.

(** ** The project-wide index (tokendatabase.cpp) *)

Record ClIndexToken := mkIndexToken {
  identifier : wxString;
  displayName : wxString;
  USR : wxString;
  tokenTypeMask : ClTokenType;
  locationList : list ClIndexTokenLocation;
  parentTokenList : list (wxString * wxString);
  scope : wxString * wxString }.

(** Modelled from the spec: the constructors of [ClIndexToken] are declared in
    [tokendatabase.h], which is not part of the sources.  A default-constructed
    token is blank with type mask [Unknown]; the eight-argument constructor
    used by [UpdateToken] builds "a brand-new IndexToken" with one location of
    the given type, file and range. *)
Definition ClIndexToken_default : ClIndexToken :=
  mkIndexToken "" "" "" ClTokenType_Unknown [] [] ("", "").

Definition ClIndexToken_new (ident name : wxString) (fId : ClFileId)
    (usr : wxString) (tokType : ClTokenType) (tokenRange : ClTokenRange)
    (parentTokList : list (wxString * wxString))
    (parentScope : wxString * wxString) : ClIndexToken :=
  mkIndexToken ident name usr tokType [mkLocation tokType fId tokenRange]
               parentTokList parentScope.

Definition set_locationList (l : list ClIndexTokenLocation) (tok : ClIndexToken)
  : ClIndexToken :=
  mkIndexToken (identifier tok) (displayName tok) (USR tok) (tokenTypeMask tok)
               l (parentTokenList tok) (scope tok).

Record ClFilenameEntry := mkFilenameEntry {
  filename : wxString;
  timestamp : option Z   (* wxDateTime; [None] is the invalid date *) }.

Record ClTokenIndexDatabase := mkIndexDB {
  m_FileDB : TreeMap.t ClFilenameEntry;
  m_pIndexTokenMap : TreeMap.t ClIndexToken;
  m_pFileTokens : gset (wxString * Z);
  m_bModified : bool }.

(** ** Binary streams (tokendatabase.cpp)

    A stream is the sequence of bytes still to be read ([wxMemoryInputStream],
    [wxFileInputStream]): [CanRead] holds until the end is reached, [Read]
    takes what is there, [LastRead] is the number of bytes it took.  An [int]
    is four bytes and a [long long] eight, in the byte order of the machine,
    taken here to be little-endian. *)

Module Stream.
Definition CanRead (s : list Z) : bool :=
  match s with [] => false | _ => true end.

Definition Read (n : nat) (s : list Z) : list Z * list Z := (take n s, drop n s).

(** The [n] low bytes of [v], two's complement. *)
Fixpoint bytes_of (n : nat) (v : Z) : list Z :=
  match n with
  | O => []
  | S n => v mod 256 :: bytes_of n (v / 256)
  end.

Fixpoint unsigned_of (bytes : list Z) : Z :=
  match bytes with
  | [] => 0
  | b :: rest => b + 256 * unsigned_of rest
  end.

Definition signed_of (bytes : list Z) : Z :=
  let u := unsigned_of bytes in
  let half := 2 ^ (8 * Z.of_nat (length bytes) - 1) in
  if Z.ltb u half then u else u - 2 * half.

Definition chars_of (text : string) : list Z :=
  (λ c, Z.of_N (N_of_ascii c)) <$> String.list_ascii_of_string text.

Definition text_of (bytes : list Z) : string :=
  String.string_of_list_ascii ((λ b, ascii_of_N (Z.to_N b)) <$> bytes).

(** What a [const char*] denotes: the characters before the first zero. *)
Fixpoint c_str (text : string) : string :=
  match text with
  | EmptyString => EmptyString
  | String c rest =>
      if Ascii.eqb c "000"%char then EmptyString else String c (c_str rest)
  end.

Definition WriteInt (val : Z) : list Z := bytes_of 4 val.
Definition WriteLongLong (val : Z) : list Z := bytes_of 8 val.

(** [len = strlen(str); WriteInt(out, len); if (len > 0) out.Write(str, len);] *)
Definition WriteString (str : wxString) : list Z :=
  let str := c_str str in
  WriteInt (Z.of_nat (String.length str)) ++ chars_of str.

Definition ReadInt (s : list Z) : option (Z * list Z) :=
  if negb (CanRead s) then None
  else let '(val, s) := Read 4 s in
       if negb (Nat.eqb (length val) 4) then None
       else Some (signed_of val, s).

Definition ReadLongLong (s : list Z) : option (Z * list Z) :=
  if negb (CanRead s) then None
  else let '(val, s) := Read 8 s in
       if negb (Nat.eqb (length val) 8) then None
       else Some (signed_of val, s).

(** [ReadString] does not look at [LastRead]: when fewer than [len] bytes are
    left, the rest of the buffer is not initialised; the embedding keeps the
    bytes that were read.  A negative [len] sizes the buffer negatively,
    which is undefined; the embedding fails there.  [wxString::FromUTF8]
    reads the buffer as a C string. *)
Definition ReadString (s : list Z) : option (wxString * list Z) :=
  '(len, s) ← ReadInt s;
  if Z.eqb len 0 then Some (EmptyString, s)
  else if negb (CanRead s) then None
  else if Z.ltb len 0 then None
  else let '(buffer, s) := Read (Z.to_nat len) s in
       Some (c_str (text_of buffer), s).
End Stream.

(** ** The filename database (tokendatabase.cpp) *)

Module FilenameDB.
Section Paths.
(** [wxFileName::Normalize] followed by [GetFullPath]: host library. *)
Variable Normalize : wxString → wxString.

Definition GetFilenameId (fname : wxString) (db : TreeMap.t ClFilenameEntry)
    : TreeMap.t ClFilenameEntry * ClFileId :=
  let normFile := Normalize fname in
  match ascending (TreeMap.GetIdSet normFile db) with
  | [] => TreeMap.Insert normFile (mkFilenameEntry normFile None) db
  | first :: _ => (db, first)
  end.
End Paths.

Definition WriteEntry (entry : ClFilenameEntry) : list Z :=
  Stream.WriteString (filename entry)
  ++ Stream.WriteLongLong (match timestamp entry with
                           | Some ts => ts
                           | None => 0
                           end).

Definition WriteOut (db : TreeMap.t ClFilenameEntry) : list Z :=
  Stream.WriteInt (TreeMap.GetCount db)
  ++ concat (WriteEntry <$> TreeMap.m_Data db).

(** The loop of [ReadIn]; the stream is [None] once a read has failed. *)
Fixpoint read_entries (n : nat) (db : TreeMap.t ClFilenameEntry) (s : list Z)
    : TreeMap.t ClFilenameEntry * option (list Z) :=
  match n with
  | O => (db, Some s)
  | S n =>
      match Stream.ReadString s with
      | None => (db, None)
      | Some (fname, s) =>
          match Stream.ReadLongLong s with
          | None => (db, None)
          | Some (ts, s) =>
              read_entries n
                (TreeMap.Insert fname (mkFilenameEntry fname (Some ts)) db).1 s
          end
      end
  end.

Definition ReadIn (db : TreeMap.t ClFilenameEntry) (s : list Z)
    : TreeMap.t ClFilenameEntry * option (list Z) :=
  match Stream.ReadInt s with
  | None => (db, None)
  | Some (packetCount, s) => read_entries (Z.to_nat packetCount) db s
  end.
End FilenameDB.

(** ** [ClIndexToken::WriteOut] and [ClIndexToken::ReadIn] *)

Module IndexToken.
Definition WriteLocation (it : ClIndexTokenLocation) : list Z :=
  Stream.WriteInt (tokenType it) ++ Stream.WriteInt (fileId it)
  ++ Stream.WriteInt (line (beginLocation (range it)))
  ++ Stream.WriteInt (column (beginLocation (range it)))
  ++ Stream.WriteInt (line (endLocation (range it)))
  ++ Stream.WriteInt (column (endLocation (range it))).

Definition WriteParent (it : wxString * wxString) : list Z :=
  Stream.WriteString it.1 ++ Stream.WriteString it.2.

Definition WriteOut (token : ClIndexToken) : list Z :=
  Stream.WriteString (identifier token)
  ++ Stream.WriteString (displayName token)
  ++ Stream.WriteString (USR token)
  ++ Stream.WriteInt (Z.of_nat (length (locationList token)))
  ++ concat (WriteLocation <$> locationList token)
  ++ Stream.WriteInt (Z.of_nat (length (parentTokenList token)))
  ++ concat (WriteParent <$> parentTokenList token)
  ++ Stream.WriteString (scope token).1
  ++ Stream.WriteString (scope token).2.

(** The first loop of [ReadIn]: each turn appends a location and ors its
    type into the mask of the token being filled. *)
Fixpoint read_locations (n : nat) (mask : ClTokenType)
    (locs : list ClIndexTokenLocation) (s : list Z)
    : option (ClTokenType * list ClIndexTokenLocation * list Z) :=
  match n with
  | O => Some (mask, locs, s)
  | S n =>
      '(typ, s) ← Stream.ReadInt s;
      '(fId, s) ← Stream.ReadInt s;
      '(beginLine, s) ← Stream.ReadInt s;
      '(beginColumn, s) ← Stream.ReadInt s;
      '(endLine, s) ← Stream.ReadInt s;
      '(endColumn, s) ← Stream.ReadInt s;
      read_locations n (Z.lor mask typ)
        (locs ++ [mkLocation typ fId
                    (mkRange (mkPosition beginLine beginColumn)
                             (mkPosition endLine endColumn))]) s
  end.

Fixpoint read_parents (n : nat) (parents : list (wxString * wxString))
    (s : list Z) : option (list (wxString * wxString) * list Z) :=
  match n with
  | O => Some (parents, s)
  | S n =>
      '(ident, s) ← Stream.ReadString s;
      '(usr, s) ← Stream.ReadString s;
      read_parents n (parents ++ [(ident, usr)]) s
  end.

(** [ReadIn] fills the token it is handed: it clears the two lists and
    assigns the strings, and leaves [tokenTypeMask] as it finds it before
    or-ing the location types in.  The loop counters are [unsigned]. *)
Definition ReadIn (token : ClIndexToken) (s : list Z)
    : option (ClIndexToken * list Z) :=
  '(ident, s) ← Stream.ReadString s;
  '(name, s) ← Stream.ReadString s;
  '(usr, s) ← Stream.ReadString s;
  '(val, s) ← Stream.ReadInt s;
  '(mask, locs, s) ←
    read_locations (Z.to_nat (val mod 2 ^ 32)) (tokenTypeMask token) [] s;
  '(val, s) ← Stream.ReadInt s;
  '(parents, s) ← read_parents (Z.to_nat (val mod 2 ^ 32)) [] s;
  '(scopeName, s) ← Stream.ReadString s;
  '(scopeUSR, s) ← Stream.ReadString s;
  Some (mkIndexToken ident name usr mask locs parents (scopeName, scopeUSR), s).
End IndexToken.

Module IndexDB.

Definition empty : ClTokenIndexDatabase :=
  mkIndexDB TreeMap.empty TreeMap.empty TreeMapInt.empty false.

(** The tokens stored under [identifier], in the order the loops of the
    source meet them.  The ids of the index are slots of [m_Data] ([Insert]
    is their only producer); an id without a slot is skipped. *)
Definition bucket (ident : wxString) (m : TreeMap.t ClIndexToken)
  : list (Z * ClIndexToken) :=
  omap (λ id, (λ tok, (id, tok)) <$> TreeMap.GetValue id m)
       (ascending (TreeMap.GetIdSet ident m)).

Definition usr_matches_either (usr : wxString) (tok : ClIndexToken) : bool :=
  bool_decide (usr = "") || bool_decide (USR tok = "")
  || bool_decide (usr = USR tok).

Definition usr_matches_query (usr : wxString) (tok : ClIndexToken) : bool :=
  bool_decide (usr = "") || bool_decide (usr = USR tok).

Definition has_type (mask typeMask : ClTokenType) : bool :=
  Z.eqb (Z.land mask typeMask) typeMask.

Definition LookupTokenFileList (ident usr : wxString) (typeMask : ClTokenType)
    (db : ClTokenIndexDatabase) : gset ClFileId :=
  foldl (λ retList it,
           let token := it.2 in
           if has_type (tokenTypeMask token) typeMask
              && usr_matches_either usr token
           then foldl (λ r it2, {[ fileId it2 ]} ∪ r) retList (locationList token)
           else retList)
        ∅ (bucket ident (m_pIndexTokenMap db)).

Definition LookupTokenPosition (ident : wxString) (fId : ClFileId)
    (usr : wxString) (typeMask : ClTokenType) (db : ClTokenIndexDatabase)
    : option ClTokenPosition :=
  let fix scan (l : list (Z * ClIndexToken)) : option ClTokenPosition :=
    match l with
    | [] => None
    | it :: rest =>
        let token := it.2 in
        if has_type (tokenTypeMask token) typeMask
           && usr_matches_query usr token
        then match List.find (λ loc, has_type (tokenType loc) typeMask
                                     && Z.eqb (fileId loc) fId)
                             (locationList token) with
             | Some loc => Some (beginLocation (range loc))
             | None => scan rest
             end
        else scan rest
    end in
  scan (bucket ident (m_pIndexTokenMap db)).

(** The inner loop of [UpdateToken] over [overrideTokenList]. *)
Definition merge_parents (parents overrides : list (wxString * wxString))
  : list (wxString * wxString) :=
  foldl (λ acc p, if bool_decide (p ∈ acc) then acc else acc ++ [p])
        parents overrides.

Definition UpdateToken (ident name : wxString) (fId : ClFileId)
    (usr : wxString) (tokType : ClTokenType) (tokenRange : ClTokenRange)
    (overrideTokenList : list (wxString * wxString))
    (scp : wxString * wxString) (db : ClTokenIndexDatabase)
    : ClTokenIndexDatabase :=
  let fid := Format_d fId in
  match List.find (λ it, bool_decide (USR it.2 = usr))
                  (bucket ident (m_pIndexTokenMap db)) with
  | Some (id, token) =>
      let location := mkLocation tokType fId tokenRange in
      let locs := if bool_decide (location ∈ locationList token)
                  then locationList token
                  else locationList token ++ [location] in
      let token' :=
        mkIndexToken (identifier token) (displayName token) (USR token)
                     (Z.lor (tokenTypeMask token) tokType) locs
                     (merge_parents (parentTokenList token) overrideTokenList)
                     (scope token) in
      mkIndexDB (m_FileDB db)
                (TreeMap.SetValue id token' (m_pIndexTokenMap db))
                (TreeMapInt.Insert fid id
                   (TreeMapInt.Remove fid id (m_pFileTokens db)))
                true
  | None =>
      let '(map, id) :=
        TreeMap.Insert ident
          (ClIndexToken_new ident name fId usr tokType tokenRange
                            overrideTokenList scp)
          (m_pIndexTokenMap db) in
      mkIndexDB (m_FileDB db) map
                (TreeMapInt.Insert fid id (m_pFileTokens db)) true
  end.

(** The erase loop of [RemoveFileTokens]:
<<
    for (itLoc = begin; itLoc != end; ++itLoc)
        if (itLoc->fileId == fileId) {
            itLoc = erase(itLoc);
            if (itLoc == end) break;
        }
>>
    [erase] returns the position of the element after the erased one, and
    the loop header then steps over that element without testing it. *)
Fixpoint erase_file_locations (fId : ClFileId)
    (l : list ClIndexTokenLocation) : list ClIndexTokenLocation :=
  match l with
  | [] => []
  | loc :: rest =>
      if Z.eqb (fileId loc) fId then
        match rest with
        | [] => []
        | next :: rest' => next :: erase_file_locations fId rest'
        end
      else loc :: erase_file_locations fId rest
  end.

Definition RemoveFileTokens (fId : ClFileId) (db : ClTokenIndexDatabase)
    : ClTokenIndexDatabase :=
  let key := Format_d fId in
  let tokenList := ascending (TreeMapInt.GetIdSet key (m_pFileTokens db)) in
  let map :=
    foldl (λ m it,
             if negb (TreeMap.HasValue it m) then m
             else match TreeMap.GetValue (TreeMapInt.GetValue it) m with
                  | Some tok =>
                      TreeMap.SetValue (TreeMapInt.GetValue it)
                        (set_locationList
                           (erase_file_locations fId (locationList tok)) tok)
                        m
                  | None => m
                  end)
          (m_pIndexTokenMap db) tokenList in
  mkIndexDB (m_FileDB db) map
            (TreeMapInt.RemoveKey key (m_pFileTokens db))
            (m_bModified db).

Definition AddToken (ident : wxString) (token : ClIndexToken)
    (db : ClTokenIndexDatabase) : ClTokenIndexDatabase :=
  if Nat.ltb 0 (String.length ident) then
    let '(map, id) := TreeMap.Insert ident token (m_pIndexTokenMap db) in
    let files :=
      foldl (λ ft it,
               let fid := Format_d (fileId it) in
               TreeMapInt.Insert fid id (TreeMapInt.Remove fid id ft))
            (m_pFileTokens db) (locationList token) in
    mkIndexDB (m_FileDB db) map files true
  else db.

(** Modelled from the spec: [ClTokenIndexDatabase::Clear] is defined in
    [tokendatabase.h], which is not part of the sources.  It "discards all
    tokens and resets to an empty state (filenames database is
    untouched)". *)
Definition Clear (db : ClTokenIndexDatabase) : ClTokenIndexDatabase :=
  mkIndexDB (m_FileDB db) TreeMap.empty TreeMapInt.empty (m_bModified db).

(** *** Persistence *)

Definition ClTokenPacketType_filenames : Z := 1.
Definition ClTokenPacketType_tokens : Z := 2.

Section Version.
(** [CINDEX_VERSION_MAJOR] and [CINDEX_VERSION_MINOR] of the libclang the
    plugin was built against. *)
Variables CINDEX_VERSION_MAJOR CINDEX_VERSION_MINOR : Z.

Definition WriteBucket (m : TreeMap.t ClIndexToken) (ident : wxString)
    : list Z :=
  Stream.WriteString ident
  ++ Stream.WriteInt (Z.of_nat (size (TreeMap.GetIdSet ident m)))
  ++ concat ((λ it, IndexToken.WriteOut it.2) <$> bucket ident m).

Definition WriteOut (db : ClTokenIndexDatabase) : list Z :=
  let tokens := ascending_keys (TreeMap.GetKeySet (m_pIndexTokenMap db)) in
  Stream.chars_of "ClDb"
  ++ Stream.WriteInt 5
  ++ Stream.WriteInt CINDEX_VERSION_MAJOR
  ++ Stream.WriteInt CINDEX_VERSION_MINOR
  ++ Stream.WriteInt ClTokenPacketType_filenames
  ++ FilenameDB.WriteOut (m_FileDB db)
  ++ Stream.WriteInt ClTokenPacketType_tokens
  ++ Stream.WriteInt (Z.of_nat (length tokens))
  ++ concat (WriteBucket (m_pIndexTokenMap db) <$> tokens)
  ++ Stream.WriteInt 0.

(** The loop over the tokens of one identifier.  [token] is declared
    outside this loop and handed to every [ClIndexToken::ReadIn]. *)
Fixpoint read_tokens (n : nat) (ident : wxString) (token : ClIndexToken)
    (db : ClTokenIndexDatabase) (s : list Z)
    : ClTokenIndexDatabase * option (list Z) :=
  match n with
  | O => (db, Some s)
  | S n =>
      match IndexToken.ReadIn token s with
      | None => (db, None)
      | Some (token, s) => read_tokens n ident token (AddToken ident token db) s
      end
  end.

Fixpoint read_buckets (n : nat) (db : ClTokenIndexDatabase) (s : list Z)
    : ClTokenIndexDatabase * option (list Z) :=
  match n with
  | O => (db, Some s)
  | S n =>
      match Stream.ReadString s with
      | None => (db, None)
      | Some (ident, s) =>
          match Stream.ReadInt s with
          | None => (db, None)
          | Some (tokenCount, s) =>
              match read_tokens (Z.to_nat tokenCount) ident
                                ClIndexToken_default db s with
              | (db, None) => (db, None)
              | (db, Some s) => read_buckets n db s
              end
          end
      end
  end.

(** [while (in.CanRead())]: every turn takes the four bytes of a packet
    type off the stream or returns, so the length of the stream bounds
    the number of turns; [None] stands for a bound that was too small. *)
Fixpoint read_packets (turns : nat) (db : ClTokenIndexDatabase) (s : list Z)
    : option (bool * ClTokenIndexDatabase) :=
  match turns with
  | O => None
  | S turns =>
      if negb (Stream.CanRead s) then Some (true, db)
      else match Stream.ReadInt s with
           | None => Some (false, db)
           | Some (packetType, s) =>
               if Z.eqb packetType 0 then Some (true, db)
               else if Z.eqb packetType ClTokenPacketType_filenames then
                 match FilenameDB.ReadIn (m_FileDB db) s with
                 | (_, None) as r =>
                     Some (false, mkIndexDB r.1 (m_pIndexTokenMap db)
                                    (m_pFileTokens db) (m_bModified db))
                 | (files, Some s) =>
                     read_packets turns
                       (mkIndexDB files (m_pIndexTokenMap db)
                                  (m_pFileTokens db) (m_bModified db)) s
                 end
               else if Z.eqb packetType ClTokenPacketType_tokens then
                 match Stream.ReadInt s with
                 | None => Some (false, db)
                 | Some (packetCount, s) =>
                     match read_buckets (Z.to_nat packetCount) db s with
                     | (db, None) => Some (false, db)
                     | (db, Some s) => read_packets turns db s
                     end
                 end
               else read_packets turns db s
           end
  end.

(** [ReadIn] reads the four bytes of the tag into a buffer and goes on to
    the version; the buffer is not looked at again. *)
Definition ReadIn (tokenDatabase : ClTokenIndexDatabase) (s : list Z)
    : bool * ClTokenIndexDatabase :=
  let '(buffer, s) := Stream.Read 4 s in
  match Stream.ReadInt s with
  | None => (false, tokenDatabase)
  | Some (version, s) =>
      if negb (Z.eqb version 5) then (false, tokenDatabase)
      else
        match Stream.ReadInt s with
        | None => (false, tokenDatabase)
        | Some (major, s) =>
            match Stream.ReadInt s with
            | None => (false, tokenDatabase)
            | Some (minor, s) =>
                if negb (Z.eqb major CINDEX_VERSION_MAJOR) then
                  (false, tokenDatabase)
                else if negb (Z.eqb minor CINDEX_VERSION_MINOR) then
                  (false, tokenDatabase)
                else
                  let tokenDatabase := Clear tokenDatabase in
                  match read_packets (S (length s)) tokenDatabase s with
                  | Some r => r
                  | None => (false, tokenDatabase)
                  end
            end
        end
  end.
End Version.

End IndexDB.

(** ** The per-translation-unit token database (tokendatabase.cpp) *)

Module AbstractToken.
(** Modelled from the spec: [ClAbstractToken] is declared in
    [tokendatabase.h], which is not part of the sources; the fields are the
    ones [tokendatabase.cpp] reads and writes.  A default-constructed token
    is the blank one, whose file id is the not-found sentinel. *)
Record t := mk {
  tokenType : ClTokenType;
  fileId : ClFileId;
  range : ClTokenRange;
  identifier : wxString;
  displayName : wxString;
  USR : wxString;
  tokenHash : Z;
  parentTokenList : list (wxString * wxString);
  scope : wxString * wxString }.

Definition blank : t :=
  mk ClTokenType_Unknown wxNOT_FOUND
     (mkRange (mkPosition 0 0) (mkPosition 0 0)) "" "" "" 0 [] ("", "").
End AbstractToken.

Abbreviation ClAbstractToken := AbstractToken.t.

(** What a call can end in: a normal return, a failed [assert] (builds
    without [NDEBUG]), or an access the language leaves undefined. *)
Inductive outcome (A : Type) : Type :=
| Returned (a : A)
| AssertFailed (msg : string)
| Undefined.
Arguments Returned {A} a.
Arguments AssertFailed {A} msg.
Arguments Undefined {A}.

#[global] Instance outcome_ret : MRet outcome := λ A a, Returned a.
#[global] Instance outcome_bind : MBind outcome := λ A B f x,
  match x with
  | Returned a => f a
  | AssertFailed msg => AssertFailed msg
  | Undefined => Undefined
  end.

(** [m_pTokenIndexDB] is a pointer in the source; the functions below never
    change what it points to except through [GetFilenameId]. *)
Record ClTokenDatabase := mkTokenDB {
  m_pTokenIndexDB : ClTokenIndexDatabase;
  m_pTokens : TreeMap.t ClAbstractToken;
  m_pFileTokensTU : gset (wxString * Z) }.

Module TokenDB.
Section Asserts.
(** [NDEBUG]: whether [assert] is compiled out. *)
Variable NDEBUG : bool.

Definition assert (cond : bool) (msg : string) : outcome unit :=
  if NDEBUG || cond then Returned tt else AssertFailed msg.

Definition empty : ClTokenDatabase :=
  mkTokenDB IndexDB.empty TreeMap.empty TreeMapInt.empty.

Definition GetTokenId (ident : wxString) (fId : ClFileId)
    (tokType : ClTokenType) (hash : Z) (db : ClTokenDatabase) : ClTokenId :=
  let ids := ascending (TreeMap.GetIdSet ident (m_pTokens db)) in
  match List.find
          (λ itr,
             TreeMap.HasValue itr (m_pTokens db) &&
             match TreeMap.GetValue itr (m_pTokens db) with
             | Some tok =>
                 Z.eqb (AbstractToken.tokenHash tok) hash
                 && (Z.eqb (AbstractToken.tokenType tok) tokType
                     || Z.eqb tokType ClTokenType_Unknown)
                 && (Z.eqb (AbstractToken.fileId tok) fId
                     || Z.eqb fId wxNOT_FOUND)
             | None => false
             end) ids with
  | Some itr => itr
  | None => wxNOT_FOUND
  end.

Definition InsertToken (token : ClAbstractToken) (db : ClTokenDatabase)
    : ClTokenDatabase * ClTokenId :=
  let tId := GetTokenId (AbstractToken.identifier token)
                        (AbstractToken.fileId token)
                        (AbstractToken.tokenType token)
                        (AbstractToken.tokenHash token) db in
  if Z.eqb tId wxNOT_FOUND then
    let '(map, tId) :=
      TreeMap.Insert (AbstractToken.identifier token) token (m_pTokens db) in
    let filen := Format_d (AbstractToken.fileId token) in
    (mkTokenDB (m_pTokenIndexDB db) map
               (TreeMapInt.Insert filen tId (m_pFileTokensTU db)), tId)
  else (db, tId).

Definition GetToken (tId : ClTokenId) (db : ClTokenDatabase)
    : outcome ClAbstractToken :=
  _ ← assert (TreeMap.HasValue tId (m_pTokens db)) "m_pTokens->HasValue(tId)";
  match TreeMap.GetValue tId (m_pTokens db) with
  | Some tok => Returned tok
  | None => Undefined
  end.

(** [UpdateToken] starts with
<<
  ClAbstractToken tokenRef = m_pTokens->GetValue(freeTokenId);
>>
    which, in spite of the name, declares a copy: the five assignments to
    [tokenRef] below it change that local only.  The function returns the
    local next to the database so that it can be seen. *)
Definition UpdateToken (freeTokenId : ClTokenId) (token : ClAbstractToken)
    (db : ClTokenDatabase) : outcome (ClTokenDatabase * ClAbstractToken) :=
  match TreeMap.GetValue freeTokenId (m_pTokens db) with
  | None => Undefined
  | Some tokenRef =>
      let tokens :=
        TreeMap.RemoveIdKey (AbstractToken.identifier tokenRef) freeTokenId
                            (m_pTokens db) in
      _ ← assert (Z.eqb (AbstractToken.fileId tokenRef) wxNOT_FOUND)
                     "Only an unused token can be updated";
      let tokenRef :=
        AbstractToken.mk (AbstractToken.tokenType token)
                         (AbstractToken.fileId token)
                         (AbstractToken.range token)
                         (AbstractToken.identifier token)
                         (AbstractToken.displayName tokenRef)
                         (AbstractToken.USR tokenRef)
                         (AbstractToken.tokenHash token)
                         (AbstractToken.parentTokenList tokenRef)
                         (AbstractToken.scope tokenRef) in
      let filen := Format_d (AbstractToken.fileId token) in
      Returned (mkTokenDB (m_pTokenIndexDB db) tokens
                  (TreeMapInt.Insert filen freeTokenId (m_pFileTokensTU db)),
                tokenRef)
  end.

Definition RemoveToken (tokenId : ClTokenId) (db : ClTokenDatabase)
    : outcome ClTokenDatabase :=
  oldToken ← GetToken tokenId db;
  let key := Format_d (AbstractToken.fileId oldToken) in
  let db := mkTokenDB (m_pTokenIndexDB db) (m_pTokens db)
                      (TreeMapInt.Remove key tokenId (m_pFileTokensTU db)) in
  r ← UpdateToken tokenId AbstractToken.blank db;
  Returned r.1.

Definition GetTokenMatches (ident : wxString) (db : ClTokenDatabase)
    : gset ClTokenId := TreeMap.GetIdSet ident (m_pTokens db).

Definition GetFileTokens (fId : ClFileId) (db : ClTokenDatabase)
    : gset ClTokenId :=
  TreeMapInt.GetIdSet (Format_d fId) (m_pFileTokensTU db).
End Asserts.
End TokenDB.

(** ** [CodeCompleteAtJob::Execute] (clangproxy.h) *)

(** Modelled from the spec: [ClTokenCategory] and [ClToken] are declared in
    [clangpluginapi.h], which is not part of the sources.  The enumerators are
    the ones [Execute] names; every other category is [tcOther]. *)
Inductive ClTokenCategory :=
| tcCtorPublic | tcDtorPublic | tcClass | tcFuncPublic
| tcVarPublic | tcEnum | tcTypedef | tcOther (n : Z).

#[global] Instance ClTokenCategory_eq_dec : EqDecision ClTokenCategory.
Proof. solve_decision. Defined.

Module ClToken.
Record t := mk {
  id : Z;
  category : ClTokenCategory;
  weight : Z;
  name : wxString }.
Definition set_category (c : ClTokenCategory) (tk : t) : t :=
  mk (id tk) c (weight tk) (name tk).
End ClToken.

#[global] Instance ClToken_eq_dec : EqDecision ClToken.t.
Proof. solve_decision. Defined.

Module CodeCompleteAtJob.
Section Proxy.
(** What the job asks of [ClangProxy]: the completion itself and
    [RefineTokenType], which rewrites the category it is handed.  Both are
    member functions defined outside the sources. *)
Variable Diagnostic : Type.
Variable CodeCompleteAt :
  ClTranslUnitId → wxString → ClTokenPosition → Z →
  list (wxString * wxString) → list ClToken.t * list Diagnostic.
Variable RefineTokenType : ClTranslUnitId → Z → ClTokenCategory → ClTokenCategory.

(** The fields [Execute] reads or writes; of [m_File] the job uses the file
    name only. *)
Record t := mk {
  m_Filename : wxString;
  m_Position : ClTokenPosition;
  m_TranslId : ClTranslUnitId;
  m_UnsavedFiles : list (wxString * wxString);
  m_IncludeCtors : bool;
  m_pResults : list ClToken.t;
  m_Diagnostics : list Diagnostic;
  m_Options : Z }.

(** One turn of the loop over [results].  In the constructor and
    destructor cases [continue] leaves the [switch] and goes on with the
    next element; otherwise control falls through to the refinement. *)
Definition visit (job : t) (tkn : ClToken.t) : ClToken.t :=
  let refine :=
    ClToken.set_category
      (RefineTokenType (m_TranslId job) (ClToken.id tkn) (ClToken.category tkn))
      tkn in
  match ClToken.category tkn with
  | tcCtorPublic | tcDtorPublic =>
      if negb (m_IncludeCtors job) then tkn else refine
  | tcClass | tcFuncPublic | tcVarPublic | tcEnum | tcTypedef => refine
  | tcOther _ => tkn
  end.

Definition Execute (job : t) : t :=
  let '(results, diagnostics) :=
    CodeCompleteAt (m_TranslId job) (m_Filename job) (m_Position job)
                   (m_Options job) (m_UnsavedFiles job) in
  let results := List.map (visit job) results in
  mk (m_Filename job) (m_Position job) (m_TranslId job) []
     (m_IncludeCtors job) results diagnostics (m_Options job).
End Proxy.
End CodeCompleteAtJob.

(** ** [HashToken] (translationunit.cpp) *)

Inductive CXCompletionChunkKind :=
| CXCompletionChunk_TypedText
| CXCompletionChunk_Other (kind : Z).

(** A completion string: its chunks, each with its kind and its text (a C
    string, given without the terminating zero). *)
Abbreviation CXCompletionString := (list (CXCompletionChunkKind * string)) (only parsing).

Module Hash.
Section Char.
(** Whether plain [char] is a signed type on the platform. *)
Variable char_is_signed : bool.

Definition byte_of (c : ascii) : Z := Z.of_N (N_of_ascii c).

(** [hVal ^= *pCh]: the [char] is promoted to [int] and then converted to
    [unsigned]. *)
Definition char_to_unsigned (c : ascii) : Z :=
  let b := byte_of c in
  if char_is_signed && Z.leb 128 b then b - 256 + 2 ^ 32 else b.

Definition hash_step (hVal : Z) (c : ascii) : Z :=
  (Z.lxor hVal (char_to_unsigned c) * 16777619) mod 2 ^ 32.

(** [*pCh == '~' ? pCh + 1 : pCh] *)
Definition skip_tilde (text : string) : string :=
  match text with
  | String "~"%char rest => rest
  | _ => text
  end.

Definition HashToken (token : CXCompletionString) (ident : wxString)
    : Z * wxString :=
  foldl (λ st chunk,
           let ident := match chunk.1 with
                        | CXCompletionChunk_TypedText => skip_tilde chunk.2
                        | CXCompletionChunk_Other _ => st.2
                        end in
           (foldl hash_step st.1 (String.list_ascii_of_string chunk.2), ident))
        (2166136261, ident) token.
End Char.

(** The hash as the design document words it: FNV-1a over a byte sequence. *)
Definition fnv1a (bytes : list Z) : Z :=
  foldl (λ h b, (Z.lxor h b * 16777619) mod 2 ^ 32) 2166136261 bytes.

Definition utf8_bytes (text : string) : list Z :=
  byte_of <$> String.list_ascii_of_string text.
End Hash.

(** ** [std::sort] and [std::unique] on a [std::vector<ClFileId>] *)

Module Std.
Definition sort (v : list Z) : list Z := merge_sort Z.le v.

(** [std::unique(first, last)], as the standard library implements it
    (iterators written as indices into the vector [v]):
<<
    if (first == last) return last;
    result = first;
    while (++first != last)
        if (v[result] != v[first] && ++result != first)
            v[result] = std::move(v[first]);
    return ++result;
>>
    The function hands back the vector as the loop leaves it together with
    the returned position; it erases nothing. *)
Definition unique_step (st : list Z * nat) (first : nat) : list Z * nat :=
  let '(v, result) := st in
  match v !! result, v !! first with
  | Some a, Some b =>
      if Z.eqb a b then (v, result)
      else if Nat.eqb (S result) first then (v, S result)
      else (<[S result := b]> v, S result)
  | _, _ => st
  end.

Definition unique (v : list Z) : list Z * nat :=
  match v with
  | [] => ([], 0%nat)
  | _ => let '(v', result) := foldl unique_step (v, 0%nat)
                                   (seq 1 (length v - 1)) in
         (v', S result)
  end.
End Std.

(** ** [ClTranslationUnit] (translationunit.cpp) *)

Record ClFunctionScope := mkFunctionScope {
  functionName : wxString;
  scopeName : wxString;
  startLocation : ClTokenPosition }.

Module TranslationUnit.

(** Native handles are pointers; [nullptr] is 0. *)
Definition nullptr : Z := 0.

(** The calls into libclang that the wrapper makes on its handles. *)
Inductive NativeCall :=
| clang_reparseTranslationUnit (tu : Z) (unsaved : list (wxString * wxString))
| clang_disposeTranslationUnit (tu : Z)
| clang_disposeCodeCompleteResults (cc : Z)
| clang_codeCompleteAt (tu : Z) (file : wxString) (pos : ClTokenPosition)
| clang_codeCompleteGetDiagnostics (cc : Z)
| clang_getFile (tu : Z) (file : wxString)
| clang_getLocation (tu : Z) (pos : ClTokenPosition)
| clang_getCursor (tu : Z)
| clang_getInclusions (tu : Z)
| clang_visitChildren (tu : Z)
| clang_getDiagnosticSetFromTU (tu : Z)
| clang_disposeDiagnosticSet.

(** A computation that calls into the native library: it extends the log of
    calls made so far. *)
Definition Native (A : Type) : Type := list NativeCall → A * list NativeCall.

#[global] Instance Native_ret : MRet Native := λ A a tr, (a, tr).
#[global] Instance Native_bind : MBind Native := λ A B f m tr,
  let '(a, tr') := m tr in f a tr'.

(** [native c reply] makes the call [c]; what the library answers may
    depend on everything it was asked before. *)
Definition native {A} (c : NativeCall) (reply : list NativeCall → A)
  : Native A := λ tr, let tr' := tr ++ [c] in (reply tr', tr').

Record t := mk {
  m_Id : ClTranslUnitId;
  m_FileId : ClFileId;
  m_Files : list ClFileId;
  m_ClIndex : Z;
  m_ClTranslUnit : Z;
  m_LastCC : Z;
  m_LastPos : ClTokenPosition;
  m_Occupied : bool;
  m_LastParsed : Z;
  m_FunctionScopes : gmap ClFileId (list ClFunctionScope) }.

Definition set_ClTranslUnit (h : Z) (tu : t) : t :=
  mk (m_Id tu) (m_FileId tu) (m_Files tu) (m_ClIndex tu) h (m_LastCC tu)
     (m_LastPos tu) (m_Occupied tu) (m_LastParsed tu) (m_FunctionScopes tu).

Definition set_LastCC (cc : Z) (tu : t) : t :=
  mk (m_Id tu) (m_FileId tu) (m_Files tu) (m_ClIndex tu) (m_ClTranslUnit tu)
     cc (m_LastPos tu) (m_Occupied tu) (m_LastParsed tu) (m_FunctionScopes tu).

Definition set_LastPos (p : ClTokenPosition) (tu : t) : t :=
  mk (m_Id tu) (m_FileId tu) (m_Files tu) (m_ClIndex tu) (m_ClTranslUnit tu)
     (m_LastCC tu) p (m_Occupied tu) (m_LastParsed tu) (m_FunctionScopes tu).

Definition set_LastParsed (ts : Z) (tu : t) : t :=
  mk (m_Id tu) (m_FileId tu) (m_Files tu) (m_ClIndex tu) (m_ClTranslUnit tu)
     (m_LastCC tu) (m_LastPos tu) (m_Occupied tu) ts (m_FunctionScopes tu).

Section Library.
(** The answers of the native library and of the host, each a function of
    the calls made so far. *)
Variable CXCursor : Type.
Variable ClDiagnostic : Type.
Variable clang_getNullCursor : CXCursor.
Variable reparse_result : list NativeCall → Z.
Variable cursor_result : list NativeCall → CXCursor.
Variable codeComplete_result : list NativeCall → Z.
(** The files [clang_getInclusions] hands to [ClInclusionVisitor]. *)
Variable inclusions_result : list NativeCall → list wxString.
(** [ExpandDiagnosticSet] on the set the library returns. *)
Variable diagnostics_result : list NativeCall → wxString → list ClDiagnostic.
(** The walk of [ClAST_Visitor] over the syntax tree. *)
Variable ast_result :
  list NativeCall → ClTokenDatabase →
  ClTokenDatabase * gmap ClFileId (list ClFunctionScope).
Variable wxDateTime_Now : list NativeCall → Z.
Variable Normalize : wxString → wxString.
(** [wxFileName::MakeAbsolute] and [GetFullPath]; [None] when it fails. *)
Variable MakeAbsolute : wxString → option wxString.

Definition when (b : bool) (m : Native unit) : Native unit :=
  if b then m else mret tt.

Definition is_null (p : Z) : bool := Z.eqb p nullptr.

Definition host_time : Native Z := λ tr, (wxDateTime_Now tr, tr).

Definition Reparse (unsavedFiles : list (wxString * wxString)) (tu : t)
    : Native t :=
  if is_null (m_ClTranslUnit tu) then mret tu
  else
    ret ← native (clang_reparseTranslationUnit (m_ClTranslUnit tu) unsavedFiles)
                 reparse_result;
    if negb (Z.eqb ret 0) return Native t then
      _ ← native (clang_disposeTranslationUnit (m_ClTranslUnit tu)) (λ _, tt);
      mret (set_ClTranslUnit nullptr tu)
    else
      _ ← when (negb (is_null (m_LastCC tu)))
               (native (clang_disposeCodeCompleteResults (m_LastCC tu)) (λ _, tt));
      let tu := if negb (is_null (m_LastCC tu)) then set_LastCC nullptr tu else tu in
      now ← host_time;
      mret (set_LastParsed now tu).

Definition GetTokenAt (fname : wxString) (location : ClTokenPosition) (tu : t)
    : Native CXCursor :=
  if is_null (m_ClTranslUnit tu) then mret clang_getNullCursor
  else
    _ ← native (clang_getFile (m_ClTranslUnit tu) fname) (λ _, tt);
    _ ← native (clang_getLocation (m_ClTranslUnit tu) location) (λ _, tt);
    native (clang_getCursor (m_ClTranslUnit tu)) cursor_result.

Definition CodeCompleteAt (complete_filename : wxString)
    (complete_location : ClTokenPosition) (tu : t) : Native (Z * t) :=
  if is_null (m_ClTranslUnit tu) then mret (nullptr, tu)
  else
    _ ← when (negb (is_null (m_LastCC tu)))
             (native (clang_disposeCodeCompleteResults (m_LastCC tu)) (λ _, tt));
    cc ← native (clang_codeCompleteAt (m_ClTranslUnit tu) complete_filename
                                       complete_location)
                codeComplete_result;
    let tu := set_LastPos complete_location (set_LastCC cc tu) in
    _ ← when (negb (is_null cc))
             (native (clang_codeCompleteGetDiagnostics cc) (λ _, tt));
    mret (cc, tu).

Definition GetDiagnostics (fname : wxString) (diagnostics : list ClDiagnostic)
    (tu : t) : Native (list ClDiagnostic) :=
  if is_null (m_ClTranslUnit tu) then mret diagnostics
  else
    found ← native (clang_getDiagnosticSetFromTU (m_ClTranslUnit tu))
                   (λ tr, diagnostics_result tr fname);
    _ ← native clang_disposeDiagnosticSet (λ _, tt);
    mret (diagnostics ++ found).

(** [ClInclusionVisitor], called once per included file. *)
Definition ClInclusionVisitor (included_file : wxString)
    (data : list ClFileId * ClTokenDatabase) : list ClFileId * ClTokenDatabase :=
  match MakeAbsolute included_file with
  | Some fullPath =>
      let index := m_pTokenIndexDB data.2 in
      let '(files, fId) :=
        FilenameDB.GetFilenameId Normalize fullPath (m_FileDB index) in
      let index := mkIndexDB files (m_pIndexTokenMap index)
                             (m_pFileTokens index) (m_bModified index) in
      (data.1 ++ [fId],
       mkTokenDB index (m_pTokens data.2) (m_pFileTokensTU data.2))
  | None => data
  end.

(** The end of [ProcessAllTokens]' work on the list: [push_back(m_FileId)],
    [std::sort], [std::unique], whose result is discarded, and a copy of the
    whole vector ([std::vector<ClFileId>(v).swap(v)], the branch that
    compiles). *)
Definition finish_include_list (own : ClFileId) (v : list ClFileId)
    : list ClFileId :=
  (Std.unique (Std.sort (v ++ [own]))).1.

Definition ProcessAllTokens (database : ClTokenDatabase)
    (out_includeFileList : list ClFileId)
    (out_functionScopes : gmap ClFileId (list ClFunctionScope)) (tu : t)
    : Native (ClTokenDatabase * list ClFileId
              * gmap ClFileId (list ClFunctionScope)) :=
  if is_null (m_ClTranslUnit tu) then
    mret (database, out_includeFileList, out_functionScopes)
  else
    included ← native (clang_getInclusions (m_ClTranslUnit tu)) inclusions_result;
    let '(files, database) :=
      foldl (λ data f, ClInclusionVisitor f data)
            (out_includeFileList, database) included in
    let files := finish_include_list (m_FileId tu) files in
    r ← native (clang_visitChildren (m_ClTranslUnit tu))
               (λ tr, ast_result tr database);
    mret (r.1, files, r.2).
End Library.
End TranslationUnit.
(** * More of the sources *)

(** ** The rest of [ClFilenameDatabase] (tokendatabase.cpp) *)

Module Filenames.
Section Paths.
Variable Normalize : wxString → wxString.
Variable NDEBUG : bool.

Definition HasFilename (fname : wxString) (db : TreeMap.t ClFilenameEntry) : bool :=
  let normFile := Normalize fname in
  if Nat.leb (String.length normFile) 0 then false
  else match ascending (TreeMap.GetIdSet normFile db) with
       | [] => false
       | _ :: _ => true
       end.

(** [GetFilename] builds its result from [entry.filename.c_str()], a C
    string. *)
Definition GetFilename (fId : ClFileId) (db : TreeMap.t ClFilenameEntry)
    : wxString :=
  if negb (TreeMap.HasValue fId db) then ""
  else match TreeMap.GetValue fId db with
       | Some entry => Stream.c_str (filename entry)
       | None => ""
       end.

Definition GetFilenameTimestamp (fId : ClFileId) (db : TreeMap.t ClFilenameEntry)
    : outcome (option Z) :=
  _ ← TokenDB.assert NDEBUG (TreeMap.HasValue fId db) "m_pFileEntries->HasValue(fId)";
  match TreeMap.GetValue fId db with
  | Some entry => Returned (timestamp entry)
  | None => Undefined
  end.

Definition UpdateFilenameTimestamp (fId : ClFileId) (ts : option Z)
    (db : TreeMap.t ClFilenameEntry) : outcome (TreeMap.t ClFilenameEntry) :=
  _ ← TokenDB.assert NDEBUG (TreeMap.HasValue fId db) "m_pFileEntries->HasValue(fId)";
  match TreeMap.GetValue fId db with
  | Some entry =>
      Returned (TreeMap.SetValue fId (mkFilenameEntry (filename entry) ts) db)
  | None => Undefined
  end.
End Paths.
End Filenames.

(** ** More lookups of [ClTokenIndexDatabase] (tokendatabase.cpp) *)

Module IndexQueries.

Definition LookupTokenOverrides (ident usr : wxString) (typeMask : ClTokenType)
    (db : ClTokenIndexDatabase) : gset (ClFileId * wxString) :=
  foldl (λ retList it,
           let token := it.2 in
           if IndexDB.has_type (tokenTypeMask token) typeMask
           then if bool_decide ((ident, usr) ∈ parentTokenList token)
                then foldl (λ r it2, {[ (fileId it2, USR token) ]} ∪ r)
                           retList (locationList token)
                else retList
           else retList)
        ∅ (IndexDB.bucket ident (m_pIndexTokenMap db)).

(** [LookupTokenDisplayName] calls itself on the scope of the token it
    finds, and again on the scope of that one, until a scope is not found.
    [depth] bounds the nesting of the calls; the outer [None] stands for a
    bound that was too small, [Some None] for the answer [false]. *)
Fixpoint LookupTokenDisplayName (depth : nat) (ident usr : wxString)
    (db : ClTokenIndexDatabase) : option (option wxString) :=
  match depth with
  | O => None
  | S depth =>
      match List.find (λ it, bool_decide (usr = "") || bool_decide (usr = USR it.2))
                      (IndexDB.bucket ident (m_pIndexTokenMap db)) with
      | None => Some None
      | Some it =>
          let token := it.2 in
          match LookupTokenDisplayName depth (scope token).1 (scope token).2 db with
          | None => None
          | Some (Some parentScopeDisplayName) =>
              Some (Some (parentScopeDisplayName +:+ "::" +:+ displayName token))
          | Some None => Some (Some (displayName token))
          end
      end
  end.

(** [GetFileTokens] indexes the token table with every id of the file
    without asking [HasValue]. *)
Definition GetFileTokens (fId : ClFileId) (typeMask : Z)
    (db : ClTokenIndexDatabase) (out_tokens : list ClIndexToken)
    : outcome (list ClIndexToken) :=
  let key := Format_d fId in
  foldl (λ out it,
           out_tokens ← out;
           match TreeMap.GetValue (TreeMapInt.GetValue it) (m_pIndexTokenMap db) with
           | Some tok =>
               if Z.eqb typeMask 0
                  || negb (Z.eqb (Z.land (tokenTypeMask tok) typeMask) 0)
               then Returned (out_tokens ++ [tok])
               else Returned out_tokens
           | None => Undefined
           end)
        (Returned out_tokens)
        (ascending (TreeMapInt.GetIdSet key (m_pFileTokens db))).

End IndexQueries.

(** ** More of [ClTokenDatabase] (tokendatabase.cpp) *)

Module TokenQueries.
Section Host.
Variable NDEBUG : bool.
(** [ClTokenType_DefGroup], a mask declared in [tokendatabase.h]. *)
Variable ClTokenType_DefGroup : ClTokenType.
(** [wxAtoi]: host library. *)
Variable wxAtoi : wxString → Z.

(** The loop of [LookupTokenDefinition]; [GetToken] asserts on every id. *)
Fixpoint scan_definitions (fId : ClFileId) (usr : wxString)
    (db : ClTokenDatabase) (ids : list ClTokenId)
    : outcome (option ClTokenPosition) :=
  match ids with
  | [] => Returned None
  | it :: rest =>
      tok ← TokenDB.GetToken NDEBUG it db;
      if Z.eqb (AbstractToken.fileId tok) fId
         && Z.eqb (Z.land (AbstractToken.tokenType tok) ClTokenType_DefGroup)
                  ClTokenType_DefGroup
         && (bool_decide (usr = "") || bool_decide (AbstractToken.USR tok = usr))
      then Returned (Some (beginLocation (AbstractToken.range tok)))
      else scan_definitions fId usr db rest
  end.

Definition LookupTokenDefinition (fId : ClFileId) (ident usr : wxString)
    (db : ClTokenDatabase) : outcome (option ClTokenPosition) :=
  scan_definitions fId usr db (ascending (TokenDB.GetTokenMatches ident db)).

(** [StoreIndexes]: every file key of the unit's file index is cleared in
    the project index, then every slot of the token table is handed to
    [UpdateToken]. *)
Definition StoreIndexes (db : ClTokenDatabase) : ClTokenDatabase :=
  let keySet := ascending_keys (TreeMapInt.GetKeySet (m_pFileTokensTU db)) in
  let index :=
    foldl (λ index it, IndexDB.RemoveFileTokens (wxAtoi it) index)
          (m_pTokenIndexDB db) keySet in
  let index :=
    foldl (λ index token,
             IndexDB.UpdateToken
               (AbstractToken.identifier token) (AbstractToken.displayName token)
               (AbstractToken.fileId token) (AbstractToken.USR token)
               (AbstractToken.tokenType token) (AbstractToken.range token)
               (AbstractToken.parentTokenList token) (AbstractToken.scope token)
               index)
          index (TreeMap.m_Data (m_pTokens db)) in
  mkTokenDB index (m_pTokens db) (m_pFileTokensTU db).

(** [GetFilenameId] of the token database: the filename table of the index
    it points to answers. *)
Definition GetFilenameId (Normalize : wxString → wxString) (fname : wxString)
    (db : ClTokenDatabase) : ClTokenDatabase * ClFileId :=
  let index := m_pTokenIndexDB db in
  let '(files, fId) := FilenameDB.GetFilenameId Normalize fname (m_FileDB index) in
  (mkTokenDB (mkIndexDB files (m_pIndexTokenMap index) (m_pFileTokens index)
                        (m_bModified index))
             (m_pTokens db) (m_pFileTokensTU db), fId).
End Host.
End TokenQueries.

(** ** The end of a [ClTranslationUnit] (translationunit.cpp) *)

Module UnitLifetime.
(** The destructor: the cached completion results go first, then the
    handle of the unit. *)
Definition Destroy (tu : TranslationUnit.t) : TranslationUnit.Native unit :=
  _ ← TranslationUnit.when (negb (TranslationUnit.is_null (TranslationUnit.m_LastCC tu)))
        (TranslationUnit.native
           (TranslationUnit.clang_disposeCodeCompleteResults
              (TranslationUnit.m_LastCC tu)) (λ _, tt));
  TranslationUnit.when
    (negb (TranslationUnit.is_null (TranslationUnit.m_ClTranslUnit tu)))
    (TranslationUnit.native
       (TranslationUnit.clang_disposeTranslationUnit
          (TranslationUnit.m_ClTranslUnit tu)) (λ _, tt)).
End UnitLifetime.

(** ** Diagnostics (translationunit.cpp) *)

Inductive CXDiagnosticSeverity :=
| CXDiagnostic_Ignored | CXDiagnostic_Note | CXDiagnostic_Warning
| CXDiagnostic_Error | CXDiagnostic_Fatal.

#[global] Instance CXDiagnosticSeverity_eq_dec : EqDecision CXDiagnosticSeverity.
Proof. solve_decision. Defined.

Inductive ClDiagnosticSeverity := sWarning | sError | sNote.

#[global] Instance ClDiagnosticSeverity_eq_dec : EqDecision ClDiagnosticSeverity.
Proof. solve_decision. Defined.

Module Diagnostic.
(** Modelled from the spec: [ClDiagnostic] and [ClDiagnosticFixit] are
    declared in [clangpluginapi.h], which is not part of the sources.  A
    diagnostic carries "line, start/end column, severity, source file,
    message text, list of suggested textual fixes each with its own range";
    the fields are named as [clangdiagnostics.cpp] reads them. *)
Record fixit := mkFixit {
  text : wxString;
  fixit_range : Z * Z }.

Record t := mk {
  line : Z;
  range : Z * Z;
  severity : ClDiagnosticSeverity;
  file : wxString;
  message : wxString;
  fixitList : list fixit }.
End Diagnostic.

Abbreviation ClDiagnostic := Diagnostic.t (only parsing).

Module ExpandDiagnostics.

(** What the native library answers about one [CXDiagnostic] that is not
    null.  A range is given by the two columns [RangeToColumns] takes from
    it; lines and columns are [unsigned], and none is large enough to
    change when it is stored in an [int]. *)
Record CXDiagnostic := mkCXDiagnostic {
  (** [clang_equalLocations(loc, clang_getNullLocation())] *)
  location_is_null : bool;
  clang_getDiagnosticSeverity : CXDiagnosticSeverity;
  (** [clang_getSpellingLocation] of the location *)
  spelling_file : wxString;
  spelling_line : Z;
  spelling_column : Z;
  (** [clang_getDiagnosticRange(diag, j)] for [j] below the number of ranges *)
  ranges : list (Z * Z);
  (** [clang_getDiagnosticFixIt(diag, j, &range)]: replacement text and range *)
  fixits : list (wxString * (Z * Z));
  (** [clang_getCursorExtent] of the cursor at the location *)
  cursor_extent : Z * Z;
  clang_formatDiagnostic : wxString }.

(** The two loops that look for a range:
<<
    for (j = 0; j < n; ++j) {
        RangeToColumns(range j, rgStart, rgEnd);
        if (rgStart != rgEnd) break;
    }
>> *)
Fixpoint scan_ranges (rg : Z * Z) (l : list (Z * Z)) : Z * Z :=
  match l with
  | [] => rg
  | r :: rest => if negb (Z.eqb r.1 r.2) then r else scan_ranges r rest
  end.

(** [diagText.Right(diagText.Length() - n)] *)
Definition without_first (n : nat) (diagText : wxString) : wxString :=
  String.substring n (String.length diagText - n) diagText.

Definition ExpandDiagnostic (diag : option CXDiagnostic) (fname : wxString)
    (inout_diagnostics : list ClDiagnostic) : list ClDiagnostic :=
  match diag with
  | None => inout_diagnostics
  | Some diag =>
      if location_is_null diag then inout_diagnostics
      else
        match clang_getDiagnosticSeverity diag with
        | CXDiagnostic_Ignored | CXDiagnostic_Note => inout_diagnostics
        | _ =>
            let column := spelling_column diag in
            let flName := spelling_file diag in
            if bool_decide (flName = fname) then
              let rg := scan_ranges (0, 0) (ranges diag) in
              let rg := if Z.eqb rg.1 rg.2
                        then scan_ranges rg (snd <$> fixits diag) else rg in
              let rg := if Z.eqb rg.2 0 then cursor_extent diag else rg in
              let rg := if Z.ltb rg.2 column || Z.ltb column rg.1
                        then (column, column) else rg in
              let diagText := clang_formatDiagnostic diag in
              let diagText :=
                if String.prefix "warning: " diagText
                then without_first 9 diagText
                else if String.prefix "error: " diagText
                     then without_first 7 diagText
                     else diagText in
              let sev :=
                match clang_getDiagnosticSeverity diag with
                | CXDiagnostic_Error | CXDiagnostic_Fatal => sError
                | CXDiagnostic_Note => sNote
                | CXDiagnostic_Warning | CXDiagnostic_Ignored => sWarning
                end in
              let fixitList :=
                (λ f, Diagnostic.mkFixit f.1 f.2) <$> fixits diag in
              inout_diagnostics
              ++ [Diagnostic.mk (spelling_line diag) rg sev flName diagText
                                fixitList]
            else inout_diagnostics
        end
  end.

(** [clang_getDiagnosticInSet(diagSet, i)] for [i] below the size of the
    set; a null diagnostic is [None]. *)
Definition ExpandDiagnosticSet (diagSet : list (option CXDiagnostic))
    (fname : wxString) (diagnostics : list ClDiagnostic) : list ClDiagnostic :=
  foldl (λ diagnostics diag, ExpandDiagnostic diag fname diagnostics)
        diagnostics diagSet.

End ExpandDiagnostics.

(** ** [ClAST_Visitor] (translationunit.cpp) *)

Inductive CXCursorKind :=
| CXCursor_StructDecl | CXCursor_UnionDecl | CXCursor_ClassDecl
| CXCursor_EnumDecl | CXCursor_Namespace | CXCursor_ClassTemplate
| CXCursor_FieldDecl | CXCursor_EnumConstantDecl | CXCursor_FunctionDecl
| CXCursor_VarDecl | CXCursor_ParmDecl | CXCursor_TypedefDecl
| CXCursor_CXXMethod | CXCursor_Constructor | CXCursor_Destructor
| CXCursor_FunctionTemplate | CXCursor_ClassTemplatePartialSpecialization
| CXCursor_OtherKind (kind : Z).

Inductive CXChildVisitResult :=
| CXChildVisit_Break | CXChildVisit_Continue | CXChildVisit_Recurse.

Module Visitor.

(** What the native library answers about a cursor: its kind, its spelling
    location, its completion string, its display name, and the kinds and
    display names of its semantic parents, nearest first, up to the null
    cursor. *)
Record CXCursor := mkCXCursor {
  kind : CXCursorKind;
  spelling_file : wxString;
  spelling_line : Z;
  spelling_column : Z;
  clang_getCursorCompletionString : CXCompletionString;
  clang_getCursorDisplayName : wxString;
  semantic_parents : list (CXCursorKind * wxString) }.

Record ClangVisitorContext := mkContext {
  database : ClTokenDatabase;
  tokenCount : Z;
  functionScopes : gmap ClFileId (list ClFunctionScope) }.

(** Modelled from the spec: the constructor of [ClAbstractToken] that takes a
    type, a file, a position, an identifier and a hash is declared in
    [tokendatabase.h], which is not part of the sources.  The token it
    builds has these five ("identifier, file, position range, type, hash"),
    the range being the position, and nothing else. *)
Definition ClAbstractToken_at (typ : ClTokenType) (fId : ClFileId)
    (location : ClTokenPosition) (name : wxString) (tknHash : Z)
    : ClAbstractToken :=
  AbstractToken.mk typ fId (mkRange location location) name "" "" tknHash []
                   ("", "").

(** The syntax tree below a cursor: the cursors the native library hands to
    the visitor, each with its own children. *)
#[local] Unset Elimination Schemes.
Inductive AST := Node (cursor : CXCursor) (children : list AST).
#[local] Set Elimination Schemes.

Section Host.
Variable char_is_signed : bool.
Variable Normalize : wxString → wxString.
(** Masks declared in [tokendatabase.h]. *)
Variables ClTokenType_ScopeDecl ClTokenType_FuncDecl : ClTokenType.
Variables ClTokenType_VarDecl ClTokenType_ParmDecl : ClTokenType.

(** The first [switch]: the type of the token and the answer to the
    traversal, or [None] where the default case returns at once. *)
Definition classify (k : CXCursorKind)
    : option (ClTokenType * CXChildVisitResult) :=
  match k with
  | CXCursor_StructDecl | CXCursor_UnionDecl | CXCursor_ClassDecl
  | CXCursor_EnumDecl | CXCursor_Namespace | CXCursor_ClassTemplate =>
      Some (ClTokenType_ScopeDecl, CXChildVisit_Recurse)
  | CXCursor_FieldDecl => Some (ClTokenType_Unknown, CXChildVisit_Continue)
  | CXCursor_EnumConstantDecl => Some (ClTokenType_Unknown, CXChildVisit_Continue)
  | CXCursor_FunctionDecl => Some (ClTokenType_FuncDecl, CXChildVisit_Continue)
  | CXCursor_VarDecl => Some (ClTokenType_VarDecl, CXChildVisit_Continue)
  | CXCursor_ParmDecl => Some (ClTokenType_ParmDecl, CXChildVisit_Continue)
  | CXCursor_TypedefDecl => Some (ClTokenType_Unknown, CXChildVisit_Continue)
  | CXCursor_CXXMethod | CXCursor_Constructor | CXCursor_Destructor
  | CXCursor_FunctionTemplate =>
      Some (ClTokenType_FuncDecl, CXChildVisit_Continue)
  | CXCursor_ClassTemplatePartialSpecialization | CXCursor_OtherKind _ => None
  end.

(** One turn of the loop over the cursor and its semantic parents. *)
Definition name_step (names : wxString * wxString)
    (cursor : CXCursorKind * wxString) : wxString * wxString :=
  let '(displayName, scopeName) := names in
  match cursor.1 with
  | CXCursor_Namespace | CXCursor_StructDecl | CXCursor_ClassDecl
  | CXCursor_ClassTemplate | CXCursor_ClassTemplatePartialSpecialization
  | CXCursor_CXXMethod =>
      if Nat.eqb (String.length displayName) 0 then (cursor.2, scopeName)
      else
        let scopeName := if Nat.ltb 0 (String.length scopeName)
                         then "::" +:+ scopeName else scopeName in
        (displayName, cursor.2 +:+ scopeName)
  | _ => names
  end.

Definition ClAST_Visitor (cursor : CXCursor) (ctx : ClangVisitorContext)
    : CXChildVisitResult * ClangVisitorContext :=
  match classify (kind cursor) with
  | None => (CXChildVisit_Recurse, ctx)
  | Some (typ, ret) =>
      let fname := spelling_file cursor in
      if Nat.eqb (String.length fname) 0 then (ret, ctx)
      else
        let '(tokenHash, ident) :=
          Hash.HashToken char_is_signed
                         (clang_getCursorCompletionString cursor) "" in
        if Nat.eqb (String.length ident) 0 then (ret, ctx)
        else
          let '(displayName, scopeName) :=
            foldl name_step ("", "")
                  ((kind cursor, clang_getCursorDisplayName cursor)
                     :: semantic_parents cursor) in
          let '(db, fId) :=
            TokenQueries.GetFilenameId Normalize fname (database ctx) in
          let location :=
            mkPosition (spelling_line cursor) (spelling_column cursor) in
          let tok := ClAbstractToken_at typ fId location ident tokenHash in
          let db := (TokenDB.InsertToken tok db).1 in
          let count := (tokenCount ctx + 1) mod 2 ^ 64 in
          if Nat.ltb 0 (String.length displayName) then
            let scopes := default [] (functionScopes ctx !! fId) in
            let duplicate :=
              match last scopes with
              | Some (mkFunctionScope backFunction backScope _) =>
                  bool_decide (backScope = scopeName)
                  && bool_decide (backFunction = displayName)
              | None => false
              end in
            if duplicate then (ret, mkContext db count (functionScopes ctx))
            else
              (ret,
               mkContext db count
                 (<[fId := scopes ++ [mkFunctionScope displayName scopeName
                                                      location]]>
                    (functionScopes ctx)))
          else (ret, mkContext db count (functionScopes ctx))
  end.

(** [clang_visitChildren], as the native library documents it: the visitor
    is called on every child in turn; [Continue] goes on with the next
    sibling, [Recurse] visits the children of the child first, [Break] ends
    the traversal, and the result tells whether it ended that way. *)
Fixpoint visit_node (node : AST) (ctx : ClangVisitorContext)
    : bool * ClangVisitorContext :=
  match node with
  | Node cursor children =>
      let '(ret, ctx) := ClAST_Visitor cursor ctx in
      match ret with
      | CXChildVisit_Break => (true, ctx)
      | CXChildVisit_Continue => (false, ctx)
      | CXChildVisit_Recurse =>
          (fix visit_all (l : list AST) (ctx : ClangVisitorContext) :=
             match l with
             | [] => (false, ctx)
             | child :: rest =>
                 let '(stop, ctx) := visit_node child ctx in
                 if stop then (true, ctx) else visit_all rest ctx
             end) children ctx
      end
  end.

Fixpoint clang_visitChildren (children : list AST) (ctx : ClangVisitorContext)
    : bool * ClangVisitorContext :=
  match children with
  | [] => (false, ctx)
  | child :: rest =>
      let '(stop, ctx) := visit_node child ctx in
      if stop then (true, ctx) else clang_visitChildren rest ctx
  end.
End Host.
End Visitor.

(** ** Going from one diagnostic to the next (clangdiagnostics.cpp) *)

Module ClangDiagnostics.

(** What the handlers ask of the editor control, and what they tell it. *)
Record cbStyledTextCtrl := mkStc {
  GetCurrentLine : Z;
  GetFirstVisibleLine : Z;
  LinesOnScreen : Z }.

Inductive StcCall :=
| GotoLine (line : Z)
| MakeNearbyLinesVisible (line : Z)
| ScrollLines (lines : Z).

(** [ed] is [None] when there is no active built-in editor.  Lines are
    [int]s; no line number is near the ends of the type. *)
Definition OnGotoNextDiagnostic (ed : option cbStyledTextCtrl)
    (m_Diagnostics : list ClDiagnostic) : list StcCall :=
  match ed with
  | None => []
  | Some stc =>
      match List.find (λ it, Z.ltb (GetCurrentLine stc) (Diagnostic.line it - 1))
                      m_Diagnostics with
      | Some it => [GotoLine (Diagnostic.line it - 1);
                    MakeNearbyLinesVisible (Diagnostic.line it - 1)]
      | None => []
      end
  end.

(** The loop of [OnGotoPrevDiagnostic]: it stops at the first diagnostic
    that is not above the caret. *)
Fixpoint last_above (currentLine prevLine : Z) (l : list ClDiagnostic) : Z :=
  match l with
  | [] => prevLine
  | it :: rest =>
      if Z.ltb (Diagnostic.line it - 1) currentLine
      then last_above currentLine (Diagnostic.line it - 1) rest
      else prevLine
  end.

Definition OnGotoPrevDiagnostic (ed : option cbStyledTextCtrl)
    (m_Diagnostics : list ClDiagnostic) : list StcCall :=
  match ed with
  | None => []
  | Some stc =>
      let prevLine := last_above (GetCurrentLine stc) (-1) m_Diagnostics in
      if Z.leb 0 prevLine then
        if Z.ltb prevLine (GetFirstVisibleLine stc) then
          [GotoLine prevLine; ScrollLines (Z.quot (- LinesOnScreen stc) 2)]
        else [GotoLine prevLine; MakeNearbyLinesVisible prevLine]
      else []
  end.

End ClangDiagnostics.
(** * Properties *)

(** ** Walking sets and buckets *)

Lemma elem_of_ascending (s : gset Z) (x : Z) : x ∈ ascending s ↔ x ∈ s.
Proof.
  unfold ascending. rewrite merge_sort_Permutation. apply elem_of_elements.
Qed.

Lemma NoDup_ascending (s : gset Z) : NoDup (ascending s).
Proof.
  unfold ascending. rewrite merge_sort_Permutation. apply NoDup_elements.
Qed.

Lemma elem_of_GetIdSet (key : string) (m : gset (string * Z)) (id : Z) :
  id ∈ TreeMapInt.GetIdSet key m ↔ (key, id) ∈ m.
Proof.
  unfold TreeMapInt.GetIdSet. rewrite elem_of_map. split.
  - intros [[k i] [-> [Hk Hin]%elem_of_filter]]. simpl in *. by subst.
  - intros Hin. exists (key, id). split; [done|]. by apply elem_of_filter.
Qed.

Lemma GetValue_Some {V} (id : Z) (m : TreeMap.t V) (v : V) :
  TreeMap.GetValue id m = Some v ↔ 0 ≤ id ∧ TreeMap.m_Data m !! Z.to_nat id = Some v.
Proof.
  unfold TreeMap.GetValue. destruct (Z.ltb_spec id 0); split.
  - done.
  - intros [? _]. lia.
  - done.
  - by intros [_ ?].
Qed.

Lemma elem_of_bucket (ident : string) (m : TreeMap.t ClIndexToken) id tok :
  (id, tok) ∈ IndexDB.bucket ident m ↔
  id ∈ TreeMap.GetIdSet ident m ∧ TreeMap.GetValue id m = Some tok.
Proof.
  unfold IndexDB.bucket. rewrite list_elem_of_omap. split.
  - intros [i [Hi Heq]]. apply elem_of_ascending in Hi.
    destruct (TreeMap.GetValue i m) eqn:E; simplify_eq/=. done.
  - intros [Hi Hv]. exists id. rewrite elem_of_ascending, Hv. done.
Qed.

Lemma has_type_spec (mask typeMask : Z) :
  IndexDB.has_type mask typeMask = true ↔ Z.land mask typeMask = typeMask.
Proof. unfold IndexDB.has_type. apply Z.eqb_eq. Qed.

Lemma usr_matches_either_spec usr tok :
  IndexDB.usr_matches_either usr tok = true ↔
  usr = "" ∨ USR tok = "" ∨ usr = USR tok.
Proof.
  unfold IndexDB.usr_matches_either.
  rewrite !orb_true_iff, !bool_decide_eq_true. tauto.
Qed.

Lemma usr_matches_query_spec usr tok :
  IndexDB.usr_matches_query usr tok = true ↔ usr = "" ∨ usr = USR tok.
Proof.
  unfold IndexDB.usr_matches_query.
  rewrite !orb_true_iff, !bool_decide_eq_true. tauto.
Qed.

(** ** The two USR rules of the index *)

Lemma LookupTokenFileList_fold usr typeMask (l : list (Z * ClIndexToken))
    (acc : gset Z) (f : Z) :
  f ∈ foldl (λ retList it,
               let token := it.2 in
               if IndexDB.has_type (tokenTypeMask token) typeMask
                  && IndexDB.usr_matches_either usr token
               then foldl (λ r it2, {[ fileId it2 ]} ∪ r) retList (locationList token)
               else retList) acc l
  ↔ f ∈ acc ∨ ∃ it loc, it ∈ l
        ∧ IndexDB.has_type (tokenTypeMask it.2) typeMask = true
        ∧ IndexDB.usr_matches_either usr it.2 = true
        ∧ loc ∈ locationList it.2 ∧ fileId loc = f.
Proof.
  assert (Hin : ∀ (locs : list ClIndexTokenLocation) (r : gset Z),
             f ∈ foldl (λ r it2, {[ fileId it2 ]} ∪ r) r locs
             ↔ f ∈ r ∨ ∃ loc, loc ∈ locs ∧ fileId loc = f).
  { induction locs as [|loc locs IH]; intros r; simpl.
    - split; [by left|]. intros [?|(? & []%elem_of_nil & _)]. done.
    - rewrite IH. set_solver. }
  revert acc. induction l as [|it l IH]; intros acc; simpl.
  - split; [by left|]. intros [?|(? & ? & []%elem_of_nil & _)]. done.
  - rewrite IH. clear IH.
    destruct (IndexDB.has_type _ _ && IndexDB.usr_matches_either _ _) eqn:E.
    + apply andb_true_iff in E as [E1 E2]. rewrite Hin. split.
      * intros [[?|(loc & ? & ?)]|(it' & loc & ? & ?)].
        -- by left.
        -- right. exists it, loc. set_solver.
        -- right. exists it', loc. set_solver.
      * intros [?|(it' & loc & [->|?]%elem_of_cons & ? & ? & ? & ?)].
        -- by left; left.
        -- left; right. by exists loc.
        -- right. by exists it', loc.
    + split.
      * intros [?|(it' & loc & ? & ?)]; [by left|].
        right. exists it', loc. set_solver.
      * intros [?|(it' & loc & [->|?]%elem_of_cons & E1 & E2 & ? & ?)].
        -- by left.
        -- rewrite E1, E2 in E. done.
        -- right. by exists it', loc.
Qed.

Lemma LookupTokenFileList_spec db ident usr typeMask f :
  f ∈ IndexDB.LookupTokenFileList ident usr typeMask db ↔
  ∃ id tok loc,
    id ∈ TreeMap.GetIdSet ident (m_pIndexTokenMap db)
    ∧ TreeMap.GetValue id (m_pIndexTokenMap db) = Some tok
    ∧ Z.land (tokenTypeMask tok) typeMask = typeMask
    ∧ (usr = "" ∨ USR tok = "" ∨ usr = USR tok)
    ∧ loc ∈ locationList tok ∧ fileId loc = f.
Proof.
  unfold IndexDB.LookupTokenFileList. rewrite LookupTokenFileList_fold. split.
  - intros [[]%not_elem_of_empty|([id tok] & loc & Hb & Ht & Hu & Hl & Hf)].
    apply elem_of_bucket in Hb as [? ?]. exists id, tok, loc.
    by rewrite <- has_type_spec, <- usr_matches_either_spec.
  - intros (id & tok & loc & ? & ? & Ht & Hu & ? & ?). right.
    exists (id, tok), loc. rewrite elem_of_bucket.
    by rewrite <- has_type_spec, <- usr_matches_either_spec in *.
Qed.

Lemma LookupTokenPosition_spec db ident fId usr typeMask :
  is_Some (IndexDB.LookupTokenPosition ident fId usr typeMask db) ↔
  ∃ id tok loc,
    id ∈ TreeMap.GetIdSet ident (m_pIndexTokenMap db)
    ∧ TreeMap.GetValue id (m_pIndexTokenMap db) = Some tok
    ∧ Z.land (tokenTypeMask tok) typeMask = typeMask
    ∧ (usr = "" ∨ usr = USR tok)
    ∧ loc ∈ locationList tok
    ∧ Z.land (tokenType loc) typeMask = typeMask ∧ fileId loc = fId.
Proof.
  unfold IndexDB.LookupTokenPosition.
  transitivity (∃ it loc, it ∈ IndexDB.bucket ident (m_pIndexTokenMap db)
      ∧ IndexDB.has_type (tokenTypeMask it.2) typeMask = true
      ∧ IndexDB.usr_matches_query usr it.2 = true
      ∧ loc ∈ locationList it.2
      ∧ IndexDB.has_type (tokenType loc) typeMask = true ∧ fileId loc = fId).
  - induction (IndexDB.bucket ident (m_pIndexTokenMap db)) as [|it l IH].
    + split; [by intros [? ?]|]. by intros (? & ? & []%elem_of_nil & _).
    + destruct (IndexDB.has_type (tokenTypeMask it.2) typeMask
                && IndexDB.usr_matches_query usr it.2) eqn:E.
      * destruct (List.find _ (locationList it.2)) as [loc|] eqn:F.
        -- split; [intros _|by eauto].
           apply find_some in F as [Hin [H1 H2%Z.eqb_eq]%andb_true_iff].
           apply andb_true_iff in E as [E1 E2].
           exists it, loc. rewrite <- list_elem_of_In in Hin. set_solver.
        -- rewrite IH. split.
           ++ intros (it' & loc & ? & ?). exists it', loc. set_solver.
           ++ intros (it' & loc & [->|?]%elem_of_cons & ? & ? & Hin & H1 & H2).
              ** apply list_elem_of_In in Hin.
                 eapply find_none in F; [|done]. simpl in F.
                 rewrite H1 in F. apply Z.eqb_eq in H2. by rewrite H2 in F.
              ** by exists it', loc.
      * rewrite IH. split.
        -- intros (it' & loc & ? & ?). exists it', loc. set_solver.
        -- intros (it' & loc & [->|?]%elem_of_cons & E1 & E2 & ?).
           ++ rewrite E1, E2 in E. done.
           ++ by exists it', loc.
  - split.
    + intros ([id tok] & loc & [? ?]%elem_of_bucket & Ht & Hu & ? & Hl & ?).
      exists id, tok, loc.
      by rewrite <- !has_type_spec, <- usr_matches_query_spec.
    + intros (id & tok & loc & ? & ? & Ht & Hu & ? & Hl & ?).
      exists (id, tok), loc. rewrite elem_of_bucket.
      by rewrite <- !has_type_spec, <- usr_matches_query_spec in *.
Qed.

(** A database with one token, stored without a USR. *)
Definition db_without_usr : ClTokenIndexDatabase :=
  IndexDB.UpdateToken "f" "f" 1 "" 2
    (mkRange (mkPosition 3 1) (mkPosition 3 2)) [] ("", "") IndexDB.empty.

(** C10: [LookupTokenFileList] accepts a token when the queried USR or the
    stored USR is empty or both are equal, [LookupTokenPosition] only when the
    queried USR is empty or equals the stored one; and there is a database
    with a token stored under an empty USR whose file the first lookup
    returns for a non-empty USR while the second finds no position. *)
Theorem usr_wildcard_differs_between_lookups :
  (∀ db ident usr typeMask f,
     f ∈ IndexDB.LookupTokenFileList ident usr typeMask db ↔
     ∃ id tok loc,
       id ∈ TreeMap.GetIdSet ident (m_pIndexTokenMap db)
       ∧ TreeMap.GetValue id (m_pIndexTokenMap db) = Some tok
       ∧ Z.land (tokenTypeMask tok) typeMask = typeMask
       ∧ (usr = "" ∨ USR tok = "" ∨ usr = USR tok)
       ∧ loc ∈ locationList tok ∧ fileId loc = f)
  ∧ (∀ db ident fId usr typeMask,
       is_Some (IndexDB.LookupTokenPosition ident fId usr typeMask db) ↔
       ∃ id tok loc,
         id ∈ TreeMap.GetIdSet ident (m_pIndexTokenMap db)
         ∧ TreeMap.GetValue id (m_pIndexTokenMap db) = Some tok
         ∧ Z.land (tokenTypeMask tok) typeMask = typeMask
         ∧ (usr = "" ∨ usr = USR tok)
         ∧ loc ∈ locationList tok
         ∧ Z.land (tokenType loc) typeMask = typeMask ∧ fileId loc = fId)
  ∧ ∃ db ident usr typeMask fId tok,
      TreeMap.GetValue 0 (m_pIndexTokenMap db) = Some tok
      ∧ 0 ∈ TreeMap.GetIdSet ident (m_pIndexTokenMap db)
      ∧ USR tok = "" ∧ usr ≠ ""
      ∧ fId ∈ IndexDB.LookupTokenFileList ident usr typeMask db
      ∧ IndexDB.LookupTokenPosition ident fId usr typeMask db = None.
Proof.
  split; [|split].
  - intros. apply LookupTokenFileList_spec.
  - intros. apply LookupTokenPosition_spec.
  - exists db_without_usr, "f"%string, "c:@F@f#"%string, 2, 1.
    eexists. split; [reflexivity|].
    split; [by vm_compute|]. split; [done|]. split; [done|].
    split; by vm_compute.
Qed.

(** ** [RemoveFileTokens] *)

Lemma RemoveFileTokens_clears_index fId db :
  TreeMapInt.GetIdSet (Format_d fId)
    (m_pFileTokens (IndexDB.RemoveFileTokens fId db)) = ∅.
Proof.
  apply set_eq. intros id. rewrite elem_of_GetIdSet. simpl.
  unfold TreeMapInt.RemoveKey. rewrite elem_of_filter. set_solver.
Qed.

Lemma erase_file_locations_skips fId a b rest :
  fileId a = fId →
  IndexDB.erase_file_locations fId (a :: b :: rest)
  = b :: IndexDB.erase_file_locations fId rest.
Proof. intros <-. simpl. by rewrite Z.eqb_refl. Qed.

(** A token declared twice in file 1: two location entries in a row. *)
Definition db_declared_twice : ClTokenIndexDatabase :=
  IndexDB.UpdateToken "f" "f" 1 "c:@F@f#" 2
    (mkRange (mkPosition 7 1) (mkPosition 7 5)) [] ("", "")
    (IndexDB.UpdateToken "f" "f" 1 "c:@F@f#" 2
       (mkRange (mkPosition 1 1) (mkPosition 1 5)) [] ("", "") IndexDB.empty).

(** C4: on a token with two consecutive location entries of file 1,
    [RemoveFileTokens 1] erases the first entry and steps over the second:
    the token keeps a location of file 1, while the index entry of the file
    is cleared. *)
Theorem RemoveFileTokens_keeps_second_of_two :
  let db := IndexDB.RemoveFileTokens 1 db_declared_twice in
  (locationList <$> TreeMap.GetValue 0 (m_pIndexTokenMap db_declared_twice))
  = Some [mkLocation 2 1 (mkRange (mkPosition 1 1) (mkPosition 1 5));
          mkLocation 2 1 (mkRange (mkPosition 7 1) (mkPosition 7 5))]
  ∧ (locationList <$> TreeMap.GetValue 0 (m_pIndexTokenMap db))
    = Some [mkLocation 2 1 (mkRange (mkPosition 7 1) (mkPosition 7 5))]
  ∧ 0 ∈ TreeMap.GetIdSet "f" (m_pIndexTokenMap db)
  ∧ TreeMapInt.GetIdSet (Format_d 1) (m_pFileTokens db) = ∅.
Proof.
  split; [by vm_compute|]. split; [by vm_compute|]. split; [by vm_compute|].
  apply RemoveFileTokens_clears_index.
Qed.

(** ** [ClTokenDatabase::RemoveToken] and [UpdateToken] *)

Lemma HasValue_of_GetValue {V} id (m : TreeMap.t V) v :
  TreeMap.GetValue id m = Some v → TreeMap.HasValue id m = true.
Proof.
  intros [? Hl]%GetValue_Some. apply lookup_lt_Some in Hl.
  unfold TreeMap.HasValue.
  destruct (Z.ltb_spec id 0); [lia|].
  destruct (Z.leb_spec (Z.of_nat (length (TreeMap.m_Data m))) id); [lia|done].
Qed.

(** C8: [UpdateToken] works on a copy of the slot, so neither it nor
    [RemoveToken] changes what is stored: with [assert] compiled out,
    [RemoveToken id] returns a database whose slot [id] still holds the old
    token, file id included; with [assert] compiled in it stops at the
    assertion whenever the token is live. *)
Theorem RemoveToken_leaves_stored_token db id tok :
  TreeMap.GetValue id (m_pTokens db) = Some tok →
  (∃ db', TokenDB.RemoveToken true id db = Returned db'
          ∧ TreeMap.m_Data (m_pTokens db') = TreeMap.m_Data (m_pTokens db)
          ∧ TokenDB.GetToken true id db' = Returned tok)
  ∧ (AbstractToken.fileId tok ≠ wxNOT_FOUND →
     TokenDB.RemoveToken false id db
     = AssertFailed "Only an unused token can be updated").
Proof.
  intros Hv. pose proof (HasValue_of_GetValue _ _ _ Hv) as Hh. split.
  - unfold TokenDB.RemoveToken, TokenDB.GetToken, TokenDB.UpdateToken.
    simpl. rewrite Hv. simpl.
    eexists. split; [reflexivity|]. split; [reflexivity|].
    unfold TreeMap.GetValue in *. simpl. by rewrite Hv.
  - intros Hlive.
    unfold TokenDB.RemoveToken, TokenDB.GetToken, TokenDB.UpdateToken,
      TokenDB.assert.
    simpl. rewrite Hh, Hv. simpl. rewrite ?Hv. simpl.
    destruct (Z.eqb_spec (AbstractToken.fileId tok) wxNOT_FOUND); done.
Qed.

(** One token of file 1 in an otherwise empty database. *)
Definition db_one_token : ClTokenDatabase :=
  (TokenDB.InsertToken
     (AbstractToken.mk 2 1 (mkRange (mkPosition 4 1) (mkPosition 4 9))
                       "main" "main" "c:@F@main#" 77 [] ("", ""))
     TokenDB.empty).1.

Lemma RemoveToken_leaves_stored_token_witness :
  ∃ tok,
    TreeMap.GetValue 0 (m_pTokens db_one_token) = Some tok
    ∧ AbstractToken.fileId tok = 1
    ∧ (∃ db', TokenDB.RemoveToken true 0 db_one_token = Returned db'
              ∧ TreeMap.m_Data (m_pTokens db')
                = TreeMap.m_Data (m_pTokens db_one_token)
              ∧ TokenDB.GetToken true 0 db' = Returned tok)
    ∧ TokenDB.RemoveToken false 0 db_one_token
      = AssertFailed "Only an unused token can be updated".
Proof.
  eexists. split; [reflexivity|]. split; [reflexivity|].
  pose proof (RemoveToken_leaves_stored_token db_one_token 0 _ eq_refl) as [H1 H2].
  split; [exact H1|]. apply H2. done.
Defined.

(** ** [CodeCompleteAtJob::Execute] *)

Definition is_ctor_or_dtor (c : ClTokenCategory) : bool :=
  match c with
  | tcCtorPublic | tcDtorPublic => true
  | _ => false
  end.

Section ExecuteKeepsCandidates.
Context {Diagnostic : Type}.
Variable CodeCompleteAt :
  ClTranslUnitId → wxString → ClTokenPosition → Z →
  list (wxString * wxString) → list ClToken.t * list Diagnostic.
Variable RefineTokenType : ClTranslUnitId → Z → ClTokenCategory → ClTokenCategory.

Lemma visit_id job tkn :
  ClToken.id (CodeCompleteAtJob.visit Diagnostic RefineTokenType job tkn)
  = ClToken.id tkn.
Proof.
  unfold CodeCompleteAtJob.visit.
  destruct (ClToken.category tkn), (CodeCompleteAtJob.m_IncludeCtors _ job); done.
Qed.

Lemma visit_ctor_off job tkn :
  CodeCompleteAtJob.m_IncludeCtors _ job = false →
  is_ctor_or_dtor (ClToken.category tkn) = true →
  CodeCompleteAtJob.visit Diagnostic RefineTokenType job tkn = tkn.
Proof.
  intros Hoff Hc. unfold CodeCompleteAtJob.visit. rewrite Hoff.
  destruct (ClToken.category tkn); done.
Qed.

(** C2, as the code has it: with the include-constructors option off,
    [Execute] hands back every candidate that [CodeCompleteAt] produced, in
    the same order and under the same ids; a candidate of the public
    constructor or destructor category stays in the result as it was,
    without being refined. *)
Theorem Execute_keeps_constructors job :
  CodeCompleteAtJob.m_IncludeCtors _ job = false →
  let produced :=
    (CodeCompleteAt (CodeCompleteAtJob.m_TranslId _ job)
       (CodeCompleteAtJob.m_Filename _ job) (CodeCompleteAtJob.m_Position _ job)
       (CodeCompleteAtJob.m_Options _ job)
       (CodeCompleteAtJob.m_UnsavedFiles _ job)).1 in
  let results :=
    CodeCompleteAtJob.m_pResults _
      (CodeCompleteAtJob.Execute Diagnostic CodeCompleteAt RefineTokenType job) in
  length results = length produced
  ∧ ClToken.id <$> results = ClToken.id <$> produced
  ∧ ∀ i tkn, produced !! i = Some tkn →
             is_ctor_or_dtor (ClToken.category tkn) = true →
             results !! i = Some tkn.
Proof.
  intros Hoff produced results. subst produced results.
  unfold CodeCompleteAtJob.Execute.
  destruct (CodeCompleteAt _ _ _ _ _) as [produced diags]. simpl.
  split; [by rewrite length_map|]. split.
  - change (List.map ?f ?l) with (f <$> l). rewrite <- list_fmap_compose.
    apply list_fmap_ext. intros ? tkn _. apply visit_id.
  - intros i tkn Hi Hc. change (List.map ?f ?l) with (f <$> l).
    rewrite list_lookup_fmap, Hi. simpl. f_equal. by apply visit_ctor_off.
Qed.
End ExecuteKeepsCandidates.

(** A completion that offers one constructor, and a job with the option off. *)
Definition offers_constructor (_ : ClTranslUnitId) (_ : wxString)
    (_ : ClTokenPosition) (_ : Z) (_ : list (wxString * wxString))
  : list ClToken.t * list unit :=
  ([ClToken.mk 0 tcCtorPublic 10 "Widget"], []).

Definition job_without_ctors : CodeCompleteAtJob.t unit :=
  CodeCompleteAtJob.mk unit "widget.cpp" (mkPosition 3 7) 0 [] false [] [] 0.

Lemma Execute_keeps_constructors_witness :
  CodeCompleteAtJob.m_pResults _
    (CodeCompleteAtJob.Execute unit offers_constructor (λ _ _ c, c) job_without_ctors)
  !! 0%nat = Some (ClToken.mk 0 tcCtorPublic 10 "Widget").
Proof.
  pose proof (Execute_keeps_constructors offers_constructor (λ _ _ c, c)
                job_without_ctors eq_refl) as (_ & _ & Hkept).
  apply Hkept; reflexivity.
Defined.

(** C2 as it is worded fails: the constructor above is in the final result
    although the option is off, whatever [RefineTokenType] does. *)
Lemma Execute_does_not_drop_constructors :
  ¬ (∀ (RefineTokenType : ClTranslUnitId → Z → ClTokenCategory → ClTokenCategory)
       (job : CodeCompleteAtJob.t unit),
       CodeCompleteAtJob.m_IncludeCtors _ job = false →
       ∀ tkn, tkn ∈ CodeCompleteAtJob.m_pResults _
                      (CodeCompleteAtJob.Execute unit offers_constructor
                                                 RefineTokenType job) →
              is_ctor_or_dtor (ClToken.category tkn) = false).
Proof.
  intros H.
  specialize (H (λ _ _ c, c) job_without_ctors eq_refl
                (ClToken.mk 0 tcCtorPublic 10 "Widget")).
  discriminate H. vm_compute. apply list_elem_of_here.
Qed.

(** ** The include list of [ProcessAllTokens] *)

Lemma unique_step_length st first :
  length (Std.unique_step st first).1 = length st.1.
Proof.
  destruct st as [v result]. unfold Std.unique_step.
  destruct (v !! result) as [a|]; [|done].
  destruct (v !! first) as [b|]; [|done].
  destruct (Z.eqb a b); [done|]. destruct (Nat.eqb (S result) first); [done|].
  simpl. apply length_insert.
Qed.

Lemma unique_loop_length l st :
  length (foldl Std.unique_step st l).1 = length st.1.
Proof.
  revert st. induction l as [|i l IH]; intros st; simpl; [done|].
  by rewrite IH, unique_step_length.
Qed.

Lemma unique_length v : length (Std.unique v).1 = length v.
Proof.
  unfold Std.unique. destruct v as [|x v]; [done|].
  pose proof (unique_loop_length (seq 1 (length (x :: v) - 1)) (x :: v, 0%nat)) as H.
  destruct (foldl _ _ _). done.
Qed.

(** Nothing is ever taken out of the list: it grows by the own file id. *)
Lemma finish_include_list_length own v :
  length (TranslationUnit.finish_include_list own v) = S (length v).
Proof.
  unfold TranslationUnit.finish_include_list, Std.sort.
  rewrite unique_length, merge_sort_Permutation, length_app. simpl. lia.
Qed.

Lemma elem_of_insert_inv {A} (l : list A) (i : nat) (y x : A) :
  x ∈ <[i:=y]> l → x = y ∨ x ∈ l.
Proof.
  intros [j Hj]%list_elem_of_lookup.
  apply list_lookup_insert_Some in Hj as [(_ & -> & _)|[_ Hj]]; [by left|right].
  by eapply list_elem_of_lookup_2.
Qed.

Lemma unique_step_values st first x :
  x ∈ (Std.unique_step st first).1 → x ∈ st.1.
Proof.
  destruct st as [v result]. unfold Std.unique_step.
  destruct (v !! result) as [a|]; [|done].
  destruct (v !! first) as [b|] eqn:Hb; [|done].
  destruct (Z.eqb a b); [done|]. destruct (Nat.eqb (S result) first); [done|].
  simpl. intros [->|?]%elem_of_insert_inv; [|done].
  by eapply list_elem_of_lookup_2.
Qed.

Lemma unique_values v x : x ∈ (Std.unique v).1 → x ∈ v.
Proof.
  unfold Std.unique. destruct v as [|y v]; [done|].
  assert (H : ∀ l st, x ∈ (foldl Std.unique_step st l).1 → x ∈ st.1).
  { induction l as [|i l IH]; intros st; simpl; [done|].
    intros Hx%IH. by eapply unique_step_values. }
  specialize (H (seq 1 (length (y :: v) - 1)) (y :: v, 0%nat)).
  by destruct (foldl _ _ _).
Qed.

(** Whenever the own file is among the files the inclusion walk reports (the
    walk reports the main file itself), the finished list repeats an id. *)
Lemma finish_include_list_repeats own v :
  own ∈ v → ¬ NoDup (TranslationUnit.finish_include_list own v).
Proof.
  intros Hown Hnd.
  assert (Hsub : TranslationUnit.finish_include_list own v ⊆+ v).
  { apply NoDup_submseteq; [done|]. intros x Hx%unique_values.
    unfold Std.sort in Hx. rewrite merge_sort_Permutation in Hx.
    apply elem_of_app in Hx as [?|[->|[]%elem_of_nil]%elem_of_cons]; done. }
  apply submseteq_length in Hsub. rewrite finish_include_list_length in Hsub. lia.
Qed.

Module IncludeExample.
(** The unit of [/m.cpp] (file 0), whose inclusion walk reports the main
    file, [/a.h] twice (a header without include guard) and [/b.h]. *)
Definition files : TreeMap.t ClFilenameEntry :=
  (FilenameDB.GetFilenameId (λ f, f) "/m.cpp" TreeMap.empty).1.

Definition database : ClTokenDatabase :=
  mkTokenDB (mkIndexDB files TreeMap.empty TreeMapInt.empty false)
            TreeMap.empty TreeMapInt.empty.

Definition unit_m : TranslationUnit.t :=
  TranslationUnit.mk 0 0 [0] 1000 2000 TranslationUnit.nullptr
    (mkPosition (-1) (-1)) false 0 ∅.

Definition reported (_ : list TranslationUnit.NativeCall) : list wxString :=
  ["/m.cpp"; "/a.h"; "/a.h"; "/b.h"]%string.

Definition run :=
  TranslationUnit.ProcessAllTokens
    reported (λ _ db, (db, ∅)) (λ f, f) Some database [] ∅ unit_m [].
End IncludeExample.

(** C5: for the unit above [ProcessAllTokens] returns the include list
    [0; 1; 2; 1; 2]: it holds the own file id 0, but it is neither
    duplicate-free nor ascending, since what [std::unique] returns is dropped
    and the vector is kept whole. *)
Theorem ProcessAllTokens_include_list_keeps_duplicates :
  IncludeExample.run.1.1.2 = [0; 1; 2; 1; 2]
  ∧ TranslationUnit.m_ClTranslUnit IncludeExample.unit_m ≠ TranslationUnit.nullptr
  ∧ 0 ∈ IncludeExample.run.1.1.2
  ∧ ¬ NoDup IncludeExample.run.1.1.2
  ∧ ¬ Sorted Z.le IncludeExample.run.1.1.2.
Proof.
  assert (E : IncludeExample.run.1.1.2 = [0; 1; 2; 1; 2]) by (vm_compute; reflexivity).
  split; [exact E|]. split; [discriminate|].
  generalize dependent (IncludeExample.run.1.1.2). intros l ->.
  split; [apply list_elem_of_here|]. split.
  - intros H. apply NoDup_cons in H as [_ H]. apply NoDup_cons in H as [H _].
    apply H. apply list_elem_of_further, list_elem_of_here.
  - intros H. inversion H as [|? ? H1 _]; subst.
    inversion H1 as [|? ? H2 _]; subst.
    inversion H2 as [|? ? _ H3]; subst.
    inversion H3; subst. lia.
Qed.

(** ** [HashToken] *)

(** The texts of the chunks of kind TypedText. *)
Definition typed_texts (token : CXCompletionString) : list string :=
  omap (λ chunk, match chunk.1 with
                 | CXCompletionChunk_TypedText => Some chunk.2
                 | CXCompletionChunk_Other _ => None
                 end) token.

(** The hash C6 describes: the tilde of a typed text is left out of the bytes
    that are hashed. *)
Definition hash_without_tilde (token : CXCompletionString) : Z :=
  Hash.fnv1a
    (concat ((λ chunk, Hash.utf8_bytes
                         match chunk.1 with
                         | CXCompletionChunk_TypedText => Hash.skip_tilde chunk.2
                         | CXCompletionChunk_Other _ => chunk.2
                         end) <$> token)).

Definition plain_chars (signed : bool) (token : CXCompletionString) : Prop :=
  signed = false ∨ ∀ chunk b, chunk ∈ token → b ∈ Hash.utf8_bytes chunk.2 → b < 128.

Lemma hash_step_plain signed h c :
  signed = false ∨ Hash.byte_of c < 128 →
  Hash.hash_step signed h c = (Z.lxor h (Hash.byte_of c) * 16777619) mod 2 ^ 32.
Proof.
  intros H. unfold Hash.hash_step, Hash.char_to_unsigned.
  destruct H as [->|H]; [done|].
  destruct (Z.leb_spec 128 (Hash.byte_of c)); [lia|]. by rewrite andb_false_r.
Qed.

Lemma hash_chars_plain signed h (chars : list ascii) :
  signed = false ∨ (∀ b, b ∈ Hash.byte_of <$> chars → b < 128) →
  foldl (Hash.hash_step signed) h chars
  = foldl (λ h b, (Z.lxor h b * 16777619) mod 2 ^ 32) h (Hash.byte_of <$> chars).
Proof.
  revert h. induction chars as [|c chars IH]; intros h H; simpl; [done|].
  rewrite hash_step_plain, IH; [done| |].
  - destruct H as [?|H]; [by left|right]. intros b Hb. apply H. simpl.
    by apply list_elem_of_further.
  - destruct H as [?|H]; [by left|right]. apply H. simpl. apply list_elem_of_here.
Qed.

Lemma HashToken_fold signed (token : CXCompletionString) h ident :
  plain_chars signed token →
  foldl (λ st chunk,
           let ident := match chunk.1 with
                        | CXCompletionChunk_TypedText => Hash.skip_tilde chunk.2
                        | CXCompletionChunk_Other _ => st.2
                        end in
           (foldl (Hash.hash_step signed) st.1
                  (String.list_ascii_of_string chunk.2), ident))
        (h, ident) token
  = (foldl (λ h b, (Z.lxor h b * 16777619) mod 2 ^ 32) h
           (concat (Hash.utf8_bytes <$> token.*2)),
     default ident (last (Hash.skip_tilde <$> typed_texts token))).
Proof.
  revert h ident. induction token as [|[kind text] token IH]; intros h ident Hp.
  - done.
  - simpl. rewrite IH.
    + rewrite foldl_app. f_equal.
      * f_equal. apply hash_chars_plain. destruct Hp as [?|Hp]; [by left|right].
        intros b Hb. apply (Hp (kind, text)); [apply list_elem_of_here|done].
      * unfold typed_texts. simpl. destruct kind; simpl; [|done].
        rewrite last_cons. by destruct (last _).
    + destruct Hp as [?|Hp]; [by left|right]. intros chunk b Hc.
      apply Hp. by apply list_elem_of_further.
Qed.

Lemma fnv1a_bounds bytes : 0 ≤ Hash.fnv1a bytes < 2 ^ 32.
Proof.
  unfold Hash.fnv1a.
  assert (∀ h, 0 ≤ h < 2 ^ 32 →
               0 ≤ foldl (λ h b, (Z.lxor h b * 16777619) mod 2 ^ 32) h bytes < 2 ^ 32)
    as H.
  { induction bytes as [|b bytes IH]; intros h Hh; simpl; [done|].
    apply IH. apply Z.mod_pos_bound. lia. }
  apply H. lia.
Qed.

(** C6, as the code has it: where [char] is unsigned or the chunk texts are
    plain ASCII, [HashToken] returns the 32-bit FNV-1a hash (basis 2166136261,
    multiplier 16777619) of the bytes of all chunk texts as they are, a
    leading tilde included; the tilde is stripped only from the identifier
    handed back, which is the text of the last chunk of kind TypedText (the
    caller's identifier when there is none). *)
Theorem HashToken_hashes_untouched_text signed (token : CXCompletionString) ident :
  plain_chars signed token →
  (Hash.HashToken signed token ident).1
  = Hash.fnv1a (concat (Hash.utf8_bytes <$> token.*2))
  ∧ 0 ≤ (Hash.HashToken signed token ident).1 < 2 ^ 32
  ∧ (Hash.HashToken signed token ident).2
    = default ident (last (Hash.skip_tilde <$> typed_texts token)).
Proof.
  intros Hp. unfold Hash.HashToken. rewrite HashToken_fold by done. simpl.
  split; [done|]. split; [apply fnv1a_bounds|done].
Qed.

(** The completion string of a destructor. *)
Definition destructor_chunks : CXCompletionString :=
  [(CXCompletionChunk_Other 15, "void"); (CXCompletionChunk_TypedText, "~Widget");
   (CXCompletionChunk_Other 6, "("); (CXCompletionChunk_Other 7, ")")]%string.

Lemma HashToken_hashes_untouched_text_witness :
  plain_chars true destructor_chunks
  ∧ Hash.HashToken true destructor_chunks "" = (2444698584, "Widget"%string).
Proof.
  assert (Hp : plain_chars true destructor_chunks).
  { right. intros chunk b Hc Hb.
    repeat (apply elem_of_cons in Hc as [->|Hc]);
      [..|by apply elem_of_nil in Hc];
      vm_compute in Hb;
      repeat (apply elem_of_cons in Hb as [->|Hb]);
      try lia; by apply elem_of_nil in Hb. }
  split; [exact Hp|].
  pose proof (HashToken_hashes_untouched_text true destructor_chunks "" Hp)
    as (Hh & _ & Hi).
  rewrite (surjective_pairing (Hash.HashToken _ _ _)), Hh, Hi. by vm_compute.
Defined.

(** C6 as it is worded fails: the tilde of the destructor name is among the
    bytes that are hashed, whether [char] is signed or not. *)
Lemma HashToken_hashes_the_tilde :
  (Hash.HashToken true destructor_chunks "").1 ≠ hash_without_tilde destructor_chunks
  ∧ (Hash.HashToken false destructor_chunks "").1 ≠ hash_without_tilde destructor_chunks.
Proof. split; by vm_compute. Qed.

(** ** A translation unit after a failed reparse *)

Section FailedReparse.
Context {CXCursor ClDiagnostic : Type}.
Variable clang_getNullCursor : CXCursor.
Variable reparse_result : list TranslationUnit.NativeCall → Z.
Variable cursor_result : list TranslationUnit.NativeCall → CXCursor.
Variable codeComplete_result : list TranslationUnit.NativeCall → Z.
Variable inclusions_result : list TranslationUnit.NativeCall → list wxString.
Variable diagnostics_result :
  list TranslationUnit.NativeCall → wxString → list ClDiagnostic.
Variable ast_result :
  list TranslationUnit.NativeCall → ClTokenDatabase →
  ClTokenDatabase * gmap ClFileId (list ClFunctionScope).
Variable wxDateTime_Now : list TranslationUnit.NativeCall → Z.
Variable Normalize : wxString → wxString.
Variable MakeAbsolute : wxString → option wxString.

(** C7: when [clang_reparseTranslationUnit] fails, [Reparse] disposes the
    handle and leaves [m_ClTranslUnit] null (the log grows by the reparse
    and the dispose call); on the unit it leaves, [GetTokenAt] returns the
    null cursor, [CodeCompleteAt] returns null, [GetDiagnostics] and
    [ProcessAllTokens] hand back their arguments unchanged, and none of the
    four adds a call to the log or changes the unit. *)
Theorem failed_reparse_leaves_inert_unit unsavedFiles tu log :
  TranslationUnit.m_ClTranslUnit tu ≠ TranslationUnit.nullptr →
  reparse_result
    (log ++ [TranslationUnit.clang_reparseTranslationUnit
               (TranslationUnit.m_ClTranslUnit tu) unsavedFiles]) ≠ 0 →
  let r := TranslationUnit.Reparse reparse_result wxDateTime_Now
                                   unsavedFiles tu log in
  TranslationUnit.m_ClTranslUnit r.1 = TranslationUnit.nullptr
  ∧ r.2 = log ++ [TranslationUnit.clang_reparseTranslationUnit
                    (TranslationUnit.m_ClTranslUnit tu) unsavedFiles;
                  TranslationUnit.clang_disposeTranslationUnit
                    (TranslationUnit.m_ClTranslUnit tu)]
  ∧ (∀ fname pos log',
       TranslationUnit.GetTokenAt CXCursor clang_getNullCursor cursor_result
                                  fname pos r.1 log'
       = (clang_getNullCursor, log'))
  ∧ (∀ fname pos log',
       TranslationUnit.CodeCompleteAt codeComplete_result fname pos r.1 log'
       = ((TranslationUnit.nullptr, r.1), log'))
  ∧ (∀ fname diagnostics log',
       TranslationUnit.GetDiagnostics ClDiagnostic diagnostics_result
                                      fname diagnostics r.1 log'
       = (diagnostics, log'))
  ∧ (∀ database files scopes log',
       TranslationUnit.ProcessAllTokens inclusions_result ast_result
                                        Normalize MakeAbsolute
                                        database files scopes r.1 log'
       = ((database, files, scopes), log')).
Proof.
  intros Hh Hret r.
  assert (Hr : r = (TranslationUnit.set_ClTranslUnit TranslationUnit.nullptr tu,
                    log ++ [TranslationUnit.clang_reparseTranslationUnit
                              (TranslationUnit.m_ClTranslUnit tu) unsavedFiles;
                            TranslationUnit.clang_disposeTranslationUnit
                              (TranslationUnit.m_ClTranslUnit tu)])).
  { subst r. unfold TranslationUnit.Reparse, TranslationUnit.is_null.
    destruct (Z.eqb_spec (TranslationUnit.m_ClTranslUnit tu)
                         TranslationUnit.nullptr) as [|_]; [done|].
    unfold mbind, TranslationUnit.Native_bind, TranslationUnit.native. simpl.
    destruct (Z.eqb_spec (reparse_result
      (log ++ [TranslationUnit.clang_reparseTranslationUnit
                 (TranslationUnit.m_ClTranslUnit tu) unsavedFiles])) 0)
      as [|_]; [done|].
    simpl. unfold mret, TranslationUnit.Native_ret.
    by rewrite <- app_assoc. }
  rewrite Hr. simpl. repeat split.
Qed.
End FailedReparse.

Module ReparseExample.
Definition unit_m : TranslationUnit.t :=
  TranslationUnit.mk 0 0 [0] 1000 2000 3000 (mkPosition 4 2) false 0 ∅.

(** A library whose reparse fails. *)
Definition failing (_ : list TranslationUnit.NativeCall) : Z := 1.
End ReparseExample.

Lemma failed_reparse_leaves_inert_unit_witness :
  let r := TranslationUnit.Reparse ReparseExample.failing (λ _, 0) []
                                   ReparseExample.unit_m [] in
  TranslationUnit.m_ClTranslUnit r.1 = TranslationUnit.nullptr
  ∧ TranslationUnit.GetTokenAt unit tt (λ _, tt) "m.cpp" (mkPosition 1 1) r.1 r.2
    = (tt, r.2).
Proof.
  pose proof (failed_reparse_leaves_inert_unit (CXCursor := unit)
                (ClDiagnostic := unit) tt ReparseExample.failing (λ _, tt)
                (λ _, 0) (λ _, []) (λ _ _, []) (λ _ db, (db, ∅)) (λ _, 0)
                (λ f, f) Some [] ReparseExample.unit_m [])
    as H.
  destruct H as (H1 & _ & H2 & _); [discriminate|discriminate|].
  split; [exact H1|apply H2].
Defined.

(** ** Storing into [ClTreeMap] *)

Lemma GetValue_SetValue {V} (m : TreeMap.t V) id v old j :
  TreeMap.GetValue id m = Some old →
  TreeMap.GetValue j (TreeMap.SetValue id v m)
  = if decide (j = id) then Some v else TreeMap.GetValue j m.
Proof.
  intros [Hid Hold]%GetValue_Some. apply lookup_lt_Some in Hold.
  unfold TreeMap.SetValue, TreeMap.GetValue.
  destruct (Z.ltb_spec id 0); [lia|]. simpl.
  destruct (Z.ltb_spec j 0).
  - by destruct (decide (j = id)); [lia|].
  - destruct (decide (j = id)) as [->|Hne].
    + by apply list_lookup_insert_eq.
    + apply list_lookup_insert_ne. lia.
Qed.

Lemma SetValue_same {V} (m : TreeMap.t V) id v :
  TreeMap.GetValue id m = Some v → TreeMap.SetValue id v m = m.
Proof.
  intros [Hid Hv]%GetValue_Some. unfold TreeMap.SetValue.
  destruct (Z.ltb_spec id 0); [lia|]. rewrite list_insert_id by done.
  by destruct m.
Qed.

Lemma GetIdSet_SetValue {V} (m : TreeMap.t V) key id v :
  TreeMap.GetIdSet key (TreeMap.SetValue id v m) = TreeMap.GetIdSet key m.
Proof. unfold TreeMap.SetValue. by destruct (Z.ltb id 0). Qed.

Lemma GetValue_Insert {V} (m : TreeMap.t V) key v j :
  TreeMap.GetValue j (TreeMap.Insert key v m).1
  = if decide (j = TreeMap.GetCount m) then Some v else TreeMap.GetValue j m.
Proof.
  unfold TreeMap.Insert, TreeMap.GetValue, TreeMap.GetCount. simpl.
  destruct (Z.ltb_spec j 0).
  - by destruct (decide _); [lia|].
  - destruct (decide _) as [->|Hne].
    + rewrite Nat2Z.id. by rewrite lookup_app_r, Nat.sub_diag.
    + destruct (decide (Z.to_nat j < length (TreeMap.m_Data m))%nat).
      * by rewrite lookup_app_l.
      * rewrite !lookup_ge_None_2; [done|lia|].
        rewrite length_app. simpl. lia.
Qed.

Lemma Insert_id {V} (m : TreeMap.t V) key v :
  (TreeMap.Insert key v m).2 = TreeMap.GetCount m.
Proof.
  unfold TreeMap.Insert, TreeMap.GetCount. simpl. rewrite length_app. simpl. lia.
Qed.

Lemma GetIdSet_Insert {V} (m : TreeMap.t V) key v k j :
  j ∈ TreeMap.GetIdSet k (TreeMap.Insert key v m).1
  ↔ (k = key ∧ j = TreeMap.GetCount m) ∨ j ∈ TreeMap.GetIdSet k m.
Proof.
  unfold TreeMap.GetIdSet. rewrite !elem_of_GetIdSet.
  pose proof (Insert_id m key v) as Hid. unfold TreeMap.Insert in *. simpl in *.
  rewrite Hid. unfold TreeMapInt.Insert. set_solver.
Qed.

(** ** [UpdateToken] called twice *)

Lemma find_unique {A} (P : A → bool) (l : list A) (x : A) :
  x ∈ l → P x = true → (∀ y, y ∈ l → P y = true → y = x) →
  List.find P l = Some x.
Proof.
  induction l as [|a l IH]; intros Hin HP Hu.
  - by apply elem_of_nil in Hin.
  - simpl. destruct (P a) eqn:E.
    + f_equal. apply Hu; [apply list_elem_of_here|done].
    + apply elem_of_cons in Hin as [->|Hin]; [congruence|].
      apply IH; [done..|]. intros y Hy. apply Hu. by apply list_elem_of_further.
Qed.

Lemma find_omap_update {A B} (P : B → bool) (key : B → A) (f g : A → option B)
    (ids : list A) (a : A) (x x' : B) :
  (∀ j y, f j = Some y → key y = j) →
  (∀ j, j ≠ a → g j = f j) →
  f a = Some x → g a = Some x' → P x' = true →
  List.find P (omap f ids) = Some x →
  List.find P (omap g ids) = Some x'.
Proof.
  intros Hkey Hother Hfa Hga HP'.
  induction ids as [|j ids IH]; simpl; [done|].
  destruct (f j) as [y|] eqn:Fj.
  - simpl. destruct (P y) eqn:Py.
    + intros [= ->]. assert (j = a) as ->.
      { apply Hkey in Fj. apply Hkey in Hfa. congruence. }
      rewrite Hga. simpl. by rewrite HP'.
    + intros Hfind.
      assert (j ≠ a) by (intros ->; rewrite Hfa in Fj; simplify_eq;
                         apply find_some in Hfind as [_ ?]; congruence).
      rewrite Hother, Fj by done. simpl. rewrite Py. by apply IH.
  - intros Hfind.
    assert (j ≠ a) by (intros ->; congruence).
    rewrite Hother, Fj by done. by apply IH.
Qed.

Lemma merge_parents_subseteq parents overrides p :
  p ∈ IndexDB.merge_parents parents overrides ↔ p ∈ parents ∨ p ∈ overrides.
Proof.
  unfold IndexDB.merge_parents. revert parents.
  induction overrides as [|o overrides IH]; intros parents; simpl.
  - set_solver.
  - rewrite IH. case_bool_decide; set_solver.
Qed.

Lemma merge_parents_present parents overrides :
  (∀ p, p ∈ overrides → p ∈ parents) →
  IndexDB.merge_parents parents overrides = parents.
Proof.
  unfold IndexDB.merge_parents. induction overrides as [|o overrides IH];
    intros H; simpl; [done|].
  rewrite bool_decide_eq_true_2 by (apply H; apply list_elem_of_here).
  apply IH. intros p Hp. apply H. by apply list_elem_of_further.
Qed.

Lemma merge_parents_NoDup parents overrides :
  NoDup parents → NoDup (IndexDB.merge_parents parents overrides).
Proof.
  unfold IndexDB.merge_parents. revert parents.
  induction overrides as [|o overrides IH]; intros parents Hnd; simpl; [done|].
  apply IH. case_bool_decide; [done|].
  apply NoDup_app. split; [done|]. split; [|apply NoDup_singleton].
  intros x Hx [->|[]%elem_of_nil]%elem_of_cons. done.
Qed.

Lemma filter_absent `{EqDecision A} (l : list A) (x : A) :
  x ∉ l → filter (λ y, y = x) l = [].
Proof.
  induction l as [|a l IH]; intros Hni; [done|].
  rewrite filter_cons. destruct (decide (a = x)) as [->|Hne].
  - exfalso. apply Hni, list_elem_of_here.
  - apply IH. intros Hin. by apply Hni, list_elem_of_further.
Qed.

Lemma occurs_once `{EqDecision A} (l : list A) (x : A) :
  NoDup l → x ∈ l → length (filter (λ y, y = x) l) = 1%nat.
Proof.
  induction 1 as [|a l Hni Hnd IH]; intros Hin.
  - by apply elem_of_nil in Hin.
  - rewrite filter_cons. destruct (decide (a = x)) as [->|Hne].
    + simpl. by rewrite filter_absent.
    + apply elem_of_cons in Hin as [->|Hin]; [done|]. by apply IH.
Qed.

(** The token [UpdateToken] settles on: the first of the bucket with the USR. *)
Definition matched (ident usr : wxString) (m : TreeMap.t ClIndexToken)
  : option (Z * ClIndexToken) :=
  List.find (λ it, bool_decide (USR it.2 = usr)) (IndexDB.bucket ident m).

Definition duplicate_free (db : ClTokenIndexDatabase) : Prop :=
  ∀ id tok, TreeMap.GetValue id (m_pIndexTokenMap db) = Some tok →
            NoDup (locationList tok) ∧ NoDup (parentTokenList tok).

Section UpdateTwice.
Variables (ident name : wxString) (fId : ClFileId) (usr : wxString).
Variables (tokType : ClTokenType) (tokenRange : ClTokenRange).
Variable overrides : list (wxString * wxString).
Variable scp : wxString * wxString.

Let update := IndexDB.UpdateToken ident name fId usr tokType tokenRange overrides scp.
Let location := mkLocation tokType fId tokenRange.

Lemma matched_elem m id tok :
  matched ident usr m = Some (id, tok) →
  id ∈ TreeMap.GetIdSet ident m ∧ TreeMap.GetValue id m = Some tok ∧ USR tok = usr.
Proof.
  intros [Hin HP]%find_some. apply list_elem_of_In, elem_of_bucket in Hin.
  apply bool_decide_eq_true in HP. naive_solver.
Qed.

Lemma UpdateToken_matched db :
  ∃ id tok,
    matched ident usr (m_pIndexTokenMap (update db)) = Some (id, tok)
    ∧ (Format_d fId, id) ∈ m_pFileTokens (update db)
    ∧ Z.lor (tokenTypeMask tok) tokType = tokenTypeMask tok
    ∧ location ∈ locationList tok
    ∧ (∀ p, p ∈ overrides → p ∈ parentTokenList tok)
    ∧ m_bModified (update db) = true
    ∧ (duplicate_free db → NoDup overrides →
       NoDup (locationList tok) ∧ NoDup (parentTokenList tok)).
Proof.
  subst update. unfold IndexDB.UpdateToken.
  fold (matched ident usr (m_pIndexTokenMap db)).
  destruct (matched ident usr (m_pIndexTokenMap db)) as [[id token]|] eqn:Hm.
  - pose proof (matched_elem _ _ _ Hm) as (Hid & Hv & Hu).
    eexists id, _. simpl. split; [|split; [|split; [|split; [|split; [|split]]]]].
    + match goal with
      | |- context [TreeMap.SetValue id ?t _] => set (token' := t)
      end.
      assert (HP : bool_decide (USR token' = usr) = true)
        by (by apply bool_decide_eq_true).
      unfold matched, IndexDB.bucket in *. rewrite GetIdSet_SetValue.
      eapply (find_omap_update _ fst _ _ _ id (id, token) (id, token'));
        [| | | |exact HP|exact Hm].
      * intros j y Hy. simpl in Hy.
        destruct (TreeMap.GetValue j (m_pIndexTokenMap db)); by simplify_eq/=.
      * intros j Hj. simpl. rewrite (GetValue_SetValue _ _ _ _ _ Hv).
        destruct (decide (j = id)); [done|reflexivity].
      * simpl. by rewrite Hv.
      * simpl. rewrite (GetValue_SetValue _ _ _ _ _ Hv).
        destruct (decide (id = id)); [reflexivity|done].
    + unfold TreeMapInt.Insert. set_solver.
    + simpl. by rewrite <- Z.lor_assoc, Z.lor_diag.
    + simpl. case_bool_decide; [done|]. set_solver.
    + simpl. intros p Hp. apply merge_parents_subseteq. by right.
    + done.
    + intros Hnd _. destruct (Hnd _ _ Hv) as [Hl Hp]. simpl. split.
      * case_bool_decide; [done|]. apply NoDup_app. split; [done|].
        split; [|apply NoDup_singleton].
        intros x Hx [->|[]%elem_of_nil]%elem_of_cons. done.
      * by apply merge_parents_NoDup.
  - destruct (TreeMap.Insert ident _ (m_pIndexTokenMap db)) as [map id] eqn:Hins.
    assert (Hmap : map = (TreeMap.Insert ident
              (ClIndexToken_new ident name fId usr tokType tokenRange overrides scp)
              (m_pIndexTokenMap db)).1) by (by rewrite Hins).
    assert (Hnew : id = TreeMap.GetCount (m_pIndexTokenMap db)).
    { rewrite <- (Insert_id (m_pIndexTokenMap db) ident
                   (ClIndexToken_new ident name fId usr tokType tokenRange
                                     overrides scp)). by rewrite Hins. }
    eexists id, _. simpl. split; [|split; [|split; [|split; [|split; [|split]]]]].
    + apply find_unique.
      * apply elem_of_bucket. rewrite Hmap. split.
        -- apply GetIdSet_Insert. by left.
        -- rewrite GetValue_Insert. by rewrite decide_True.
      * simpl. by apply bool_decide_eq_true.
      * intros [j t] [Hj Ht]%elem_of_bucket HP. rewrite Hmap in Hj, Ht.
        rewrite GetValue_Insert in Ht. apply GetIdSet_Insert in Hj.
        destruct (decide (j = TreeMap.GetCount (m_pIndexTokenMap db))) as [->|Hne].
        -- by simplify_eq.
        -- destruct Hj as [[_ ?]|Hj]; [done|]. exfalso.
           eapply find_none in Hm; [|apply list_elem_of_In, elem_of_bucket; done].
           simpl in *. congruence.
    + unfold TreeMapInt.Insert. set_solver.
    + simpl. apply Z.lor_diag.
    + simpl. apply list_elem_of_here.
    + done.
    + done.
    + intros _ Hnd. simpl. split; [apply NoDup_singleton|done].
Qed.

(** C9, as the code has it: both of two identical calls of [UpdateToken]
    set the modified flag, and the second changes neither the stored tokens
    nor the file index, so nothing grows; the token the calls settle on
    holds the location and every override of the arguments, and holds each
    exactly once when the lists of the database and the override list that
    is passed were free of duplicates to begin with. *)
Theorem UpdateToken_twice_no_growth db :
  let db1 := update db in
  let db2 := update db1 in
  m_bModified db1 = true ∧ m_bModified db2 = true
  ∧ m_pIndexTokenMap db2 = m_pIndexTokenMap db1
  ∧ m_pFileTokens db2 = m_pFileTokens db1
  ∧ ∃ id tok,
      matched ident usr (m_pIndexTokenMap db2) = Some (id, tok)
      ∧ location ∈ locationList tok
      ∧ (∀ p, p ∈ overrides → p ∈ parentTokenList tok)
      ∧ (duplicate_free db → NoDup overrides →
         length (filter (λ l, l = location) (locationList tok)) = 1%nat
         ∧ ∀ p, p ∈ overrides →
                length (filter (λ q, q = p) (parentTokenList tok)) = 1%nat).
Proof.
  intros db1 db2.
  destruct (UpdateToken_matched db)
    as (id & tok & Hm & Hf & Hmask & Hloc & Hov & Hmod & Hnd).
  fold db1 in Hm, Hf, Hmod.
  pose proof (matched_elem _ _ _ Hm) as (Hid & Hv & Hu).
  assert (E : db2 = mkIndexDB (m_FileDB db1) (m_pIndexTokenMap db1)
                              (m_pFileTokens db1) true).
  { subst db2 update. unfold IndexDB.UpdateToken at 1.
    fold (matched ident usr (m_pIndexTokenMap db1)). rewrite Hm.
    fold location. rewrite bool_decide_eq_true_2 by done.
    rewrite merge_parents_present by done. rewrite Hmask. f_equal.
    - replace (mkIndexToken _ _ _ _ _ _ _) with tok by (by destruct tok).
      by apply SetValue_same.
    - unfold TreeMapInt.Insert, TreeMapInt.Remove. apply set_eq. intros x.
      destruct (decide (x = (Format_d fId, id))); set_solver. }
  rewrite E. simpl. split; [done|]. split; [done|]. split; [done|].
  split; [done|]. exists id, tok. split; [done|]. split; [done|].
  split; [done|]. intros Hdf Hno. destruct (Hnd Hdf Hno) as [Hl Hp]. split.
  - by apply occurs_once.
  - intros p Hp'. apply occurs_once; [done|]. by apply Hov.
Qed.
End UpdateTwice.

Module UpdateExample.
Definition r : ClTokenRange := mkRange (mkPosition 12 5) (mkPosition 12 9).
Definition overrides : list (wxString * wxString) :=
  [("draw", "c:@S@Shape@F@draw#")]%string.

Definition once : ClTokenIndexDatabase :=
  IndexDB.UpdateToken "draw" "draw" 3 "c:@S@Circle@F@draw#" 2 r overrides
                      ("Circle", "c:@S@Circle") IndexDB.empty.
Definition twice : ClTokenIndexDatabase :=
  IndexDB.UpdateToken "draw" "draw" 3 "c:@S@Circle@F@draw#" 2 r overrides
                      ("Circle", "c:@S@Circle") once.

(** A token as a stream can hold it: the same location twice. *)
Definition loaded : ClTokenIndexDatabase :=
  IndexDB.AddToken "draw"
    (mkIndexToken "draw" "draw" "c:@S@Circle@F@draw#" 2
       [mkLocation 2 3 r; mkLocation 2 3 r] [] ("Circle", "c:@S@Circle"))
    IndexDB.empty.
Definition loaded_twice : ClTokenIndexDatabase :=
  IndexDB.UpdateToken "draw" "draw" 3 "c:@S@Circle@F@draw#" 2 r overrides
                      ("Circle", "c:@S@Circle")
    (IndexDB.UpdateToken "draw" "draw" 3 "c:@S@Circle@F@draw#" 2 r overrides
                         ("Circle", "c:@S@Circle") loaded).
End UpdateExample.

Lemma UpdateToken_twice_no_growth_witness :
  duplicate_free IndexDB.empty ∧ NoDup UpdateExample.overrides
  ∧ m_pIndexTokenMap UpdateExample.twice = m_pIndexTokenMap UpdateExample.once
  ∧ ∃ id tok,
      matched "draw" "c:@S@Circle@F@draw#" (m_pIndexTokenMap UpdateExample.twice)
      = Some (id, tok)
      ∧ length (filter (λ l, l = mkLocation 2 3 UpdateExample.r)
                       (locationList tok)) = 1%nat.
Proof.
  assert (Hdf : duplicate_free IndexDB.empty).
  { intros id tok [_ Hv]%GetValue_Some. simpl in Hv. by rewrite lookup_nil in Hv. }
  assert (Hnd : NoDup UpdateExample.overrides) by apply NoDup_singleton.
  split; [exact Hdf|]. split; [exact Hnd|].
  pose proof (UpdateToken_twice_no_growth "draw" "draw" 3 "c:@S@Circle@F@draw#"
                2 UpdateExample.r UpdateExample.overrides
                ("Circle", "c:@S@Circle")%string IndexDB.empty)
    as (_ & _ & Hmap & _ & id & tok & Hm & _ & _ & Hone).
  split; [exact Hmap|]. exists id, tok. split; [exact Hm|].
  by destruct (Hone Hdf Hnd).
Defined.

(** C9 as it is worded fails for a database state that already holds the
    location twice (a state [ReadIn] can produce): after the two calls the
    location list of the token has two entries that match the arguments. *)
Lemma UpdateToken_twice_keeps_loaded_duplicates :
  ∃ tok,
    matched "draw" "c:@S@Circle@F@draw#" (m_pIndexTokenMap UpdateExample.loaded_twice)
    = Some (0, tok)
    ∧ length (filter (λ l, l = mkLocation 2 3 UpdateExample.r) (locationList tok))
      = 2%nat.
Proof. eexists. split; by vm_compute. Qed.

(** ** Reading back what was written: integers and strings *)

Definition fits_int (z : Z) : Prop := - 2 ^ 31 ≤ z < 2 ^ 31.
Definition fits_longlong (z : Z) : Prop := - 2 ^ 63 ≤ z < 2 ^ 63.

(** A string that [WriteString] stores whole: no zero character inside, and a
    length that an [int] holds. *)
Definition storable_string (s : wxString) : Prop :=
  Stream.c_str s = s ∧ Z.of_nat (String.length s) < 2 ^ 31.

Lemma bytes_of_length n v : length (Stream.bytes_of n v) = n.
Proof. revert v. induction n as [|n IH]; intros v; simpl; [done|]. by rewrite IH. Qed.

Lemma unsigned_of_bytes_of n v :
  Stream.unsigned_of (Stream.bytes_of n v) = v mod 256 ^ Z.of_nat n.
Proof.
  revert v. induction n as [|n IH]; intros v.
  - simpl. by rewrite Z.mod_1_r.
  - change (Stream.bytes_of (S n) v) with (v mod 256 :: Stream.bytes_of n (v / 256)).
    simpl Stream.unsigned_of. rewrite IH.
    rewrite Nat2Z.inj_succ, Z.pow_succ_r by lia.
    rewrite Z.rem_mul_r by lia. done.
Qed.

Lemma signed_of_bytes_of n v :
  (0 < n)%nat →
  - 2 ^ (8 * Z.of_nat n - 1) ≤ v < 2 ^ (8 * Z.of_nat n - 1) →
  Stream.signed_of (Stream.bytes_of n v) = v.
Proof.
  intros Hn Hv. unfold Stream.signed_of.
  rewrite unsigned_of_bytes_of, bytes_of_length.
  set (half := 2 ^ (8 * Z.of_nat n - 1)) in *.
  assert (Hp : 256 ^ Z.of_nat n = 2 * half).
  { subst half. change 256 with (2 ^ 8). rewrite <- Z.pow_mul_r by lia.
    rewrite <- Z.pow_succ_r by lia. f_equal. lia. }
  rewrite Hp. assert (0 < half) by (subst half; apply Z.pow_pos_nonneg; lia).
  destruct (Z.ltb_spec v 0).
  - rewrite <- (Z_mod_plus_full v 1 (2 * half)).
    rewrite Z.mod_small by lia.
    destruct (Z.ltb_spec (v + 1 * (2 * half)) half); lia.
  - rewrite Z.mod_small by lia. destruct (Z.ltb_spec v half); lia.
Qed.

Lemma ReadInt_WriteInt v rest :
  fits_int v → Stream.ReadInt (Stream.WriteInt v ++ rest) = Some (v, rest).
Proof.
  intros Hv. unfold Stream.ReadInt, Stream.WriteInt, Stream.Read.
  rewrite take_app_length', drop_app_length' by (by rewrite bytes_of_length).
  rewrite bytes_of_length. simpl negb.
  cbv iota. rewrite signed_of_bytes_of; [done|lia|exact Hv].
Qed.

Lemma ReadLongLong_WriteLongLong v rest :
  fits_longlong v →
  Stream.ReadLongLong (Stream.WriteLongLong v ++ rest) = Some (v, rest).
Proof.
  intros Hv. unfold Stream.ReadLongLong, Stream.WriteLongLong, Stream.Read.
  rewrite take_app_length', drop_app_length' by (by rewrite bytes_of_length).
  rewrite bytes_of_length. simpl negb.
  cbv iota. rewrite signed_of_bytes_of; [done|lia|exact Hv].
Qed.

Lemma chars_of_length s : length (Stream.chars_of s) = String.length s.
Proof.
  unfold Stream.chars_of. rewrite length_fmap.
  induction s as [|c s IH]; simpl; [done|]. by rewrite IH.
Qed.

Lemma text_of_chars_of s : Stream.text_of (Stream.chars_of s) = s.
Proof.
  unfold Stream.text_of, Stream.chars_of. rewrite <- list_fmap_compose.
  rewrite <- (String.string_of_list_ascii_of_string s) at 2. f_equal.
  rewrite <- (list_fmap_id (String.list_ascii_of_string s)) at 2.
  apply list_fmap_ext. intros _ c _. simpl.
  by rewrite N2Z.id, ascii_N_embedding.
Qed.

Lemma ReadString_WriteString s rest :
  storable_string s →
  Stream.ReadString (Stream.WriteString s ++ rest) = Some (s, rest).
Proof.
  intros [Hc Hl]. unfold Stream.ReadString, Stream.WriteString.
  rewrite Hc, <- app_assoc, ReadInt_WriteInt by (unfold fits_int; lia).
  simpl. destruct (Z.eqb_spec (Z.of_nat (String.length s)) 0) as [E|E].
  - destruct s; [done|simpl in E; lia].
  - destruct s as [|c s]; [done|].
    simpl Stream.CanRead. cbv iota.
    destruct (Z.ltb_spec (Z.of_nat (String.length (String c s))) 0); [lia|].
    unfold Stream.Read. rewrite Nat2Z.id.
    rewrite take_app_length', drop_app_length' by (by rewrite chars_of_length).
    by rewrite text_of_chars_of, Hc.
Qed.

Lemma WriteInt_length v : length (Stream.WriteInt v) = 4%nat.
Proof. apply bytes_of_length. Qed.

Lemma CanRead_WriteInt v rest : Stream.CanRead (Stream.WriteInt v ++ rest) = true.
Proof. done. Qed.




(** ** The stream primitives on their own *)

Lemma c_str_idemp s : Stream.c_str (Stream.c_str s) = Stream.c_str s.
Proof.
  induction s as [|c s IH]; simpl; [done|].
  destruct (Ascii.eqb c "000") eqn:E; simpl; [done|].
  by rewrite E, IH.
Qed.

Lemma c_str_length s : (String.length (Stream.c_str s) ≤ String.length s)%nat.
Proof.
  induction s as [|c s IH]; simpl; [lia|].
  destruct (Ascii.eqb c "000"); simpl; lia.
Qed.

Lemma c_str_no_zero s :
  "000"%char ∉ String.list_ascii_of_string (Stream.c_str s).
Proof.
  induction s as [|c s IH]; simpl; [apply not_elem_of_nil|].
  destruct (Ascii.eqb c "000") eqn:E; simpl; [apply not_elem_of_nil|].
  apply not_elem_of_cons. split; [|done].
  intros <-. by rewrite Ascii.eqb_refl in E.
Qed.




(** X1: what [WriteInt], [WriteLongLong] and [WriteString] put on a stream,
    [ReadInt], [ReadLongLong] and [ReadString] take off again, leaving what
    follows untouched.  A string comes back as the C string it was written
    as: cut at its first zero character. *)
Theorem primitives_read_what_was_written (i l : Z) (s : wxString) (rest : list Z) :
  fits_int i → fits_longlong l → Z.of_nat (String.length s) < 2 ^ 31 →
  Stream.ReadInt (Stream.WriteInt i ++ rest) = Some (i, rest)
  ∧ Stream.ReadLongLong (Stream.WriteLongLong l ++ rest) = Some (l, rest)
  ∧ Stream.ReadString (Stream.WriteString s ++ rest) = Some (Stream.c_str s, rest)
  ∧ (Stream.c_str s = s ↔ "000"%char ∉ String.list_ascii_of_string s).
Proof.
  intros Hi Hl Hs. split; [by apply ReadInt_WriteInt|].
  split; [by apply ReadLongLong_WriteLongLong|]. split.
  - assert (Stream.WriteString s = Stream.WriteString (Stream.c_str s)) as ->.
    { unfold Stream.WriteString. by rewrite c_str_idemp. }
    apply ReadString_WriteString. split; [apply c_str_idemp|].
    pose proof (c_str_length s). lia.
  - split.
    + intros <-. apply c_str_no_zero.
    + induction s as [|c s IH]; simpl; [done|].
      intros Hc. apply not_elem_of_cons in Hc as [Hc Hs'].
      destruct (Ascii.eqb c "000") eqn:E.
      * apply Ascii.eqb_eq in E. by subst c.
      * f_equal. apply IH; [simpl in Hs; lia|done].
Qed.

Lemma primitives_read_what_was_written_witness :
  Stream.ReadString (Stream.WriteString ("a.h" +:+ String "000" "junk") ++ [7])
  = Some ("a.h"%string, [7]).
Proof.
  pose proof (primitives_read_what_was_written 0 0
                ("a.h" +:+ String "000" "junk") [7]) as H.
  destruct H as (_ & _ & H & _).
  - unfold fits_int; lia.
  - unfold fits_longlong; lia.
  - vm_compute; reflexivity.
  - exact H.
Defined.



#[local] Opaque Stream.WriteInt Stream.WriteLongLong Stream.WriteString.
#[local] Opaque Stream.ReadInt Stream.ReadLongLong Stream.ReadString.

(** ** Reading back a token *)

Definition storable_location (loc : ClIndexTokenLocation) : Prop :=
  fits_int (tokenType loc) ∧ fits_int (fileId loc)
  ∧ fits_int (line (beginLocation (range loc)))
  ∧ fits_int (column (beginLocation (range loc)))
  ∧ fits_int (line (endLocation (range loc)))
  ∧ fits_int (column (endLocation (range loc))).

Definition storable_token (tok : ClIndexToken) : Prop :=
  storable_string (identifier tok) ∧ storable_string (displayName tok)
  ∧ storable_string (USR tok)
  ∧ Forall storable_location (locationList tok)
  ∧ Z.of_nat (length (locationList tok)) < 2 ^ 31
  ∧ Forall (λ p, storable_string p.1 ∧ storable_string p.2) (parentTokenList tok)
  ∧ Z.of_nat (length (parentTokenList tok)) < 2 ^ 31
  ∧ storable_string (scope tok).1 ∧ storable_string (scope tok).2.

(** The mask a token ends up with: the types of its locations or-ed into the
    mask the token had when it was handed to [ReadIn]. *)
Definition mask_over (mask : ClTokenType) (locs : list ClIndexTokenLocation)
  : ClTokenType := foldl Z.lor mask (tokenType <$> locs).

Definition with_mask (mask : ClTokenType) (tok : ClIndexToken) : ClIndexToken :=
  mkIndexToken (identifier tok) (displayName tok) (USR tok) mask
               (locationList tok) (parentTokenList tok) (scope tok).

Lemma read_locations_written locs mask acc rest :
  Forall storable_location locs →
  IndexToken.read_locations (length locs) mask acc
    (concat (IndexToken.WriteLocation <$> locs) ++ rest)
  = Some (mask_over mask locs, acc ++ locs, rest).
Proof.
  intros Hs. revert mask acc.
  induction Hs as [|loc locs (H1 & H2 & H3 & H4 & H5 & H6) _ IH]; intros mask acc.
  - simpl. by rewrite app_nil_r.
  - destruct loc as [typ fId [[bl bc] [el ec]]]. simpl in *.
    unfold IndexToken.WriteLocation. simpl. rewrite <- !app_assoc.
    rewrite !ReadInt_WriteInt by done. simpl.
    rewrite !ReadInt_WriteInt by done. simpl.
    rewrite !ReadInt_WriteInt by done. simpl.
    rewrite !ReadInt_WriteInt by done. simpl.
    rewrite !ReadInt_WriteInt by done. simpl.
    rewrite !ReadInt_WriteInt by done. simpl.
    rewrite IH. unfold mask_over. simpl. by rewrite <- app_assoc.
Qed.

Lemma read_parents_written (parents : list (wxString * wxString)) acc rest :
  Forall (λ p, storable_string p.1 ∧ storable_string p.2) parents →
  IndexToken.read_parents (length parents) acc
    (concat (IndexToken.WriteParent <$> parents) ++ rest)
  = Some (acc ++ parents, rest).
Proof.
  intros Hs. revert acc.
  induction Hs as [|[ident usr] parents [H1 H2] _ IH]; intros acc.
  - simpl. by rewrite app_nil_r.
  - simpl in *. unfold IndexToken.WriteParent. simpl. rewrite <- !app_assoc.
    rewrite ReadString_WriteString by done. simpl.
    rewrite ReadString_WriteString by done. simpl.
    rewrite IH. by rewrite <- app_assoc.
Qed.

Lemma count_as_unsigned n :
  Z.of_nat n < 2 ^ 31 → Z.to_nat (Z.of_nat n mod 2 ^ 32) = n.
Proof. intros H. rewrite Z.mod_small by lia. apply Nat2Z.id. Qed.

Lemma IndexToken_ReadIn_written token tok rest :
  storable_token tok →
  IndexToken.ReadIn token (IndexToken.WriteOut tok ++ rest)
  = Some (with_mask (mask_over (tokenTypeMask token) (locationList tok)) tok, rest).
Proof.
  intros (H1 & H2 & H3 & H4 & H5 & H6 & H7 & H8 & H9).
  unfold IndexToken.ReadIn, IndexToken.WriteOut. rewrite <- !app_assoc.
  rewrite ReadString_WriteString by done. simpl.
  rewrite ReadString_WriteString by done. simpl.
  rewrite ReadString_WriteString by done. simpl.
  rewrite ReadInt_WriteInt by (unfold fits_int; lia). simpl.
  rewrite count_as_unsigned by done.
  rewrite read_locations_written by done. simpl.
  rewrite ReadInt_WriteInt by (unfold fits_int; lia). simpl.
  rewrite count_as_unsigned by done.
  rewrite read_parents_written by done. simpl.
  rewrite ReadString_WriteString by done. simpl.
  rewrite ReadString_WriteString by done. simpl.
  unfold with_mask. by destruct (scope tok).
Qed.

(** ** Reading back the packets *)

Definition storable_entry (entry : ClFilenameEntry) : Prop :=
  storable_string (filename entry)
  ∧ match timestamp entry with
    | Some ts => fits_longlong ts
    | None => True
    end.

Lemma read_entries_written entries files rest :
  Forall storable_entry entries →
  ∃ files',
    FilenameDB.read_entries (length entries) files
      (concat (FilenameDB.WriteEntry <$> entries) ++ rest)
    = (files', Some rest).
Proof.
  intros Hs. revert files.
  induction Hs as [|entry entries [H1 H2] _ IH]; intros files.
  - by eexists.
  - simpl. unfold FilenameDB.WriteEntry at 1. rewrite <- !app_assoc.
    rewrite ReadString_WriteString by done.
    rewrite ReadLongLong_WriteLongLong.
    + apply IH.
    + destruct (timestamp entry); [done|]. unfold fits_longlong. lia.
Qed.

Lemma FilenameDB_ReadIn_written (fdb files : TreeMap.t ClFilenameEntry) rest :
  Forall storable_entry (TreeMap.m_Data fdb) →
  Z.of_nat (length (TreeMap.m_Data fdb)) < 2 ^ 31 →
  ∃ files',
    FilenameDB.ReadIn files (FilenameDB.WriteOut fdb ++ rest) = (files', Some rest).
Proof.
  intros Hs Hl. unfold FilenameDB.ReadIn, FilenameDB.WriteOut, TreeMap.GetCount.
  rewrite <- app_assoc, ReadInt_WriteInt by (unfold fits_int; lia).
  rewrite Nat2Z.id. by apply read_entries_written.
Qed.

(** What the loop over the tokens of one identifier adds to the database:
    every token goes in with the mask that has built up in [token]. *)
Fixpoint add_all (ident : wxString) (token : ClIndexToken)
    (toks : list ClIndexToken) (db : ClTokenIndexDatabase) : ClTokenIndexDatabase :=
  match toks with
  | [] => db
  | tok :: toks =>
      let token := with_mask (mask_over (tokenTypeMask token) (locationList tok)) tok in
      add_all ident token toks (IndexDB.AddToken ident token db)
  end.

Definition write_bucket (b : wxString * list ClIndexToken) : list Z :=
  Stream.WriteString b.1 ++ Stream.WriteInt (Z.of_nat (length b.2))
  ++ concat (IndexToken.WriteOut <$> b.2).

Definition storable_bucket (b : wxString * list ClIndexToken) : Prop :=
  storable_string b.1 ∧ Forall storable_token b.2
  ∧ Z.of_nat (length b.2) < 2 ^ 31.

Lemma read_tokens_written toks ident token db rest :
  Forall storable_token toks →
  IndexDB.read_tokens (length toks) ident token db
    (concat (IndexToken.WriteOut <$> toks) ++ rest)
  = (add_all ident token toks db, Some rest).
Proof.
  intros Hs. revert token db.
  induction Hs as [|tok toks Htok _ IH]; intros token db; [done|].
  simpl. rewrite <- app_assoc, IndexToken_ReadIn_written by done. apply IH.
Qed.

Lemma read_buckets_written buckets db rest :
  Forall storable_bucket buckets →
  IndexDB.read_buckets (length buckets) db
    (concat (write_bucket <$> buckets) ++ rest)
  = (foldl (λ db b, add_all b.1 ClIndexToken_default b.2 db) db buckets, Some rest).
Proof.
  intros Hs. revert db.
  induction Hs as [|[ident toks] buckets (H1 & H2 & H3) _ IH]; intros db; [done|].
  simpl in *. unfold write_bucket at 1. simpl. rewrite <- !app_assoc.
  rewrite ReadString_WriteString by done.
  rewrite ReadInt_WriteInt by (unfold fits_int; lia).
  rewrite Nat2Z.id, read_tokens_written by done. apply IH.
Qed.

Lemma read_packets_more turns db s r :
  IndexDB.read_packets turns db s = Some r →
  IndexDB.read_packets (S turns) db s = Some r.
Proof.
  revert db s. induction turns as [|turns IH]; intros db s; [done|].
  intros H. simpl in H. change (IndexDB.read_packets (S (S turns)) db s) with
    (if negb (Stream.CanRead s) then Some (true, db)
     else match Stream.ReadInt s with
          | None => Some (false, db)
          | Some (packetType, s) =>
              if Z.eqb packetType 0 then Some (true, db)
              else if Z.eqb packetType IndexDB.ClTokenPacketType_filenames then
                match FilenameDB.ReadIn (m_FileDB db) s with
                | (_, None) as r =>
                    Some (false, mkIndexDB r.1 (m_pIndexTokenMap db)
                                   (m_pFileTokens db) (m_bModified db))
                | (files, Some s) =>
                    IndexDB.read_packets (S turns)
                      (mkIndexDB files (m_pIndexTokenMap db)
                                 (m_pFileTokens db) (m_bModified db)) s
                end
              else if Z.eqb packetType IndexDB.ClTokenPacketType_tokens then
                match Stream.ReadInt s with
                | None => Some (false, db)
                | Some (packetCount, s) =>
                    match IndexDB.read_buckets (Z.to_nat packetCount) db s with
                    | (db, None) => Some (false, db)
                    | (db, Some s) => IndexDB.read_packets (S turns) db s
                    end
                end
              else IndexDB.read_packets (S turns) db s
          end).
  destruct (negb (Stream.CanRead s)); [done|].
  destruct (Stream.ReadInt s) as [[packetType s1]|]; [|done].
  destruct (Z.eqb packetType 0); [done|].
  destruct (Z.eqb packetType IndexDB.ClTokenPacketType_filenames).
  { destruct (FilenameDB.ReadIn _ _) as [files [s2|]]; [by apply IH|done]. }
  destruct (Z.eqb packetType IndexDB.ClTokenPacketType_tokens); [|by apply IH].
  destruct (Stream.ReadInt s1) as [[packetCount s2]|]; [|done].
  destruct (IndexDB.read_buckets _ _ _) as [db' [s3|]]; [by apply IH|done].
Qed.

(** ** [ReadIn] always comes to an end *)










(** ** What a written database holds *)

(** A database [WriteOut] stores whole: strings and numbers fit their fields,
    and every id of the index has its token. *)
Definition storable (db : ClTokenIndexDatabase) : Prop :=
  Forall storable_entry (TreeMap.m_Data (m_FileDB db))
  ∧ Z.of_nat (length (TreeMap.m_Data (m_FileDB db))) < 2 ^ 31
  ∧ Z.of_nat (size (TreeMap.GetKeySet (m_pIndexTokenMap db))) < 2 ^ 31
  ∧ ∀ k, k ∈ TreeMap.GetKeySet (m_pIndexTokenMap db) →
         storable_string k
         ∧ Z.of_nat (size (TreeMap.GetIdSet k (m_pIndexTokenMap db))) < 2 ^ 31
         ∧ ∀ id, id ∈ TreeMap.GetIdSet k (m_pIndexTokenMap db) →
                 ∃ tok, TreeMap.GetValue id (m_pIndexTokenMap db) = Some tok
                        ∧ storable_token tok.

Definition written_buckets (m : TreeMap.t ClIndexToken)
  : list (wxString * list ClIndexToken) :=
  (λ k, (k, (IndexDB.bucket k m).*2)) <$> ascending_keys (TreeMap.GetKeySet m).

Lemma elem_of_ascending_keys (s : gset string) (k : string) :
  k ∈ ascending_keys s ↔ k ∈ s.
Proof.
  unfold ascending_keys. rewrite merge_sort_Permutation. apply elem_of_elements.
Qed.

Lemma ascending_length (s : gset Z) : length (ascending s) = size s.
Proof. unfold ascending. by rewrite merge_sort_Permutation. Qed.

Lemma ascending_keys_length (s : gset string) : length (ascending_keys s) = size s.
Proof. unfold ascending_keys. by rewrite merge_sort_Permutation. Qed.

Lemma bucket_ids k (m : TreeMap.t ClIndexToken) :
  (∀ id, id ∈ TreeMap.GetIdSet k m → is_Some (TreeMap.GetValue id m)) →
  (IndexDB.bucket k m).*1 = ascending (TreeMap.GetIdSet k m).
Proof.
  intros Hall. unfold IndexDB.bucket.
  assert (H : Forall (λ id, is_Some (TreeMap.GetValue id m))
                     (ascending (TreeMap.GetIdSet k m))).
  { apply Forall_forall. intros id Hid. by apply Hall, elem_of_ascending. }
  induction H as [|id ids [tok Htok] _ IH]; [done|].
  cbn [omap list_omap]. rewrite Htok. cbn. f_equal. exact IH.
Qed.

Lemma bucket_length k (m : TreeMap.t ClIndexToken) :
  (∀ id, id ∈ TreeMap.GetIdSet k m → is_Some (TreeMap.GetValue id m)) →
  length (IndexDB.bucket k m) = size (TreeMap.GetIdSet k m).
Proof.
  intros H. rewrite <- ascending_length, <- (bucket_ids k m H).
  by rewrite length_fmap.
Qed.

Lemma elem_of_GetKeySet {V} (m : TreeMap.t V) k :
  k ∈ TreeMap.GetKeySet m ↔ ∃ id, id ∈ TreeMap.GetIdSet k m.
Proof.
  unfold TreeMap.GetKeySet, TreeMapInt.GetKeySet, TreeMap.GetIdSet.
  rewrite elem_of_map. split.
  - intros [[k' id] [-> Hin]]. exists id. by apply elem_of_GetIdSet.
  - intros [id Hin%elem_of_GetIdSet]. by exists (k, id).
Qed.

Lemma storable_written_buckets db :
  storable db →
  Forall storable_bucket (written_buckets (m_pIndexTokenMap db))
  ∧ concat (IndexDB.WriteBucket (m_pIndexTokenMap db)
              <$> ascending_keys (TreeMap.GetKeySet (m_pIndexTokenMap db)))
    = concat (write_bucket <$> written_buckets (m_pIndexTokenMap db)).
Proof.
  intros (_ & _ & _ & Hk). unfold written_buckets.
  set (m := m_pIndexTokenMap db) in *.
  assert (Hkeys : Forall (λ k, k ∈ TreeMap.GetKeySet m)
                         (ascending_keys (TreeMap.GetKeySet m))).
  { apply Forall_forall. intros k. apply elem_of_ascending_keys. }
  induction Hkeys as [|k keys Hin _ [IH1 IH2]]; [done|].
  destruct (Hk k Hin) as (Hs & Hn & Hids).
  assert (Hsome : ∀ id, id ∈ TreeMap.GetIdSet k m →
                        is_Some (TreeMap.GetValue id m)).
  { intros id Hid. destruct (Hids id Hid) as (tok & -> & _). by eexists. }
  rewrite !fmap_cons, !concat_cons. split.
  - constructor; [|done]. split; [done|]. simpl. split.
    + apply Forall_forall. intros tok [[id tok'] [-> Hb]]%list_elem_of_fmap.
      apply elem_of_bucket in Hb as [Hid Hv].
      destruct (Hids id Hid) as (tok & Hv' & Hst). simpl. congruence.
    + by rewrite length_fmap, bucket_length.
  - f_equal; [|done]. unfold IndexDB.WriteBucket, write_bucket. simpl.
    rewrite length_fmap, bucket_length by done. do 2 f_equal.
    by rewrite <- list_fmap_compose.
Qed.

Section ReadWritten.
Variables CINDEX_VERSION_MAJOR CINDEX_VERSION_MINOR : Z.
Hypothesis major_fits : fits_int CINDEX_VERSION_MAJOR.
Hypothesis minor_fits : fits_int CINDEX_VERSION_MINOR.

Lemma ReadIn_WriteOut_result db0 db :
  storable db →
  ∃ files,
    IndexDB.ReadIn CINDEX_VERSION_MAJOR CINDEX_VERSION_MINOR db0
      (IndexDB.WriteOut CINDEX_VERSION_MAJOR CINDEX_VERSION_MINOR db)
    = (true,
       foldl (λ d b, add_all b.1 ClIndexToken_default b.2 d)
             (mkIndexDB files TreeMap.empty TreeMapInt.empty (m_bModified db0))
             (written_buckets (m_pIndexTokenMap db))).
Proof.
  intros Hst. pose proof Hst as (Hf1 & Hf2 & Hn & _).
  destruct (storable_written_buckets db Hst) as [Hb Hw].
  unfold IndexDB.ReadIn, IndexDB.WriteOut, Stream.Read.
  rewrite drop_app_length' by done.
  rewrite ReadInt_WriteInt by (unfold fits_int; lia). simpl negb. cbv iota.
  rewrite ReadInt_WriteInt by done. rewrite ReadInt_WriteInt by done.
  rewrite !Z.eqb_refl. simpl negb. cbv iota.
  set (s := Stream.WriteInt IndexDB.ClTokenPacketType_filenames ++ _).
  destruct (FilenameDB_ReadIn_written (m_FileDB db)
              (m_FileDB (IndexDB.Clear db0))
              (Stream.WriteInt IndexDB.ClTokenPacketType_tokens ++
               Stream.WriteInt (Z.of_nat (length (ascending_keys
                     (TreeMap.GetKeySet (m_pIndexTokenMap db))))) ++
               concat (IndexDB.WriteBucket (m_pIndexTokenMap db) <$>
                       ascending_keys (TreeMap.GetKeySet (m_pIndexTokenMap db)))
               ++ Stream.WriteInt 0) Hf1 Hf2) as [files Hfiles].
  exists files.
  assert (H3 : IndexDB.read_packets 3 (IndexDB.Clear db0) s
               = Some (true,
                   foldl (λ d b, add_all b.1 ClIndexToken_default b.2 d)
                     (mkIndexDB files TreeMap.empty TreeMapInt.empty
                                (m_bModified db0))
                     (written_buckets (m_pIndexTokenMap db)))).
  { subst s. cbn [IndexDB.read_packets]. rewrite CanRead_WriteInt.
    simpl negb. cbv iota.
    rewrite ReadInt_WriteInt by done.
    change (Z.eqb IndexDB.ClTokenPacketType_filenames 0) with false.
    change (Z.eqb IndexDB.ClTokenPacketType_filenames
                  IndexDB.ClTokenPacketType_filenames) with true.
    cbv iota. rewrite Hfiles.
    rewrite CanRead_WriteInt. simpl negb. cbv iota.
    rewrite ReadInt_WriteInt by done.
    change (Z.eqb IndexDB.ClTokenPacketType_tokens 0) with false.
    change (Z.eqb IndexDB.ClTokenPacketType_tokens
                  IndexDB.ClTokenPacketType_filenames) with false.
    change (Z.eqb IndexDB.ClTokenPacketType_tokens
                  IndexDB.ClTokenPacketType_tokens) with true.
    cbv iota.
    rewrite ReadInt_WriteInt
      by (rewrite ascending_keys_length; unfold fits_int; lia).
    rewrite Nat2Z.id, Hw.
    replace (length (ascending_keys (TreeMap.GetKeySet (m_pIndexTokenMap db))))
      with (length (written_buckets (m_pIndexTokenMap db)))
      by (unfold written_buckets; by rewrite length_fmap).
    rewrite read_buckets_written by done.
    rewrite <- (app_nil_r (Stream.WriteInt 0)).
    rewrite CanRead_WriteInt. simpl negb. cbv iota.
    rewrite ReadInt_WriteInt by done. done. }
  assert (Hlen : (2 ≤ length s)%nat).
  { subst s. rewrite length_app, WriteInt_length. lia. }
  destruct (length s) as [|[|n]]; [lia|lia|].
  assert (Hn' : IndexDB.read_packets (S (S (S n))) (IndexDB.Clear db0) s
                = Some (true,
                    foldl (λ d b, add_all b.1 ClIndexToken_default b.2 d)
                      (mkIndexDB files TreeMap.empty TreeMapInt.empty
                                 (m_bModified db0))
                      (written_buckets (m_pIndexTokenMap db)))).
  { clear -H3. induction n as [|n IH]; [exact H3|].
    by apply read_packets_more. }
  by rewrite Hn'.
Qed.
End ReadWritten.

(** ** Finding the tokens again *)

Definition holds (db : ClTokenIndexDatabase) (k : wxString) (tok : ClIndexToken)
  : Prop :=
  ∃ id, id ∈ TreeMap.GetIdSet k (m_pIndexTokenMap db)
        ∧ TreeMap.GetValue id (m_pIndexTokenMap db) = Some tok.

Lemma GetValue_in_range {V} (m : TreeMap.t V) id v :
  TreeMap.GetValue id m = Some v → id ≠ TreeMap.GetCount m.
Proof.
  intros [? Hl%lookup_lt_Some]%GetValue_Some. unfold TreeMap.GetCount. lia.
Qed.

Lemma holds_AddToken_old db k tok k2 tok2 :
  holds db k tok → holds (IndexDB.AddToken k2 tok2 db) k tok.
Proof.
  intros (id & Hid & Hv). unfold IndexDB.AddToken.
  destruct (Nat.ltb 0 (String.length k2)); [|by exists id].
  destruct (TreeMap.Insert k2 tok2 (m_pIndexTokenMap db)) as [map id2] eqn:E.
  assert (Hmap : map = (TreeMap.Insert k2 tok2 (m_pIndexTokenMap db)).1)
    by (by rewrite E).
  exists id. simpl. rewrite Hmap. split.
  - apply GetIdSet_Insert. by right.
  - rewrite GetValue_Insert, decide_False; [done|].
    by eapply GetValue_in_range.
Qed.

Lemma holds_AddToken_new db k tok :
  k ≠ "" → holds (IndexDB.AddToken k tok db) k tok.
Proof.
  intros Hk. unfold IndexDB.AddToken.
  destruct k as [|c k]; [done|]. simpl Nat.ltb. cbv iota.
  destruct (TreeMap.Insert (String c k) tok (m_pIndexTokenMap db))
    as [map id2] eqn:E.
  assert (Hmap : map = (TreeMap.Insert (String c k) tok (m_pIndexTokenMap db)).1)
    by (by rewrite E).
  exists (TreeMap.GetCount (m_pIndexTokenMap db)). simpl. rewrite Hmap. split.
  - apply GetIdSet_Insert. by left.
  - by rewrite GetValue_Insert, decide_True.
Qed.

Lemma holds_add_all_old toks db k tok k2 token :
  holds db k tok → holds (add_all k2 token toks db) k tok.
Proof.
  revert db token. induction toks as [|t toks IH]; intros db token H; [done|].
  simpl. by apply IH, holds_AddToken_old.
Qed.

Lemma mask_over_app mask l1 l2 :
  mask_over (mask_over mask l1) l2 = mask_over mask (l1 ++ l2).
Proof. unfold mask_over. by rewrite fmap_app, foldl_app. Qed.

Lemma holds_add_all_new pre tok post db k token :
  k ≠ "" →
  holds (add_all k token (pre ++ tok :: post) db) k
        (with_mask (mask_over (tokenTypeMask token)
                              (concat (locationList <$> pre) ++ locationList tok))
                   tok).
Proof.
  intros Hk. revert db token. induction pre as [|p pre IH]; intros db token.
  - simpl. by apply holds_add_all_old, holds_AddToken_new.
  - simpl. specialize (IH (IndexDB.AddToken k
        (with_mask (mask_over (tokenTypeMask token) (locationList p)) p) db)
        (with_mask (mask_over (tokenTypeMask token) (locationList p)) p)).
    simpl in IH. by rewrite mask_over_app, app_assoc in IH.
Qed.

Lemma holds_buckets_old buckets db k tok :
  holds db k tok →
  holds (foldl (λ d b, add_all b.1 ClIndexToken_default b.2 d) db buckets) k tok.
Proof.
  revert db. induction buckets as [|b buckets IH]; intros db H; [done|].
  simpl. by apply IH, holds_add_all_old.
Qed.

Lemma holds_buckets_new buckets db k pre tok post :
  k ≠ "" → (k, pre ++ tok :: post) ∈ buckets →
  holds (foldl (λ d b, add_all b.1 ClIndexToken_default b.2 d) db buckets) k
        (with_mask (mask_over 0 (concat (locationList <$> pre) ++ locationList tok))
                   tok).
Proof.
  intros Hk. revert db. induction buckets as [|b buckets IH]; intros db Hin.
  - by apply elem_of_nil in Hin.
  - simpl. apply elem_of_cons in Hin as [<-|Hin]; [|by apply IH].
    apply holds_buckets_old. simpl. by apply holds_add_all_new.
Qed.

(** The token with the least id of its identifier is the first of the bucket. *)
Lemma bucket_least k (m : TreeMap.t ClIndexToken) id tok l1 l2 :
  (∀ j, j ∈ TreeMap.GetIdSet k m → is_Some (TreeMap.GetValue j m)) →
  (∀ j, j ∈ TreeMap.GetIdSet k m → id ≤ j) →
  IndexDB.bucket k m = l1 ++ (id, tok) :: l2 → l1 = [].
Proof.
  intros Hall Hleast Hb. pose proof (bucket_ids k m Hall) as Hids.
  rewrite Hb, fmap_app, fmap_cons in Hids. simpl in Hids.
  destruct l1 as [|[j t] l1]; [done|]. exfalso. simpl in Hids.
  pose proof (NoDup_ascending (TreeMap.GetIdSet k m)) as Hnd.
  assert (Hj : j ∈ TreeMap.GetIdSet k m).
  { apply elem_of_ascending. rewrite <- Hids. apply list_elem_of_here. }
  assert (Hs : StronglySorted Z.le (ascending (TreeMap.GetIdSet k m)))
    by apply (StronglySorted_merge_sort Z.le).
  rewrite <- Hids in Hnd, Hs.
  apply StronglySorted_inv in Hs as [_ Hs]. apply NoDup_cons in Hnd as [Hni _].
  assert (Hin : id ∈ l1.*1 ++ id :: l2.*1) by set_solver.
  rewrite Forall_forall in Hs. specialize (Hs id Hin).
  specialize (Hleast j Hj). assert (j = id) as -> by lia. done.
Qed.

(** ** The index written and read back *)

Lemma ReadIn_ignores_tag_bytes CMAJ CMIN db tag rest :
  length tag = 4%nat →
  IndexDB.ReadIn CMAJ CMIN db (tag ++ rest)
  = IndexDB.ReadIn CMAJ CMIN db (Stream.chars_of "ClDb" ++ rest).
Proof.
  intros Hl. unfold IndexDB.ReadIn, Stream.Read.
  by rewrite !drop_app_length' by done.
Qed.

Lemma ReadIn_other_version CMAJ CMIN db tag version major minor rest :
  length tag = 4%nat → fits_int version → fits_int major → fits_int minor →
  major ≠ CMAJ ∨ minor ≠ CMIN →
  IndexDB.ReadIn CMAJ CMIN db
    (tag ++ Stream.WriteInt version ++ Stream.WriteInt major
         ++ Stream.WriteInt minor ++ rest)
  = (false, db).
Proof.
  intros Hl Hv Hmaj Hmin Hne. unfold IndexDB.ReadIn, Stream.Read.
  rewrite drop_app_length' by done. rewrite ReadInt_WriteInt by done.
  destruct (negb (Z.eqb version 5)); [done|].
  rewrite ReadInt_WriteInt by done. rewrite ReadInt_WriteInt by done.
  destruct (Z.eqb_spec major CMAJ) as [->|]; [|done].
  destruct (Z.eqb_spec minor CMIN) as [->|]; [|done].
  by destruct Hne.
Qed.

(** C1, as the code has it.  For a database whose strings and numbers fit
    the fields of the format, [WriteOut] followed by [ReadIn] succeeds, and
    every token stored under a non-empty identifier is found again under that
    identifier with the same identifier, display name and USR, the same
    location list, the same override list and the same scope.  The type mask
    is not part of the stream: it is rebuilt from the location types, and for
    the first token of an identifier it is the or of the types of its own
    locations.  A stream whose native-library version differs from the
    constants of the build makes [ReadIn] fail and leaves the target database
    as it was, so a fresh one stays empty. *)
Theorem index_survives_write_and_read CMAJ CMIN db :
  fits_int CMAJ → fits_int CMIN → storable db →
  (∀ db0,
     let r := IndexDB.ReadIn CMAJ CMIN db0 (IndexDB.WriteOut CMAJ CMIN db) in
     r.1 = true
     ∧ ∀ k id tok,
         k ≠ "" →
         id ∈ TreeMap.GetIdSet k (m_pIndexTokenMap db) →
         TreeMap.GetValue id (m_pIndexTokenMap db) = Some tok →
         ∃ id' tok',
           id' ∈ TreeMap.GetIdSet k (m_pIndexTokenMap r.2)
           ∧ TreeMap.GetValue id' (m_pIndexTokenMap r.2) = Some tok'
           ∧ identifier tok' = identifier tok
           ∧ displayName tok' = displayName tok
           ∧ USR tok' = USR tok
           ∧ locationList tok' = locationList tok
           ∧ parentTokenList tok' = parentTokenList tok
           ∧ scope tok' = scope tok
           ∧ ((∀ j, j ∈ TreeMap.GetIdSet k (m_pIndexTokenMap db) → id ≤ j) →
              tokenTypeMask tok' = mask_over 0 (locationList tok)))
  ∧ (∀ db0 tag version major minor rest,
       length tag = 4%nat → fits_int version → fits_int major → fits_int minor →
       major ≠ CMAJ ∨ minor ≠ CMIN →
       IndexDB.ReadIn CMAJ CMIN db0
         (tag ++ Stream.WriteInt version ++ Stream.WriteInt major
              ++ Stream.WriteInt minor ++ rest)
       = (false, db0)).
Proof.
  intros Hmaj Hmin Hst. split; [|by apply ReadIn_other_version].
  intros db0 r. subst r.
  destruct (ReadIn_WriteOut_result CMAJ CMIN Hmaj Hmin db0 db Hst) as [files ->].
  simpl. split; [done|]. intros k id tok Hk Hid Hv.
  destruct Hst as (_ & _ & _ & Hkeys).
  assert (Hkey : k ∈ TreeMap.GetKeySet (m_pIndexTokenMap db))
    by (apply elem_of_GetKeySet; by exists id).
  destruct (Hkeys k Hkey) as (_ & _ & Hids).
  assert (Hall : ∀ j, j ∈ TreeMap.GetIdSet k (m_pIndexTokenMap db) →
                      is_Some (TreeMap.GetValue j (m_pIndexTokenMap db))).
  { intros j Hj. destruct (Hids j Hj) as (t & -> & _). by eexists. }
  assert (Hb : (id, tok) ∈ IndexDB.bucket k (m_pIndexTokenMap db))
    by (by apply elem_of_bucket).
  apply list_elem_of_split in Hb as (l1 & l2 & Hb).
  assert (Hin : (k, l1.*2 ++ tok :: l2.*2)
                ∈ written_buckets (m_pIndexTokenMap db)).
  { unfold written_buckets. apply list_elem_of_fmap. exists k. split.
    - by rewrite Hb, fmap_app, fmap_cons.
    - by apply elem_of_ascending_keys. }
  destruct (holds_buckets_new _
              (mkIndexDB files TreeMap.empty TreeMapInt.empty (m_bModified db0))
              _ _ _ _ Hk Hin) as (id' & Hid' & Hv').
  eexists id', _. split; [exact Hid'|]. split; [exact Hv'|].
  simpl. do 6 (split; [done|]). intros Hleast.
  by rewrite (bucket_least _ _ _ _ _ _ Hall Hleast Hb).
Qed.

Module StoreExample.
(** Two functions named [f], one per file, and a class [Shape]. *)
Definition index : ClTokenIndexDatabase :=
  IndexDB.UpdateToken "Shape" "Shape" 2 "c:@S@Shape" 8
    (mkRange (mkPosition 3 7) (mkPosition 3 12)) [] ("", "")
    (IndexDB.UpdateToken "f" "f" 2 "c:@F@f#I#" 4
       (mkRange (mkPosition 7 1) (mkPosition 7 5)) [("g", "c:@F@g#")] ("", "")
       (IndexDB.UpdateToken "f" "f" 1 "c:@F@f#" 2
          (mkRange (mkPosition 1 1) (mkPosition 1 5)) [] ("N", "c:@N@N")
          IndexDB.empty)).

Definition stream : list Z := IndexDB.WriteOut 0 30 index.

Definition read_back : bool * ClTokenIndexDatabase :=
  IndexDB.ReadIn 0 30 IndexDB.empty stream.

(** The same stream under another tag. *)
Definition retagged : list Z := Stream.chars_of "XXXX" ++ drop 4 stream.
End StoreExample.

Ltac in_small_set H :=
  vm_compute in H; repeat (apply elem_of_cons in H as [->|H]);
  [..|apply elem_of_nil in H; destruct H].

#[local] Instance fits_int_dec z : Decision (fits_int z).
Proof. unfold fits_int. apply _. Defined.
#[local] Instance storable_string_dec s : Decision (storable_string s).
Proof. unfold storable_string. apply _. Defined.
#[local] Instance storable_location_dec loc : Decision (storable_location loc).
Proof. unfold storable_location. apply _. Defined.
#[local] Instance storable_token_dec tok : Decision (storable_token tok).
Proof. unfold storable_token. apply _. Defined.

Ltac decide_by_computing := apply (bool_decide_unpack _); vm_compute; exact I.

Lemma StoreExample_storable : storable StoreExample.index.
Proof.
  split; [by apply Forall_nil|].
  split; [vm_compute; reflexivity|]. split; [vm_compute; reflexivity|].
  intros k Hk. apply elem_of_elements in Hk. in_small_set Hk.
  - split; [decide_by_computing|]. split; [vm_compute; reflexivity|].
    intros id Hid. apply elem_of_elements in Hid. in_small_set Hid.
    eexists. split; [vm_compute; reflexivity|]. decide_by_computing.
  - split; [decide_by_computing|]. split; [vm_compute; reflexivity|].
    intros id Hid. apply elem_of_elements in Hid. in_small_set Hid.
    + eexists. split; [vm_compute; reflexivity|]. decide_by_computing.
    + eexists. split; [vm_compute; reflexivity|]. decide_by_computing.
Qed.

Lemma index_survives_write_and_read_witness :
  fits_int 0 ∧ fits_int 30 ∧ storable StoreExample.index
  ∧ StoreExample.read_back.1 = true
  ∧ ∃ id' tok',
      id' ∈ TreeMap.GetIdSet "Shape" (m_pIndexTokenMap StoreExample.read_back.2)
      ∧ TreeMap.GetValue id' (m_pIndexTokenMap StoreExample.read_back.2) = Some tok'
      ∧ USR tok' = "c:@S@Shape"
      ∧ locationList tok'
        = [mkLocation 8 2 (mkRange (mkPosition 3 7) (mkPosition 3 12))]
      ∧ tokenTypeMask tok' = 8.
Proof.
  assert (H0 : fits_int 0) by decide_by_computing.
  assert (H30 : fits_int 30) by decide_by_computing.
  split; [exact H0|]. split; [exact H30|].
  split; [exact StoreExample_storable|].
  destruct (index_survives_write_and_read 0 30 StoreExample.index H0 H30
              StoreExample_storable) as [Hread _].
  destruct (Hread IndexDB.empty) as [Hok Hfound]. split; [exact Hok|].
  destruct (Hfound "Shape"%string 2
              (mkIndexToken "Shape" "Shape" "c:@S@Shape" 8
                 [mkLocation 8 2 (mkRange (mkPosition 3 7) (mkPosition 3 12))]
                 [] ("", "")))
    as (id' & tok' & Hid & Hv & _ & _ & Hu & Hl & _ & _ & Hm).
  - done.
  - decide_by_computing.
  - vm_compute. reflexivity.
  - exists id', tok'. split; [exact Hid|]. split; [exact Hv|].
    split; [exact Hu|]. split; [exact Hl|]. apply Hm.
    intros j Hj. clear -Hj. apply elem_of_elements in Hj. in_small_set Hj. lia.
Defined.

(** C1 as it is worded: every token is found again with the mask it had. *)
Definition masks_survive (CMAJ CMIN : Z) (db : ClTokenIndexDatabase) : Prop :=
  let r := IndexDB.ReadIn CMAJ CMIN IndexDB.empty (IndexDB.WriteOut CMAJ CMIN db) in
  r.1 = true
  ∧ ∀ k id tok,
      id ∈ TreeMap.GetIdSet k (m_pIndexTokenMap db) →
      TreeMap.GetValue id (m_pIndexTokenMap db) = Some tok →
      ∃ id' tok',
        id' ∈ TreeMap.GetIdSet k (m_pIndexTokenMap r.2)
        ∧ TreeMap.GetValue id' (m_pIndexTokenMap r.2) = Some tok'
        ∧ USR tok' = USR tok
        ∧ tokenTypeMask tok' = tokenTypeMask tok
        ∧ (∀ l, l ∈ locationList tok' ↔ l ∈ locationList tok)
        ∧ (∀ p, p ∈ parentTokenList tok' ↔ p ∈ parentTokenList tok)
        ∧ scope tok' = scope tok.

Module LossExample.
(** A token stored under the empty identifier, which [UpdateToken] takes
    like any other. *)
Definition unnamed : ClTokenIndexDatabase :=
  IndexDB.UpdateToken "" "" 1 "c:@F@f#" 2
    (mkRange (mkPosition 1 1) (mkPosition 1 5)) [] ("", "") IndexDB.empty.

(** A token seen as a declaration (type 2) in file 1 and as a definition
    (type 4) in file 2, after the entries of file 1 were removed: the mask is
    still 6, the one location left has type 4. *)
Definition refreshed : ClTokenIndexDatabase :=
  IndexDB.RemoveFileTokens 1
    (IndexDB.UpdateToken "f" "f" 2 "c:@F@f#" 4
       (mkRange (mkPosition 9 1) (mkPosition 9 5)) [] ("", "")
       (IndexDB.UpdateToken "f" "f" 1 "c:@F@f#" 2
          (mkRange (mkPosition 1 1) (mkPosition 1 5)) [] ("", "")
          IndexDB.empty)).
End LossExample.

(** C1 as it is worded fails on both: [AddToken] does not take a token with
    an empty identifier, so the first database comes back without its token;
    and the stream has no field for the mask, so the token of the second comes
    back with mask 4, the type of the one location it has, instead of 6. *)
Lemma stream_omits_unnamed_tokens_and_masks :
  ¬ masks_survive 0 30 LossExample.unnamed
  ∧ ¬ masks_survive 0 30 LossExample.refreshed.
Proof.
  split.
  - intros [_ H].
    destruct (H ""%string 0
                (mkIndexToken "" "" "c:@F@f#" 2
                   [mkLocation 2 1 (mkRange (mkPosition 1 1) (mkPosition 1 5))]
                   [] ("", "")))
      as (id' & tok' & _ & Hv & _).
    + decide_by_computing.
    + vm_compute. reflexivity.
    + clear H. apply GetValue_Some in Hv as [_ Hv].
      apply list_elem_of_lookup_2 in Hv. vm_compute in Hv.
      apply elem_of_nil in Hv. destruct Hv.
  - intros [_ H].
    destruct (H "f"%string 0
                (mkIndexToken "f" "f" "c:@F@f#" 6
                   [mkLocation 4 2 (mkRange (mkPosition 9 1) (mkPosition 9 5))]
                   [] ("", "")))
      as (id' & tok' & _ & Hv & _ & Hm & _).
    + decide_by_computing.
    + vm_compute. reflexivity.
    + clear H. apply GetValue_Some in Hv as [_ Hv].
      apply list_elem_of_lookup_2 in Hv.
      in_small_set Hv; simpl in Hm; discriminate.
Qed.

(** Besides, [ReadIn] hands one [token] to all the tokens of an identifier
    and never resets its mask: on the example the second [f] had mask 4 and
    comes back with mask 6, the mask of the first [f] or-ed in. *)
Lemma second_token_of_identifier_changes_mask :
  ¬ masks_survive 0 30 StoreExample.index.
Proof.
  intros [_ H].
  destruct (H "f"%string 1
              (mkIndexToken "f" "f" "c:@F@f#I#" 4
                 [mkLocation 4 2 (mkRange (mkPosition 7 1) (mkPosition 7 5))]
                 [("g", "c:@F@g#")]%string ("", "")))
    as (id' & tok' & _ & Hv & Hu & Hm & _).
  - decide_by_computing.
  - vm_compute. reflexivity.
  - clear H. apply GetValue_Some in Hv as [_ Hv]. apply list_elem_of_lookup_2 in Hv.
    in_small_set Hv; simpl in Hu, Hm; discriminate.
Qed.

(** C3: [ReadIn] does not look at the tag.  Whatever the first four bytes of
    a stream are, the result is the one for the same stream under the tag
    [ClDb]. *)
Theorem ReadIn_accepts_any_tag CMAJ CMIN db tag rest :
  length tag = 4%nat →
  IndexDB.ReadIn CMAJ CMIN db (tag ++ rest)
  = IndexDB.ReadIn CMAJ CMIN db (Stream.chars_of "ClDb" ++ rest).
Proof. apply ReadIn_ignores_tag_bytes. Qed.

Lemma ReadIn_accepts_any_tag_witness :
  length (Stream.chars_of "XXXX") = 4%nat
  ∧ take 4 StoreExample.retagged ≠ Stream.chars_of "ClDb"
  ∧ IndexDB.ReadIn 0 30 IndexDB.empty StoreExample.retagged
    = StoreExample.read_back
  ∧ StoreExample.read_back.1 = true.
Proof.
  split; [reflexivity|]. split; [by vm_compute|]. split.
  - unfold StoreExample.retagged.
    rewrite (ReadIn_accepts_any_tag 0 30 IndexDB.empty (Stream.chars_of "XXXX")
               (drop 4 StoreExample.stream) eq_refl).
    reflexivity.
  - by vm_compute.
Defined.

(** * Further properties *)

(** ** [ClTreeMap] *)

Lemma HasValue_spec {V} id (m : TreeMap.t V) :
  TreeMap.HasValue id m = true ↔ 0 ≤ id < TreeMap.GetCount m.
Proof.
  unfold TreeMap.HasValue, TreeMap.GetCount.
  destruct (Z.ltb_spec id 0); [split; [done|lia]|].
  destruct (Z.leb_spec (Z.of_nat (length (TreeMap.m_Data m))) id); split;
    try done; lia.
Qed.

Lemma HasValue_is_Some {V} id (m : TreeMap.t V) :
  TreeMap.HasValue id m = true ↔ is_Some (TreeMap.GetValue id m).
Proof.
  rewrite HasValue_spec. unfold TreeMap.GetValue, TreeMap.GetCount.
  destruct (Z.ltb_spec id 0).
  - split; [lia|]. by intros [? ?].
  - rewrite lookup_lt_is_Some. lia.
Qed.

(** X3: the values of a [ClTreeMap] are append-only.  [Insert] hands out the
    old count as the id, files it under the key, and leaves every earlier id
    with its value; [Remove] and [RemoveIdKey] take ids off a key but free no
    slot: every id keeps its value and the count stays. *)
Theorem TreeMap_slots_are_never_freed {V} (m : TreeMap.t V) (key : wxString) (v : V) :
  let r := TreeMap.Insert key v m in
  (r.2 = TreeMap.GetCount m
   ∧ TreeMap.GetCount r.1 = TreeMap.GetCount m + 1
   ∧ TreeMap.HasValue r.2 r.1 = true
   ∧ TreeMap.GetValue r.2 r.1 = Some v
   ∧ r.2 ∈ TreeMap.GetIdSet key r.1
   ∧ (∀ k j, j ∈ TreeMap.GetIdSet k m → j ∈ TreeMap.GetIdSet k r.1)
   ∧ (∀ j, TreeMap.HasValue j m = true →
           TreeMap.HasValue j r.1 = true
           ∧ TreeMap.GetValue j r.1 = TreeMap.GetValue j m))
  ∧ (∀ k id j,
       TreeMap.GetCount (TreeMap.RemoveIdKey k id m) = TreeMap.GetCount m
       ∧ TreeMap.GetValue j (TreeMap.RemoveIdKey k id m) = TreeMap.GetValue j m
       ∧ TreeMap.GetCount (TreeMap.Remove k m) = TreeMap.GetCount m
       ∧ TreeMap.GetValue j (TreeMap.Remove k m) = TreeMap.GetValue j m
       ∧ (id ∉ TreeMap.GetIdSet k (TreeMap.RemoveIdKey k id m))
       ∧ TreeMap.GetIdSet k (TreeMap.Remove k m) = ∅).
Proof.
  intros r. split.
  - assert (r.2 = TreeMap.GetCount m) as Hid by apply Insert_id.
    split; [done|]. split.
    { unfold r, TreeMap.Insert, TreeMap.GetCount. simpl.
      rewrite length_app. simpl. lia. }
    assert (TreeMap.GetValue r.2 r.1 = Some v) as Hv.
    { rewrite Hid. unfold r. rewrite GetValue_Insert. by rewrite decide_True. }
    split; [apply HasValue_is_Some; by rewrite Hv|].
    split; [done|]. split.
    { rewrite Hid. unfold r. rewrite GetIdSet_Insert. by left. }
    split.
    { intros k j Hj. unfold r. rewrite GetIdSet_Insert. by right. }
    intros j Hj.
    assert (TreeMap.GetValue j r.1 = TreeMap.GetValue j m) as E.
    { unfold r. rewrite GetValue_Insert.
      apply HasValue_spec in Hj. rewrite decide_False by lia. done. }
    split; [|done].
    apply HasValue_is_Some. rewrite E. by apply HasValue_is_Some.
  - intros k id j. repeat split.
    + unfold TreeMap.GetIdSet, TreeMap.RemoveIdKey. simpl.
      rewrite elem_of_GetIdSet. unfold TreeMapInt.Remove. set_solver.
    + apply set_eq. intros x. split; [|set_solver].
      unfold TreeMap.GetIdSet, TreeMap.Remove. simpl.
      rewrite elem_of_GetIdSet. unfold TreeMapInt.RemoveKey.
      rewrite elem_of_filter. simpl. by intros [? _].
Qed.

(** ** [ClFilenameDatabase] *)

(** Every id filed under a name is the slot of an entry with that name. *)
Definition well_keyed (db : TreeMap.t ClFilenameEntry) : Prop :=
  ∀ k id, id ∈ TreeMap.GetIdSet k db →
          ∃ e, TreeMap.GetValue id db = Some e ∧ filename e = k.

Lemma well_keyed_empty : well_keyed TreeMap.empty.
Proof.
  intros k id Hid. unfold TreeMap.GetIdSet in Hid. simpl in Hid.
  apply elem_of_GetIdSet in Hid. set_solver.
Qed.

Lemma well_keyed_Insert db name ts :
  well_keyed db → well_keyed (TreeMap.Insert name (mkFilenameEntry name ts) db).1.
Proof.
  intros Hdb k id Hid. apply GetIdSet_Insert in Hid as [[-> ->]|Hid].
  - exists (mkFilenameEntry name ts). rewrite GetValue_Insert.
    by rewrite decide_True.
  - destruct (Hdb k id Hid) as (e & He & Hk). exists e. split; [|done].
    rewrite GetValue_Insert. apply GetValue_in_range in He as Hne.
    by rewrite decide_False.
Qed.

Lemma ascending_singleton (x : Z) : ascending {[ x ]} = [x].
Proof. unfold ascending. by rewrite elements_singleton. Qed.

Lemma ascending_nil_inv (s : gset Z) : ascending s = [] → s = ∅.
Proof.
  intros E. apply set_eq. intros x. rewrite <- elem_of_ascending, E.
  set_solver.
Qed.

Lemma GetFilenameId_found Normalize fname db :
  let r := FilenameDB.GetFilenameId Normalize fname db in
  r.2 ∈ TreeMap.GetIdSet (Normalize fname) r.1
  ∧ ascending (TreeMap.GetIdSet (Normalize fname) r.1)
    = r.2 :: tail (ascending (TreeMap.GetIdSet (Normalize fname) r.1)).
Proof.
  unfold FilenameDB.GetFilenameId.
  destruct (ascending (TreeMap.GetIdSet (Normalize fname) db))
    as [|first rest] eqn:E; cbv zeta.
  - apply ascending_nil_inv in E.
    assert (TreeMap.GetIdSet (Normalize fname)
              (TreeMap.Insert (Normalize fname)
                 (mkFilenameEntry (Normalize fname) None) db).1
            = {[ TreeMap.GetCount db ]}) as Hs.
    { apply set_eq. intros j. rewrite GetIdSet_Insert, E. set_solver. }
    rewrite Hs, ascending_singleton, Insert_id. split; [set_solver|done].
  - simpl. rewrite E. split; [|done].
    apply elem_of_ascending. rewrite E. apply list_elem_of_here.
Qed.

(** X4: [GetFilenameId] hands out one id per normalised path.  Asking again,
    by the same name or by any name with the same normal form, returns the
    same id and changes nothing; a name with another normal form gets
    another id; the ids handed out before keep their entries; and
    [GetFilename] maps the id back to the normalised path (as a C string).
    [HasFilename] agrees, except that it denies the empty path even after
    [GetFilenameId] has registered it. *)
Theorem GetFilenameId_is_stable (Normalize : wxString → wxString)
    (fname : wxString) (db : TreeMap.t ClFilenameEntry) :
  well_keyed db →
  let r := FilenameDB.GetFilenameId Normalize fname db in
  well_keyed r.1
  ∧ (∀ g, Normalize g = Normalize fname →
          FilenameDB.GetFilenameId Normalize g r.1 = r)
  ∧ (∀ g, (FilenameDB.GetFilenameId Normalize g r.1).2 = r.2 →
          Normalize g = Normalize fname)
  ∧ (∀ j, TreeMap.HasValue j db = true →
          TreeMap.GetValue j r.1 = TreeMap.GetValue j db)
  ∧ Filenames.GetFilename r.2 r.1 = Stream.c_str (Normalize fname)
  ∧ Filenames.HasFilename Normalize fname r.1
    = negb (bool_decide (Normalize fname = "")).
Proof.
  intros Hdb r.
  assert (well_keyed r.1) as Hr.
  { unfold r, FilenameDB.GetFilenameId.
    destruct (ascending (TreeMap.GetIdSet (Normalize fname) db)); [|done].
    by apply well_keyed_Insert. }
  destruct (GetFilenameId_found Normalize fname db) as [Hin Hasc].
  fold r in Hin, Hasc.
  assert (∀ g, Normalize g = Normalize fname →
               FilenameDB.GetFilenameId Normalize g r.1 = r) as Hsame.
  { intros g Hg. unfold FilenameDB.GetFilenameId at 1.
    rewrite Hg, Hasc. by destruct r. }
  split; [done|]. split; [done|]. split.
  { intros g Hg.
    destruct (GetFilenameId_found Normalize g r.1) as [Hin' _].
    set (r' := FilenameDB.GetFilenameId Normalize g r.1) in *.
    assert (well_keyed r'.1) as Hr'.
    { unfold r', FilenameDB.GetFilenameId.
      destruct (ascending (TreeMap.GetIdSet (Normalize g) r.1)); [|done].
      by apply well_keyed_Insert. }
    destruct (Hr' _ _ Hin') as (e' & He' & Hk').
    destruct (Hr _ _ Hin) as (e & He & Hk).
    assert (TreeMap.GetValue r.2 r'.1 = Some e) as He2.
    { unfold r', FilenameDB.GetFilenameId.
      destruct (ascending (TreeMap.GetIdSet (Normalize g) r.1)); [|done].
      rewrite GetValue_Insert. apply GetValue_in_range in He as Hne.
      by rewrite decide_False. }
    rewrite Hg in He'. congruence. }
  split.
  { intros j Hj. unfold r, FilenameDB.GetFilenameId.
    destruct (ascending (TreeMap.GetIdSet (Normalize fname) db)); [|done].
    rewrite GetValue_Insert. apply HasValue_spec in Hj.
    rewrite decide_False by lia. done. }
  destruct (Hr _ _ Hin) as (e & He & Hk). split.
  - unfold Filenames.GetFilename.
    rewrite (HasValue_of_GetValue _ _ _ He), He. simpl. by rewrite Hk.
  - unfold Filenames.HasFilename. rewrite Hasc.
    by destruct (Normalize fname) as [|c s].
Qed.

Lemma GetFilenameId_is_stable_witness :
  let r := FilenameDB.GetFilenameId (λ f, f) "/src/a.h" TreeMap.empty in
  r.2 = 0 ∧ FilenameDB.GetFilenameId (λ f, f) "/src/a.h" r.1 = r
  ∧ Filenames.GetFilename r.2 r.1 = "/src/a.h"%string.
Proof.
  pose proof (GetFilenameId_is_stable (λ f, f) "/src/a.h" TreeMap.empty
                well_keyed_empty) as (_ & Hsame & _ & _ & Hname & _).
  split; [vm_compute; reflexivity|]. split; [by apply Hsame|].
  exact Hname.
Defined.

(** X5: [UpdateFilenameTimestamp] followed by [GetFilenameTimestamp] on the
    same id gives the stamp that was set, and nothing else moves: other
    ids keep their stamps, every id keeps its name and every name its ids.
    An id that was never handed out trips the assertion of either function
    in a debug build and is an out-of-range vector access in a release
    build. *)
Theorem timestamp_set_then_get (NDEBUG : bool) (fId : ClFileId) (ts : option Z)
    (db : TreeMap.t ClFilenameEntry) :
  (TreeMap.HasValue fId db = true →
   ∃ db',
     Filenames.UpdateFilenameTimestamp NDEBUG fId ts db = Returned db'
     ∧ Filenames.GetFilenameTimestamp NDEBUG fId db' = Returned ts
     ∧ (∀ j, j ≠ fId →
             Filenames.GetFilenameTimestamp NDEBUG j db'
             = Filenames.GetFilenameTimestamp NDEBUG j db)
     ∧ (∀ j, Filenames.GetFilename j db' = Filenames.GetFilename j db)
     ∧ (∀ k, TreeMap.GetIdSet k db' = TreeMap.GetIdSet k db)
     ∧ TreeMap.GetCount db' = TreeMap.GetCount db)
  ∧ (TreeMap.HasValue fId db = false →
     Filenames.UpdateFilenameTimestamp NDEBUG fId ts db
     = (if NDEBUG then Undefined
        else AssertFailed "m_pFileEntries->HasValue(fId)")
     ∧ Filenames.GetFilenameTimestamp NDEBUG fId db
       = (if NDEBUG then Undefined
          else AssertFailed "m_pFileEntries->HasValue(fId)")).
Proof.
  split.
  - intros Hhas. pose proof Hhas as Hsome.
    apply HasValue_is_Some in Hsome as [entry He].
    set (db' := TreeMap.SetValue fId (mkFilenameEntry (filename entry) ts) db).
    assert (∀ j, TreeMap.GetValue j db'
                 = if decide (j = fId)
                   then Some (mkFilenameEntry (filename entry) ts)
                   else TreeMap.GetValue j db) as Hget.
    { intros j. unfold db'. by rewrite (GetValue_SetValue _ _ _ entry). }
    assert (∀ j, TreeMap.HasValue j db' = TreeMap.HasValue j db) as Hhas'.
    { intros j. apply eq_true_iff_eq. rewrite !HasValue_is_Some, Hget.
      destruct (decide (j = fId)) as [->|]; [|done].
      rewrite He. split; eauto. }
    exists db'. split.
    { unfold Filenames.UpdateFilenameTimestamp, TokenDB.assert.
      rewrite Hhas, orb_true_r. simpl. by rewrite He. }
    split.
    { unfold Filenames.GetFilenameTimestamp, TokenDB.assert.
      rewrite Hhas', Hhas, orb_true_r. simpl.
      rewrite Hget. by rewrite decide_True. }
    split.
    { intros j Hj. unfold Filenames.GetFilenameTimestamp.
      rewrite Hhas', Hget. by rewrite decide_False. }
    split.
    { intros j. unfold Filenames.GetFilename. rewrite Hhas', Hget.
      destruct (decide (j = fId)) as [->|]; [|done]. by rewrite He. }
    split; [intros k; apply GetIdSet_SetValue|].
    unfold db', TreeMap.SetValue, TreeMap.GetCount.
    destruct (Z.ltb fId 0); [done|]. simpl. by rewrite length_insert.
  - intros Hhas.
    assert (TreeMap.GetValue fId db = None) as Hnone.
    { apply eq_None_not_Some. rewrite <- HasValue_is_Some. by rewrite Hhas. }
    unfold Filenames.UpdateFilenameTimestamp, Filenames.GetFilenameTimestamp,
      TokenDB.assert.
    rewrite Hhas, Hnone. by destruct NDEBUG.
Qed.

Lemma timestamp_set_then_get_witness :
  let db := (FilenameDB.GetFilenameId (λ f, f) "/src/a.h" TreeMap.empty).1 in
  ∃ db',
    Filenames.UpdateFilenameTimestamp false 0 (Some 1700000000000) db = Returned db'
    ∧ Filenames.GetFilenameTimestamp false 0 db' = Returned (Some 1700000000000)
    ∧ Filenames.UpdateFilenameTimestamp false 1 (Some 0) db
      = AssertFailed "m_pFileEntries->HasValue(fId)".
Proof.
  intros db.
  destruct (timestamp_set_then_get false 0 (Some 1700000000000) db) as [Hok _].
  destruct Hok as (db' & Hset & Hget & _); [vm_compute; reflexivity|].
  destruct (timestamp_set_then_get false 1 (Some 0) db) as [_ Hbad].
  destruct Hbad as [Hbad _]; [vm_compute; reflexivity|].
  exists db'. by repeat split.
Defined.

(** What an entry looks like once it has been through a file: an invalid
    date is written as 0 and read as the date 0. *)
Definition stamped (e : ClFilenameEntry) : ClFilenameEntry :=
  mkFilenameEntry (filename e) (Some (default 0 (timestamp e))).

Definition insert_all (entries : list ClFilenameEntry)
    (files : TreeMap.t ClFilenameEntry) : TreeMap.t ClFilenameEntry :=
  foldl (λ db e, (TreeMap.Insert (filename e) (stamped e) db).1) files entries.

Lemma read_entries_result entries files rest :
  Forall storable_entry entries →
  FilenameDB.read_entries (length entries) files
    (concat (FilenameDB.WriteEntry <$> entries) ++ rest)
  = (insert_all entries files, Some rest).
Proof.
  intros Hs. revert files.
  induction Hs as [|entry entries [H1 H2] _ IH]; intros files; [done|].
  simpl. unfold FilenameDB.WriteEntry at 1. rewrite <- !app_assoc.
  rewrite ReadString_WriteString by done.
  rewrite ReadLongLong_WriteLongLong.
  - rewrite IH. unfold insert_all. simpl. unfold stamped.
    by destruct (timestamp entry).
  - destruct (timestamp entry); [done|]. unfold fits_longlong. lia.
Qed.

Lemma insert_all_spec entries files :
  TreeMap.m_Data (insert_all entries files)
  = TreeMap.m_Data files ++ (stamped <$> entries)
  ∧ ∀ k j, j ∈ TreeMap.GetIdSet k (insert_all entries files)
           ↔ j ∈ TreeMap.GetIdSet k files
             ∨ ∃ (i : nat) e, entries !! i = Some e ∧ filename e = k
                              ∧ j = TreeMap.GetCount files + Z.of_nat i.
Proof.
  revert files. induction entries as [|e entries IH]; intros files.
  - split; [by rewrite app_nil_r|]. intros k j. split; [by left|].
    intros [?|(i & e & Hi & _)]; [done|]. by rewrite lookup_nil in Hi.
  - assert (insert_all (e :: entries) files
            = insert_all entries (TreeMap.Insert (filename e) (stamped e) files).1)
      as -> by done.
    destruct (IH (TreeMap.Insert (filename e) (stamped e) files).1) as [Hd Ht].
    split.
    + rewrite Hd. simpl. by rewrite <- app_assoc.
    + intros k j. rewrite Ht, GetIdSet_Insert.
      assert (TreeMap.GetCount (TreeMap.Insert (filename e) (stamped e) files).1
              = TreeMap.GetCount files + 1) as Hc.
      { unfold TreeMap.GetCount, TreeMap.Insert. simpl. rewrite length_app.
        simpl. lia. }
      rewrite Hc. split.
      * intros [[[-> ->]|Hold]|(i & e' & Hi & Hk & ->)].
        -- right. exists 0%nat, e. simpl. split; [done|]. split; [done|lia].
        -- by left.
        -- right. exists (S i), e'. simpl. split; [done|]. split; [done|lia].
      * intros [Hold|(i & e' & Hi & Hk & ->)]; [by left; right|].
        destruct i as [|i]; simpl in Hi.
        -- inversion Hi; subst e'. left; left. split; [done|lia].
        -- right. exists i, e'. split; [done|]. split; [done|lia].
Qed.

(** X6: [ClFilenameDatabase::ReadIn] appends.  Reading a written table into
    a table that already has [n] entries leaves those in place and files
    the entries of the stream after them: the entry written from id [i]
    arrives at id [n + i], under its file name, its date valid.  The ids of
    the written table are therefore kept only by an empty target. *)
Theorem FilenameDB_ReadIn_appends (fdb files : TreeMap.t ClFilenameEntry)
    (rest : list Z) :
  Forall storable_entry (TreeMap.m_Data fdb) →
  TreeMap.GetCount fdb < 2 ^ 31 →
  let r := FilenameDB.ReadIn files (FilenameDB.WriteOut fdb ++ rest) in
  r.2 = Some rest
  ∧ TreeMap.GetCount r.1 = TreeMap.GetCount files + TreeMap.GetCount fdb
  ∧ (∀ j, TreeMap.HasValue j files = true →
          TreeMap.GetValue j r.1 = TreeMap.GetValue j files)
  ∧ (∀ i e, TreeMap.GetValue i fdb = Some e →
            TreeMap.GetValue (TreeMap.GetCount files + i) r.1 = Some (stamped e)
            ∧ TreeMap.GetCount files + i ∈ TreeMap.GetIdSet (filename e) r.1)
  ∧ (∀ k j, j ∈ TreeMap.GetIdSet k r.1 →
            j ∈ TreeMap.GetIdSet k files
            ∨ ∃ i e, TreeMap.GetValue i fdb = Some e ∧ filename e = k
                     ∧ j = TreeMap.GetCount files + i).
Proof.
  intros Hs Hl r.
  assert (r = (insert_all (TreeMap.m_Data fdb) files, Some rest)) as ->.
  { unfold r, FilenameDB.ReadIn, FilenameDB.WriteOut.
    unfold TreeMap.GetCount in *.
    rewrite <- app_assoc, ReadInt_WriteInt by (unfold fits_int; lia).
    rewrite Nat2Z.id. by apply read_entries_result. }
  destruct (insert_all_spec (TreeMap.m_Data fdb) files) as [Hd Ht]. simpl.
  split; [done|]. split.
  { unfold TreeMap.GetCount. rewrite Hd, length_app, length_fmap. lia. }
  split.
  { intros j Hj. apply HasValue_spec in Hj. unfold TreeMap.GetCount in Hj.
    unfold TreeMap.GetValue. destruct (Z.ltb_spec j 0); [done|].
    rewrite Hd, lookup_app_l by lia. done. }
  split.
  { intros i e He. apply GetValue_Some in He as [Hi He]. split.
    - apply GetValue_Some. unfold TreeMap.GetCount. split; [lia|].
      rewrite Hd, lookup_app_r by lia.
      replace (Z.to_nat (Z.of_nat (length (TreeMap.m_Data files)) + i)
               - length (TreeMap.m_Data files))%nat with (Z.to_nat i) by lia.
      by rewrite list_lookup_fmap, He.
    - apply Ht. right. exists (Z.to_nat i), e. split; [done|].
      split; [done|lia]. }
  intros k j Hj. apply Ht in Hj as [?|(i & e & Hi & Hk & ->)]; [by left|].
  right. exists (Z.of_nat i), e. split; [|done].
  apply GetValue_Some. split; [lia|]. by rewrite Nat2Z.id.
Qed.

Module FilenamesExample.
Definition written : TreeMap.t ClFilenameEntry :=
  (FilenameDB.GetFilenameId (λ f, f) "/src/b.h"
     (FilenameDB.GetFilenameId (λ f, f) "/src/a.h" TreeMap.empty).1).1.
Definition target : TreeMap.t ClFilenameEntry :=
  (FilenameDB.GetFilenameId (λ f, f) "/src/main.cpp" TreeMap.empty).1.
End FilenamesExample.

#[local] Instance fits_longlong_dec z : Decision (fits_longlong z).
Proof. unfold fits_longlong. apply _. Defined.
#[local] Instance storable_entry_dec e : Decision (storable_entry e).
Proof. unfold storable_entry. destruct (timestamp e); apply _. Defined.

Lemma FilenameDB_ReadIn_appends_witness :
  let r := FilenameDB.ReadIn FilenamesExample.target
             (FilenameDB.WriteOut FilenamesExample.written) in
  TreeMap.GetValue 0 FilenamesExample.written
  = Some (mkFilenameEntry "/src/a.h" None)
  ∧ TreeMap.GetValue 0 r.1 = Some (mkFilenameEntry "/src/main.cpp" None)
  ∧ TreeMap.GetValue 1 r.1 = Some (mkFilenameEntry "/src/a.h" (Some 0)).
Proof.
  intros r.
  assert (Forall storable_entry (TreeMap.m_Data FilenamesExample.written)) as Hs
    by decide_by_computing.
  assert (TreeMap.GetCount FilenamesExample.written < 2 ^ 31) as Hl
    by (vm_compute; reflexivity).
  pose proof (FilenameDB_ReadIn_appends FilenamesExample.written
                FilenamesExample.target [] Hs Hl) as (_ & _ & Hold & Hnew & _).
  rewrite app_nil_r in Hold, Hnew. fold r in Hold, Hnew.
  split; [vm_compute; reflexivity|]. split.
  - rewrite (Hold 0); vm_compute; reflexivity.
  - destruct (Hnew 0 (mkFilenameEntry "/src/a.h" None)) as [Hv _];
      [vm_compute; reflexivity|].
    exact Hv.
Defined.

(** ** [ClTokenDatabase] *)

(** The test of [GetTokenId] on the token in slot [j]: the hash agrees, and
    the type and the file agree unless the query leaves them open. *)
Definition token_matches (fId : ClFileId) (tokType : ClTokenType) (hash : Z)
    (db : ClTokenDatabase) (j : ClTokenId) : Prop :=
  ∃ tok, TreeMap.GetValue j (m_pTokens db) = Some tok
         ∧ AbstractToken.tokenHash tok = hash
         ∧ (AbstractToken.tokenType tok = tokType ∨ tokType = ClTokenType_Unknown)
         ∧ (AbstractToken.fileId tok = fId ∨ fId = wxNOT_FOUND).

Definition GetTokenId_test (fId : ClFileId) (tokType : ClTokenType) (hash : Z)
    (db : ClTokenDatabase) (itr : ClTokenId) : bool :=
  TreeMap.HasValue itr (m_pTokens db) &&
  match TreeMap.GetValue itr (m_pTokens db) with
  | Some tok =>
      Z.eqb (AbstractToken.tokenHash tok) hash
      && (Z.eqb (AbstractToken.tokenType tok) tokType
          || Z.eqb tokType ClTokenType_Unknown)
      && (Z.eqb (AbstractToken.fileId tok) fId || Z.eqb fId wxNOT_FOUND)
  | None => false
  end.

Lemma GetTokenId_test_spec fId tokType hash db j :
  GetTokenId_test fId tokType hash db j = true ↔ token_matches fId tokType hash db j.
Proof.
  unfold GetTokenId_test, token_matches. split.
  - intros H. apply andb_true_iff in H as [_ H].
    destruct (TreeMap.GetValue j (m_pTokens db)) as [tok|]; [|done].
    exists tok. split; [done|].
    apply andb_true_iff in H as [H H3]. apply andb_true_iff in H as [H1 H2].
    apply orb_true_iff in H2, H3. rewrite !Z.eqb_eq in H2, H3.
    apply Z.eqb_eq in H1. done.
  - intros (tok & Hv & H1 & H2 & H3).
    rewrite (HasValue_of_GetValue _ _ _ Hv), Hv. simpl.
    apply andb_true_iff. split; [apply andb_true_iff; split|].
    + by apply Z.eqb_eq.
    + apply orb_true_iff. rewrite !Z.eqb_eq. done.
    + apply orb_true_iff. rewrite !Z.eqb_eq. done.
Qed.

Lemma GetTokenId_unfold ident fId tokType hash db :
  TokenDB.GetTokenId ident fId tokType hash db
  = match List.find (GetTokenId_test fId tokType hash db)
                    (ascending (TreeMap.GetIdSet ident (m_pTokens db))) with
    | Some itr => itr
    | None => wxNOT_FOUND
    end.
Proof. done. Qed.

Lemma find_Some_inv {A} (P : A → bool) (l : list A) (x : A) :
  List.find P l = Some x →
  P x = true ∧ ∃ l1 l2, l = l1 ++ x :: l2 ∧ ∀ y, y ∈ l1 → P y = false.
Proof.
  induction l as [|a l IH]; simpl; [done|].
  destruct (P a) eqn:E.
  - intros [= ->]. split; [done|]. exists [], l. split; [done|].
    intros y Hy. by apply elem_of_nil in Hy.
  - intros H. destruct (IH H) as (Hx & l1 & l2 & -> & Hl1). split; [done|].
    exists (a :: l1), l2. split; [done|].
    intros y Hy. apply elem_of_cons in Hy as [->|Hy]; [done|by apply Hl1].
Qed.

Lemma find_None_inv {A} (P : A → bool) (l : list A) :
  List.find P l = None ↔ ∀ y, y ∈ l → P y = false.
Proof.
  induction l as [|a l IH]; simpl.
  - split; [|done]. intros _ y Hy. by apply elem_of_nil in Hy.
  - destruct (P a) eqn:E.
    + split; [done|]. intros H. specialize (H a (list_elem_of_here _ _)).
      congruence.
    + rewrite IH. split.
      * intros H y Hy. apply elem_of_cons in Hy as [->|Hy]; [done|by apply H].
      * intros H y Hy. apply H. by apply list_elem_of_further.
Qed.

Lemma Sorted_ascending (s : gset Z) : StronglySorted Z.le (ascending s).
Proof.
  unfold ascending. apply Sorted_StronglySorted; [intros ???; lia|].
  apply Sorted_merge_sort. intros ??; lia.
Qed.

Lemma find_least (P : Z → bool) (s : gset Z) (x : Z) :
  List.find P (ascending s) = Some x →
  x ∈ s ∧ P x = true ∧ ∀ y, y ∈ s → P y = true → x ≤ y.
Proof.
  intros H. destruct (find_Some_inv _ _ _ H) as (Hx & l1 & l2 & E & Hl1).
  split; [|split; [done|]].
  - apply elem_of_ascending. rewrite E. set_solver.
  - intros y Hy HPy. apply elem_of_ascending in Hy.
    pose proof (Sorted_ascending s) as Hs. rewrite E in Hs, Hy.
    apply elem_of_app in Hy as [Hy|Hy].
    + apply Hl1 in Hy. congruence.
    + apply StronglySorted_app_1_r in Hs.
      apply elem_of_cons in Hy as [->|Hy]; [lia|].
      apply StronglySorted_inv in Hs as [_ Hall].
      rewrite Forall_forall in Hall. by apply Hall.
Qed.

(** X7: [GetTokenId] answers with the smallest id filed under the
    identifier whose token passes the test, and with [wxNOT_FOUND] exactly
    when none passes.  The unknown type and the not-found file id in the
    query stand for any type and any file. *)
Theorem GetTokenId_finds_the_least_match (ident : wxString) (fId : ClFileId)
    (tokType : ClTokenType) (hash : Z) (db : ClTokenDatabase) :
  let id := TokenDB.GetTokenId ident fId tokType hash db in
  (id = wxNOT_FOUND
   ↔ ∀ j, j ∈ TreeMap.GetIdSet ident (m_pTokens db) →
          ¬ token_matches fId tokType hash db j)
  ∧ (id ≠ wxNOT_FOUND →
     id ∈ TreeMap.GetIdSet ident (m_pTokens db)
     ∧ token_matches fId tokType hash db id
     ∧ ∀ j, j ∈ TreeMap.GetIdSet ident (m_pTokens db) →
            token_matches fId tokType hash db j → id ≤ j).
Proof.
  intros id. unfold id. rewrite GetTokenId_unfold.
  destruct (List.find _ _) as [itr|] eqn:E.
  - apply find_least in E as (Hin & HP & Hleast).
    apply GetTokenId_test_spec in HP as HP'.
    assert (itr ≠ wxNOT_FOUND) as Hne.
    { destruct HP' as (tok & Hv & _). apply GetValue_Some in Hv as [? _].
      unfold wxNOT_FOUND. lia. }
    split.
    + split; [done|]. intros Hnone. by destruct (Hnone itr Hin).
    + intros _. split; [done|]. split; [done|].
      intros j Hj Hm. apply Hleast; [done|]. by apply GetTokenId_test_spec.
  - split; [|done]. split; [|done]. intros _ j Hj Hm.
    rewrite find_None_inv in E. apply GetTokenId_test_spec in Hm.
    rewrite E in Hm; [done|]. by apply elem_of_ascending.
Qed.

Definition same_key (a b : ClAbstractToken) : Prop :=
  AbstractToken.identifier a = AbstractToken.identifier b
  ∧ AbstractToken.fileId a = AbstractToken.fileId b
  ∧ AbstractToken.tokenType a = AbstractToken.tokenType b
  ∧ AbstractToken.tokenHash a = AbstractToken.tokenHash b.

Lemma GetTokenId_not_found ident fId tokType hash db :
  TokenDB.GetTokenId ident fId tokType hash db = wxNOT_FOUND ↔
  List.find (GetTokenId_test fId tokType hash db)
            (ascending (TreeMap.GetIdSet ident (m_pTokens db))) = None.
Proof.
  rewrite GetTokenId_unfold. destruct (List.find _ _) as [itr|] eqn:E; [|done].
  split; [|done]. intros ->. apply find_Some_inv in E as [HP _].
  unfold GetTokenId_test in HP. by apply andb_true_iff in HP as [HP _].
Qed.

Lemma InsertToken_found token db :
  TokenDB.GetTokenId (AbstractToken.identifier token) (AbstractToken.fileId token)
    (AbstractToken.tokenType token) (AbstractToken.tokenHash token) db
  ≠ wxNOT_FOUND →
  TokenDB.InsertToken token db
  = (db, TokenDB.GetTokenId (AbstractToken.identifier token)
           (AbstractToken.fileId token) (AbstractToken.tokenType token)
           (AbstractToken.tokenHash token) db).
Proof.
  intros H. unfold TokenDB.InsertToken.
  by destruct (Z.eqb_spec (TokenDB.GetTokenId (AbstractToken.identifier token)
                 (AbstractToken.fileId token) (AbstractToken.tokenType token)
                 (AbstractToken.tokenHash token) db) wxNOT_FOUND).
Qed.

Lemma InsertToken_new token db :
  TokenDB.GetTokenId (AbstractToken.identifier token) (AbstractToken.fileId token)
    (AbstractToken.tokenType token) (AbstractToken.tokenHash token) db
  = wxNOT_FOUND →
  TokenDB.InsertToken token db
  = (mkTokenDB (m_pTokenIndexDB db)
       (TreeMap.Insert (AbstractToken.identifier token) token (m_pTokens db)).1
       (TreeMapInt.Insert (Format_d (AbstractToken.fileId token))
          (TreeMap.GetCount (m_pTokens db)) (m_pFileTokensTU db)),
     TreeMap.GetCount (m_pTokens db)).
Proof.
  intros H. unfold TokenDB.InsertToken. rewrite H. simpl.
  unfold TreeMap.Insert, TreeMap.GetCount. simpl. rewrite length_app. simpl.
  repeat f_equal; lia.
Qed.

(** After [InsertToken] the token's key finds the id it returned. *)
Lemma InsertToken_then_GetTokenId token db :
  let r := TokenDB.InsertToken token db in
  TokenDB.GetTokenId (AbstractToken.identifier token) (AbstractToken.fileId token)
    (AbstractToken.tokenType token) (AbstractToken.tokenHash token) r.1 = r.2
  ∧ r.2 ≠ wxNOT_FOUND.
Proof.
  intros r. unfold r.
  destruct (decide (TokenDB.GetTokenId (AbstractToken.identifier token)
                      (AbstractToken.fileId token) (AbstractToken.tokenType token)
                      (AbstractToken.tokenHash token) db = wxNOT_FOUND)) as [E|E].
  - rewrite (InsertToken_new _ _ E). cbn [fst snd].
    pose proof E as Hnone. apply GetTokenId_not_found in Hnone.
    rewrite find_None_inv in Hnone.
    set (db' := mkTokenDB _ _ _).
    assert (TreeMap.GetCount (m_pTokens db) ≠ wxNOT_FOUND) as Hne.
    { unfold TreeMap.GetCount, wxNOT_FOUND. lia. }
    split; [|done].
    rewrite GetTokenId_unfold.
    rewrite (find_unique _ _ (TreeMap.GetCount (m_pTokens db))); [done|..].
    + apply elem_of_ascending. unfold db'. cbn [m_pTokens]. apply GetIdSet_Insert.
      by left.
    + apply GetTokenId_test_spec. exists token. unfold db'. cbn [m_pTokens].
      rewrite GetValue_Insert, decide_True by done.
      split; [done|]. split; [done|]. split; by left.
    + intros y Hy HP. destruct (decide (y = TreeMap.GetCount (m_pTokens db)))
        as [|Hyn]; [done|]. exfalso.
      apply elem_of_ascending in Hy. unfold db' in Hy. cbn [m_pTokens] in Hy.
      apply GetIdSet_Insert in Hy as [[_ ?]|Hy]; [done|].
      apply elem_of_ascending in Hy. apply Hnone in Hy.
      apply GetTokenId_test_spec in HP. destruct HP as (tok & Hv & Hm).
      unfold db' in Hv. cbn [m_pTokens] in Hv.
      rewrite GetValue_Insert, decide_False in Hv by done.
      assert (GetTokenId_test (AbstractToken.fileId token)
                (AbstractToken.tokenType token) (AbstractToken.tokenHash token)
                db y = true) as HP'.
      { apply GetTokenId_test_spec. by exists tok. }
      congruence.
  - by rewrite (InsertToken_found _ _ E).
Qed.

(** X8: [InsertToken] keeps one token per (identifier, file, type, hash).
    Inserting a token with the key of one just inserted changes nothing
    and returns the id handed out before, whatever its position or names
    are; the id is the slot of a token that passes the test of
    [GetTokenId]; no earlier slot changes, and the index the database
    points to is left alone. *)
Theorem InsertToken_deduplicates (token : ClAbstractToken) (db : ClTokenDatabase) :
  let r := TokenDB.InsertToken token db in
  (∀ token', same_key token' token → TokenDB.InsertToken token' r.1 = r)
  ∧ r.2 ∈ TokenDB.GetTokenMatches (AbstractToken.identifier token) r.1
  ∧ token_matches (AbstractToken.fileId token) (AbstractToken.tokenType token)
                  (AbstractToken.tokenHash token) r.1 r.2
  ∧ (∀ j, TreeMap.HasValue j (m_pTokens db) = true →
          TreeMap.GetValue j (m_pTokens r.1) = TreeMap.GetValue j (m_pTokens db))
  ∧ TreeMap.GetCount (m_pTokens db) ≤ TreeMap.GetCount (m_pTokens r.1)
    ≤ TreeMap.GetCount (m_pTokens db) + 1
  ∧ m_pTokenIndexDB r.1 = m_pTokenIndexDB db.
Proof.
  intros r. destruct (InsertToken_then_GetTokenId token db) as [Hid Hne].
  fold r in Hid, Hne.
  assert (r.2 ∈ TreeMap.GetIdSet (AbstractToken.identifier token) (m_pTokens r.1)
          ∧ token_matches (AbstractToken.fileId token)
              (AbstractToken.tokenType token) (AbstractToken.tokenHash token)
              r.1 r.2) as [Hin Hm].
  { rewrite <- Hid in Hne. rewrite GetTokenId_unfold in Hid, Hne.
    destruct (List.find _ _) as [itr|] eqn:E; [|done]. subst itr.
    apply find_least in E as (Hin & HP & _). split; [done|].
    by apply GetTokenId_test_spec. }
  split.
  { intros token' (H1 & H2 & H3 & H4).
    rewrite InsertToken_found; rewrite H1, H2, H3, H4, Hid; [|done].
    by destruct r. }
  split; [done|]. split; [done|].
  unfold r.
  destruct (decide (TokenDB.GetTokenId (AbstractToken.identifier token)
                      (AbstractToken.fileId token) (AbstractToken.tokenType token)
                      (AbstractToken.tokenHash token) db = wxNOT_FOUND)) as [E|E].
  - rewrite (InsertToken_new _ _ E). cbn [fst snd m_pTokens m_pTokenIndexDB].
    split.
    { intros j Hj. rewrite GetValue_Insert. apply HasValue_spec in Hj.
      rewrite decide_False by lia. done. }
    split; [|done]. unfold TreeMap.GetCount, TreeMap.Insert. simpl.
    rewrite length_app. simpl. lia.
  - rewrite (InsertToken_found _ _ E). simpl. split; [done|]. split; [lia|done].
Qed.

Lemma Format_d_inj (a b : Z) : Format_d a = Format_d b → a = b.
Proof. unfold Format_d. apply (inj pretty). Qed.

Lemma GetTokenId_member ident fId tokType hash db :
  TokenDB.GetTokenId ident fId tokType hash db ≠ wxNOT_FOUND →
  TokenDB.GetTokenId ident fId tokType hash db
  ∈ TreeMap.GetIdSet ident (m_pTokens db).
Proof.
  rewrite GetTokenId_unfold. destruct (List.find _ _) as [itr|] eqn:E; [|done].
  intros _. by apply find_least in E as (Hin & _).
Qed.

Lemma RemoveToken_release db id tok :
  TreeMap.GetValue id (m_pTokens db) = Some tok →
  TokenDB.RemoveToken true id db
  = Returned
      (mkTokenDB (m_pTokenIndexDB db)
         (TreeMap.RemoveIdKey (AbstractToken.identifier tok) id (m_pTokens db))
         (TreeMapInt.Insert (Format_d wxNOT_FOUND) id
            (TreeMapInt.Remove (Format_d (AbstractToken.fileId tok)) id
               (m_pFileTokensTU db)))).
Proof.
  intros Hv. unfold TokenDB.RemoveToken, TokenDB.GetToken, TokenDB.UpdateToken.
  simpl. rewrite Hv. simpl. reflexivity.
Qed.

(** X9: in a release build [RemoveToken] takes the id off the identifier
    and off the file of the token and files it under the not-found file id;
    the slot stays in the table.  The slot is not handed out again: a token
    inserted afterwards under that identifier gets another id, so the table
    never shrinks. *)
Theorem removed_slot_is_not_reused (db : ClTokenDatabase) (id : ClTokenId)
    (tok : ClAbstractToken) :
  TreeMap.GetValue id (m_pTokens db) = Some tok →
  ∃ db',
    TokenDB.RemoveToken true id db = Returned db'
    ∧ (id ∉ TokenDB.GetTokenMatches (AbstractToken.identifier tok) db')
    ∧ id ∈ TokenDB.GetFileTokens wxNOT_FOUND db'
    ∧ (AbstractToken.fileId tok ≠ wxNOT_FOUND →
       id ∉ TokenDB.GetFileTokens (AbstractToken.fileId tok) db')
    ∧ TreeMap.GetCount (m_pTokens db') = TreeMap.GetCount (m_pTokens db)
    ∧ ∀ token,
        AbstractToken.identifier token = AbstractToken.identifier tok →
        (TokenDB.InsertToken token db').2 ≠ id
        ∧ TreeMap.GetCount (m_pTokens db)
          ≤ TreeMap.GetCount (m_pTokens (TokenDB.InsertToken token db').1).
Proof.
  intros Hv. eexists. split; [by apply RemoveToken_release|].
  set (db' := mkTokenDB _ _ _).
  assert (id ∉ TokenDB.GetTokenMatches (AbstractToken.identifier tok) db') as Hout.
  { unfold TokenDB.GetTokenMatches, db', TreeMap.GetIdSet, TreeMap.RemoveIdKey.
    cbn [m_pTokens TreeMap.m_Tree]. rewrite elem_of_GetIdSet.
    unfold TreeMapInt.Remove. set_solver. }
  split; [done|]. split.
  { unfold TokenDB.GetFileTokens, db'. cbn [m_pFileTokensTU].
    rewrite elem_of_GetIdSet. unfold TreeMapInt.Insert. set_solver. }
  split.
  { intros Hf. unfold TokenDB.GetFileTokens, db'. cbn [m_pFileTokensTU].
    rewrite elem_of_GetIdSet. unfold TreeMapInt.Insert, TreeMapInt.Remove.
    intros [Hin|Hin]%elem_of_union.
    - apply elem_of_singleton in Hin. injection Hin as Hin.
      by apply Format_d_inj in Hin.
    - set_solver. }
  split; [done|].
  intros token Hident.
  destruct (decide (TokenDB.GetTokenId (AbstractToken.identifier token)
                      (AbstractToken.fileId token) (AbstractToken.tokenType token)
                      (AbstractToken.tokenHash token) db' = wxNOT_FOUND)) as [E|E].
  - rewrite (InsertToken_new _ _ E). cbn [fst snd m_pTokens].
    apply GetValue_in_range in Hv as Hne. split.
    + intros Heq. apply Hne. rewrite <- Heq. done.
    + unfold TreeMap.GetCount, TreeMap.Insert. simpl. rewrite length_app. lia.
  - rewrite (InsertToken_found _ _ E). cbn [fst snd].
    split; [|unfold db', TreeMap.GetCount; simpl; lia].
    apply GetTokenId_member in E. intros Heq.
    rewrite Heq, Hident in E. by apply Hout.
Qed.

Module RemoveExample.
Definition main_token : ClAbstractToken :=
  AbstractToken.mk 2 1 (mkRange (mkPosition 4 1) (mkPosition 4 9))
                   "main" "main" "c:@F@main#" 77 [] ("", "").
Definition database : ClTokenDatabase :=
  (TokenDB.InsertToken main_token TokenDB.empty).1.
End RemoveExample.

Lemma removed_slot_is_not_reused_witness :
  ∃ db',
    TokenDB.RemoveToken true 0 RemoveExample.database = Returned db'
    ∧ (TokenDB.InsertToken RemoveExample.main_token db').2 ≠ 0.
Proof.
  destruct (removed_slot_is_not_reused RemoveExample.database 0
              RemoveExample.main_token)
    as (db' & Hrem & _ & _ & _ & _ & Hins); [vm_compute; reflexivity|].
  exists db'. split; [done|]. by apply Hins.
Defined.

(** The test of [LookupTokenDefinition] on a token. *)
Definition is_definition (DefGroup : ClTokenType) (fId : ClFileId) (usr : wxString)
    (tok : ClAbstractToken) : Prop :=
  AbstractToken.fileId tok = fId
  ∧ Z.land (AbstractToken.tokenType tok) DefGroup = DefGroup
  ∧ (usr = "" ∨ AbstractToken.USR tok = usr).

Definition definition_test (DefGroup : ClTokenType) (fId : ClFileId)
    (usr : wxString) (db : ClTokenDatabase) (id : ClTokenId) : bool :=
  match TreeMap.GetValue id (m_pTokens db) with
  | Some tok =>
      Z.eqb (AbstractToken.fileId tok) fId
      && Z.eqb (Z.land (AbstractToken.tokenType tok) DefGroup) DefGroup
      && (bool_decide (usr = "") || bool_decide (AbstractToken.USR tok = usr))
  | None => false
  end.

Lemma definition_test_spec DefGroup fId usr db id tok :
  TreeMap.GetValue id (m_pTokens db) = Some tok →
  definition_test DefGroup fId usr db id = true ↔ is_definition DefGroup fId usr tok.
Proof.
  intros Hv. unfold definition_test, is_definition. rewrite Hv.
  rewrite !andb_true_iff, orb_true_iff, !Z.eqb_eq, !bool_decide_eq_true.
  tauto.
Qed.

Lemma scan_definitions_find NDEBUG DefGroup fId usr db l :
  (∀ id, id ∈ l → TreeMap.HasValue id (m_pTokens db) = true) →
  TokenQueries.scan_definitions NDEBUG DefGroup fId usr db l
  = Returned (id ← List.find (definition_test DefGroup fId usr db) l;
              tok ← TreeMap.GetValue id (m_pTokens db);
              Some (beginLocation (AbstractToken.range tok))).
Proof.
  induction l as [|id l IH]; intros Hl; [done|].
  assert (TreeMap.HasValue id (m_pTokens db) = true) as Hh
    by apply Hl, list_elem_of_here.
  apply HasValue_is_Some in Hh as Hs. destruct Hs as [tok Hv].
  simpl. unfold TokenDB.GetToken, TokenDB.assert. rewrite Hh, orb_true_r, Hv.
  simpl. unfold definition_test at 1. rewrite Hv.
  destruct (_ && _ && _); simpl; [by rewrite Hv|].
  apply IH. intros j Hj. by apply Hl, list_elem_of_further.
Qed.

(** X10: when every id filed under the identifier has its slot,
    [LookupTokenDefinition] returns, and its answer is the start of the
    token with the smallest id among those of the file that carry every
    bit of the definition group and, for a non-empty USR, that USR; it
    answers [false] exactly when there is no such token. *)
Theorem LookupTokenDefinition_finds_first_definition (NDEBUG : bool)
    (DefGroup : ClTokenType) (fId : ClFileId) (ident usr : wxString)
    (db : ClTokenDatabase) :
  (∀ id, id ∈ TokenDB.GetTokenMatches ident db →
         TreeMap.HasValue id (m_pTokens db) = true) →
  ∃ r,
    TokenQueries.LookupTokenDefinition NDEBUG DefGroup fId ident usr db = Returned r
    ∧ match r with
      | Some pos =>
          ∃ id tok,
            id ∈ TokenDB.GetTokenMatches ident db
            ∧ TreeMap.GetValue id (m_pTokens db) = Some tok
            ∧ is_definition DefGroup fId usr tok
            ∧ pos = beginLocation (AbstractToken.range tok)
            ∧ ∀ j tok', j ∈ TokenDB.GetTokenMatches ident db →
                        TreeMap.GetValue j (m_pTokens db) = Some tok' →
                        is_definition DefGroup fId usr tok' → id ≤ j
      | None =>
          ∀ id tok, id ∈ TokenDB.GetTokenMatches ident db →
                    TreeMap.GetValue id (m_pTokens db) = Some tok →
                    ¬ is_definition DefGroup fId usr tok
      end.
Proof.
  intros Hall. unfold TokenQueries.LookupTokenDefinition.
  rewrite scan_definitions_find
    by (intros id Hid; by apply Hall, elem_of_ascending).
  eexists. split; [reflexivity|].
  destruct (List.find _ _) as [id|] eqn:E; simpl.
  - apply find_least in E as (Hin & HP & Hleast).
    pose proof (Hall id Hin) as Hh. apply HasValue_is_Some in Hh as [tok Hv].
    rewrite Hv. simpl. exists id, tok. split; [done|]. split; [done|].
    split; [by apply (definition_test_spec _ _ _ _ _ _ Hv)|]. split; [done|].
    intros j tok' Hj Hv' Hd. apply Hleast; [done|].
    by apply (definition_test_spec _ _ _ _ _ _ Hv').
  - rewrite find_None_inv in E. intros id tok Hid Hv Hd.
    apply (definition_test_spec _ _ _ _ _ _ Hv) in Hd.
    rewrite E in Hd; [done|]. by apply elem_of_ascending.
Qed.

Module LookupExample.
Definition declaration : ClAbstractToken :=
  AbstractToken.mk 1 1 (mkRange (mkPosition 2 6) (mkPosition 2 6))
                   "run" "run()" "c:@F@run#" 11 [] ("", "").
Definition definition : ClAbstractToken :=
  AbstractToken.mk 3 1 (mkRange (mkPosition 9 6) (mkPosition 9 6))
                   "run" "run()" "c:@F@run#" 12 [] ("", "").
Definition database : ClTokenDatabase :=
  (TokenDB.InsertToken definition
     (TokenDB.InsertToken declaration TokenDB.empty).1).1.
End LookupExample.

Lemma LookupTokenDefinition_finds_first_definition_witness :
  TokenQueries.LookupTokenDefinition false 2 1 "run" "" LookupExample.database
  = Returned (Some (mkPosition 9 6))
  ∧ ∃ r,
      TokenQueries.LookupTokenDefinition false 2 7 "run" ""
                                         LookupExample.database = Returned r
      ∧ match r with
        | Some pos =>
            ∃ id tok,
              id ∈ TokenDB.GetTokenMatches "run" LookupExample.database
              ∧ TreeMap.GetValue id (m_pTokens LookupExample.database) = Some tok
              ∧ is_definition 2 7 "" tok
              ∧ pos = beginLocation (AbstractToken.range tok)
              ∧ ∀ j tok',
                  j ∈ TokenDB.GetTokenMatches "run" LookupExample.database →
                  TreeMap.GetValue j (m_pTokens LookupExample.database)
                  = Some tok' →
                  is_definition 2 7 "" tok' → id ≤ j
        | None =>
            ∀ id tok,
              id ∈ TokenDB.GetTokenMatches "run" LookupExample.database →
              TreeMap.GetValue id (m_pTokens LookupExample.database) = Some tok →
              ¬ is_definition 2 7 "" tok
        end.
Proof.
  split; [vm_compute; reflexivity|].
  apply LookupTokenDefinition_finds_first_definition.
  intros id Hid. apply elem_of_ascending in Hid. in_small_set Hid; reflexivity.
Defined.

(** ** [ClTokenIndexDatabase] *)

(** The index holds, under [ident], a token with the USR [usr] that has the
    location [loc], carries the bits of its type, and is filed under its
    file. *)
Definition indexed (db : ClTokenIndexDatabase) (ident usr : wxString)
    (loc : ClIndexTokenLocation) : Prop :=
  ∃ id tok,
    id ∈ TreeMap.GetIdSet ident (m_pIndexTokenMap db)
    ∧ TreeMap.GetValue id (m_pIndexTokenMap db) = Some tok
    ∧ USR tok = usr
    ∧ loc ∈ locationList tok
    ∧ Z.lor (tokenTypeMask tok) (tokenType loc) = tokenTypeMask tok
    ∧ (Format_d (fileId loc), id) ∈ m_pFileTokens db.

(** What a slot of the index may become: the same token with more
    locations, more parents and more bits in its mask. *)
Definition grown (tok tok' : ClIndexToken) : Prop :=
  identifier tok' = identifier tok
  ∧ displayName tok' = displayName tok
  ∧ USR tok' = USR tok
  ∧ scope tok' = scope tok
  ∧ (∀ l, l ∈ locationList tok → l ∈ locationList tok')
  ∧ (∀ p, p ∈ parentTokenList tok → p ∈ parentTokenList tok')
  ∧ Z.lor (tokenTypeMask tok') (tokenTypeMask tok) = tokenTypeMask tok'.

Lemma grown_refl tok : grown tok tok.
Proof. unfold grown. rewrite Z.lor_diag. naive_solver. Qed.

Lemma lor_absorbs m t : Z.lor (Z.lor m t) m = Z.lor m t.
Proof. by rewrite (Z.lor_comm m t), <- Z.lor_assoc, Z.lor_diag. Qed.

Lemma lor_keeps m m' t : Z.lor m' m = m' → Z.lor m t = m → Z.lor m' t = m'.
Proof. intros <- Ht. by rewrite <- Z.lor_assoc, Ht. Qed.

Lemma matched_inv ident usr m id tok :
  matched ident usr m = Some (id, tok) →
  id ∈ TreeMap.GetIdSet ident m ∧ TreeMap.GetValue id m = Some tok ∧ USR tok = usr.
Proof.
  intros [HP (l1 & l2 & E & _)]%find_Some_inv.
  assert ((id, tok) ∈ IndexDB.bucket ident m) as Hin by (rewrite E; set_solver).
  apply elem_of_bucket in Hin as [? ?]. by apply bool_decide_eq_true in HP.
Qed.

Section UpdateAdds.
Variables (ident name : wxString) (fId : ClFileId) (usr : wxString).
Variables (tokType : ClTokenType) (tokenRange : ClTokenRange).
Variable overrides : list (wxString * wxString).
Variable scp : wxString * wxString.

Let update := IndexDB.UpdateToken ident name fId usr tokType tokenRange overrides scp.

Lemma UpdateToken_grows db id tok :
  TreeMap.GetValue id (m_pIndexTokenMap db) = Some tok →
  ∃ tok', TreeMap.GetValue id (m_pIndexTokenMap (update db)) = Some tok'
          ∧ grown tok tok'.
Proof.
  intros Hv. subst update. unfold IndexDB.UpdateToken.
  fold (matched ident usr (m_pIndexTokenMap db)).
  destruct (matched ident usr (m_pIndexTokenMap db)) as [[id0 token]|] eqn:Hm.
  - pose proof (matched_inv _ _ _ _ _ Hm) as (Hid & Hv0 & Hu).
    cbn [m_pIndexTokenMap]. rewrite (GetValue_SetValue _ _ _ _ _ Hv0).
    destruct (decide (id = id0)) as [->|Hne]; [|exists tok; split; [done|apply grown_refl]].
    assert (tok = token) as -> by congruence.
    eexists. split; [reflexivity|]. unfold grown. simpl.
    split; [done|]. split; [done|]. split; [done|]. split; [done|]. split.
    { intros l Hl. case_bool_decide; [done|]. set_solver. }
    split; [|apply lor_absorbs].
    intros p Hp. apply merge_parents_subseteq. by left.
  - destruct (TreeMap.Insert ident _ (m_pIndexTokenMap db)) as [map id'] eqn:Hins.
    assert (Hmap : map = (TreeMap.Insert ident
              (ClIndexToken_new ident name fId usr tokType tokenRange overrides scp)
              (m_pIndexTokenMap db)).1) by (by rewrite Hins).
    cbn [m_pIndexTokenMap]. exists tok. split; [|apply grown_refl].
    rewrite Hmap, GetValue_Insert. apply GetValue_in_range in Hv as Hne.
    by rewrite decide_False.
Qed.

Lemma UpdateToken_keeps_ids db k id :
  id ∈ TreeMap.GetIdSet k (m_pIndexTokenMap db) →
  id ∈ TreeMap.GetIdSet k (m_pIndexTokenMap (update db)).
Proof.
  intros Hid. subst update. unfold IndexDB.UpdateToken.
  destruct (List.find _ _) as [[id0 token]|].
  - cbn [m_pIndexTokenMap]. by rewrite GetIdSet_SetValue.
  - destruct (TreeMap.Insert ident _ (m_pIndexTokenMap db)) as [map id'] eqn:Hins.
    assert (Hmap : map = (TreeMap.Insert ident
              (ClIndexToken_new ident name fId usr tokType tokenRange overrides scp)
              (m_pIndexTokenMap db)).1) by (by rewrite Hins).
    cbn [m_pIndexTokenMap]. rewrite Hmap. apply GetIdSet_Insert. by right.
Qed.

Lemma UpdateToken_keeps_files db p :
  p ∈ m_pFileTokens db → p ∈ m_pFileTokens (update db).
Proof.
  intros Hp. subst update. unfold IndexDB.UpdateToken.
  destruct (List.find _ _) as [[id0 token]|].
  - cbn [m_pFileTokens]. unfold TreeMapInt.Insert, TreeMapInt.Remove.
    destruct (decide (p = (Format_d fId, id0))); set_solver.
  - destruct (TreeMap.Insert ident _ (m_pIndexTokenMap db)) as [map id'].
    cbn [m_pFileTokens]. unfold TreeMapInt.Insert. set_solver.
Qed.

Lemma UpdateToken_keeps_filenames db : m_FileDB (update db) = m_FileDB db.
Proof.
  subst update. unfold IndexDB.UpdateToken.
  destruct (List.find _ _) as [[id0 token]|]; [done|].
  by destruct (TreeMap.Insert ident _ (m_pIndexTokenMap db)).
Qed.

Lemma indexed_UpdateToken_old db k u loc :
  indexed db k u loc → indexed (update db) k u loc.
Proof.
  intros (id & tok & Hid & Hv & Hu & Hl & Hm & Hf).
  destruct (UpdateToken_grows db id tok Hv)
    as (tok' & Hv' & _ & _ & Hu' & _ & Hl' & _ & Hm').
  exists id, tok'. split; [by apply UpdateToken_keeps_ids|].
  split; [done|]. split; [congruence|]. split; [by apply Hl'|].
  split; [by apply (lor_keeps (tokenTypeMask tok))|].
  by apply UpdateToken_keeps_files.
Qed.

Lemma indexed_UpdateToken_new db :
  indexed (update db) ident usr (mkLocation tokType fId tokenRange).
Proof.
  destruct (UpdateToken_matched ident name fId usr tokType tokenRange overrides
              scp db) as (id & tok & Hm & Hf & Hmask & Hl & _).
  apply matched_inv in Hm as (Hid & Hv & Hu).
  by exists id, tok.
Qed.

(** X11: [UpdateToken] only adds.  Every slot of the index keeps its token
    with its identifier, display name, USR and scope (the name and the
    scope passed for a token that is already there are dropped), and the
    token keeps every location, parent and mask bit it had; ids stay filed
    under their identifiers and files; the filename table is not touched.
    Afterwards the index holds the location that was passed, under the
    identifier and the USR that were passed. *)
Theorem UpdateToken_only_adds (db : ClTokenIndexDatabase) :
  (∀ id tok, TreeMap.GetValue id (m_pIndexTokenMap db) = Some tok →
             ∃ tok', TreeMap.GetValue id (m_pIndexTokenMap (update db)) = Some tok'
                     ∧ grown tok tok')
  ∧ (∀ k id, id ∈ TreeMap.GetIdSet k (m_pIndexTokenMap db) →
             id ∈ TreeMap.GetIdSet k (m_pIndexTokenMap (update db)))
  ∧ m_pFileTokens db ⊆ m_pFileTokens (update db)
  ∧ m_FileDB (update db) = m_FileDB db
  ∧ (∀ k u loc, indexed db k u loc → indexed (update db) k u loc)
  ∧ indexed (update db) ident usr (mkLocation tokType fId tokenRange).
Proof.
  split; [apply UpdateToken_grows|].
  split; [intros k id; apply UpdateToken_keeps_ids|].
  split; [intros p; apply UpdateToken_keeps_files|].
  split; [apply UpdateToken_keeps_filenames|].
  split; [apply indexed_UpdateToken_old|apply indexed_UpdateToken_new].
Qed.
End UpdateAdds.

Section Publish.
Variable wxAtoi : wxString → Z.

Definition publish (index : ClTokenIndexDatabase) (token : ClAbstractToken)
    : ClTokenIndexDatabase :=
  IndexDB.UpdateToken
    (AbstractToken.identifier token) (AbstractToken.displayName token)
    (AbstractToken.fileId token) (AbstractToken.USR token)
    (AbstractToken.tokenType token) (AbstractToken.range token)
    (AbstractToken.parentTokenList token) (AbstractToken.scope token) index.

Lemma indexed_publish_all tokens index k u loc :
  indexed index k u loc → indexed (foldl publish index tokens) k u loc.
Proof.
  revert index. induction tokens as [|t tokens IH]; intros index H; [done|].
  simpl. apply IH. by apply indexed_UpdateToken_old.
Qed.

(** X12: [StoreIndexes] publishes every slot of the token table of the unit.
    Afterwards the project index holds, for each of them, a token under its
    identifier and USR with its type, file and range as a location, filed
    under that file; the tables of the unit itself and the filename table
    are as before.  Slots that [RemoveToken] "removed" are published like
    the others. *)
Theorem StoreIndexes_publishes_every_slot (db : ClTokenDatabase) :
  let db' := TokenQueries.StoreIndexes wxAtoi db in
  m_pTokens db' = m_pTokens db
  ∧ m_pFileTokensTU db' = m_pFileTokensTU db
  ∧ m_FileDB (m_pTokenIndexDB db') = m_FileDB (m_pTokenIndexDB db)
  ∧ ∀ id token,
      TreeMap.GetValue id (m_pTokens db) = Some token →
      indexed (m_pTokenIndexDB db')
              (AbstractToken.identifier token) (AbstractToken.USR token)
              (mkLocation (AbstractToken.tokenType token)
                          (AbstractToken.fileId token)
                          (AbstractToken.range token)).
Proof.
  intros db'. split; [done|]. split; [done|].
  unfold db', TokenQueries.StoreIndexes. cbn [m_pTokenIndexDB].
  fold publish.
  set (cleared := foldl (λ index it, IndexDB.RemoveFileTokens (wxAtoi it) index)
                        (m_pTokenIndexDB db) _).
  split.
  - assert (m_FileDB cleared = m_FileDB (m_pTokenIndexDB db)) as <-.
    { unfold cleared. generalize (m_pTokenIndexDB db).
      induction (ascending_keys _) as [|k ks IH]; intros index; [done|].
      simpl. by rewrite IH. }
    generalize cleared.
    induction (TreeMap.m_Data (m_pTokens db)) as [|t ts IH]; intros index;
      [done|].
    simpl. rewrite IH. apply UpdateToken_keeps_filenames.
  - intros id token [_ Hv]%GetValue_Some.
    apply list_elem_of_lookup_2, list_elem_of_split in Hv as (l1 & l2 & ->).
    rewrite foldl_app. simpl. apply indexed_publish_all.
    apply indexed_UpdateToken_new.
Qed.
End Publish.

Module PublishExample.
Definition main_token : ClAbstractToken :=
  AbstractToken.mk 2 1 (mkRange (mkPosition 4 1) (mkPosition 4 9))
                   "main" "main" "c:@F@main#" 77 [] ("", "").
Definition database : ClTokenDatabase :=
  (TokenDB.InsertToken main_token TokenDB.empty).1.
End PublishExample.

Lemma StoreIndexes_publishes_every_slot_witness :
  TreeMap.GetValue 0 (m_pTokens PublishExample.database)
  = Some PublishExample.main_token
  ∧ indexed (m_pTokenIndexDB
               (TokenQueries.StoreIndexes (λ _, 1) PublishExample.database))
            "main" "c:@F@main#"
            (mkLocation 2 1 (mkRange (mkPosition 4 1) (mkPosition 4 9))).
Proof.
  split; [vm_compute; reflexivity|].
  pose proof (StoreIndexes_publishes_every_slot (λ _, 1) PublishExample.database)
    as (_ & _ & _ & H).
  apply (H 0 PublishExample.main_token). vm_compute; reflexivity.
Defined.

(** X13: [AddToken] stores nothing under the empty identifier.  Under any
    other identifier it takes a new slot for the token, whether or not a
    token with that USR is already there, files the slot under the
    identifier it is given and under the file of every location of the
    token, keeps every association the file index had, and sets the
    modified flag. *)
Theorem AddToken_takes_a_new_slot (ident : wxString) (token : ClIndexToken)
    (db : ClTokenIndexDatabase) :
  let db' := IndexDB.AddToken ident token db in
  let id := TreeMap.GetCount (m_pIndexTokenMap db) in
  (ident = "" → db' = db)
  ∧ (ident ≠ "" →
     TreeMap.GetCount (m_pIndexTokenMap db') = id + 1
     ∧ TreeMap.GetValue id (m_pIndexTokenMap db') = Some token
     ∧ id ∈ TreeMap.GetIdSet ident (m_pIndexTokenMap db')
     ∧ (∀ j, j ≠ id →
             TreeMap.GetValue j (m_pIndexTokenMap db')
             = TreeMap.GetValue j (m_pIndexTokenMap db))
     ∧ (∀ loc, loc ∈ locationList token →
               id ∈ TreeMapInt.GetIdSet (Format_d (fileId loc)) (m_pFileTokens db'))
     ∧ m_pFileTokens db ⊆ m_pFileTokens db'
     ∧ m_bModified db' = true).
Proof.
  intros db' id. split.
  - intros ->. done.
  - intros Hne. unfold db', IndexDB.AddToken.
    assert (Nat.ltb 0 (String.length ident) = true) as ->.
    { destruct ident; [done|]. apply Nat.ltb_lt. simpl. lia. }
    destruct (TreeMap.Insert ident token (m_pIndexTokenMap db)) as [map id'] eqn:Hins.
    assert (Hmap : map = (TreeMap.Insert ident token (m_pIndexTokenMap db)).1)
      by (by rewrite Hins).
    assert (Hid : id' = id).
    { unfold id. rewrite <- (Insert_id (m_pIndexTokenMap db) ident token).
      by rewrite Hins. }
    cbn [m_pIndexTokenMap m_pFileTokens m_bModified]. subst id'.
    assert (∀ locs ft p,
              p ∈ foldl (λ ft it,
                           TreeMapInt.Insert (Format_d (fileId it)) id
                             (TreeMapInt.Remove (Format_d (fileId it)) id ft))
                        ft locs
              ↔ p ∈ ft ∨ ∃ loc, loc ∈ locs ∧ p = (Format_d (fileId loc), id))
      as Hfold.
    { induction locs as [|loc locs IH]; intros ft p; simpl.
      - split; [by left|]. intros [?|(loc & Hl & _)]; [done|].
        by apply elem_of_nil in Hl.
      - rewrite IH. unfold TreeMapInt.Insert, TreeMapInt.Remove. split.
        + intros [Hp|(l & Hl & ->)].
          * apply elem_of_union in Hp as [Hp|Hp].
            -- apply elem_of_singleton in Hp. right. exists loc.
               split; [apply list_elem_of_here|done].
            -- left. set_solver.
          * right. exists l. split; [by apply list_elem_of_further|done].
        + intros [Hp|(l & Hl & ->)].
          * left. destruct (decide (p = (Format_d (fileId loc), id))); set_solver.
          * apply elem_of_cons in Hl as [->|Hl]; [left; set_solver|].
            right. by exists l. }
    split.
    { rewrite Hmap. unfold TreeMap.GetCount, TreeMap.Insert, id. simpl.
      rewrite length_app. simpl. unfold TreeMap.GetCount. lia. }
    split.
    { rewrite Hmap, GetValue_Insert. by rewrite decide_True. }
    split.
    { rewrite Hmap. apply GetIdSet_Insert. by left. }
    split.
    { intros j Hj. rewrite Hmap, GetValue_Insert. by rewrite decide_False. }
    split.
    { intros loc Hloc. apply elem_of_GetIdSet, Hfold. right. by exists loc. }
    split; [|done].
    intros p Hp. apply Hfold. by left.
Qed.

Lemma AddToken_takes_a_new_slot_witness :
  IndexDB.AddToken "" ClIndexToken_default IndexDB.empty = IndexDB.empty
  ∧ TreeMap.GetCount
      (m_pIndexTokenMap
         (IndexDB.AddToken "f" ClIndexToken_default
            (IndexDB.AddToken "f" ClIndexToken_default IndexDB.empty))) = 2.
Proof.
  pose proof (AddToken_takes_a_new_slot "" ClIndexToken_default IndexDB.empty)
    as [Hempty _].
  pose proof (AddToken_takes_a_new_slot "f" ClIndexToken_default
                (IndexDB.AddToken "f" ClIndexToken_default IndexDB.empty))
    as [_ Hnew].
  split; [by apply Hempty|].
  destruct Hnew as [Hcount _]; [done|]. rewrite Hcount. vm_compute; reflexivity.
Defined.

(** *** [RemoveFileTokens] *)

Lemma erase_keeps_other_files fId l loc :
  loc ∈ l → fileId loc ≠ fId → loc ∈ IndexDB.erase_file_locations fId l.
Proof.
  revert loc. induction l as [l IH] using (induction_ltof1 _ length).
  unfold ltof in IH. intros loc Hin Hne.
  destruct l as [|a rest]; [done|]. simpl.
  destruct (Z.eqb_spec (fileId a) fId) as [Ha|Ha].
  - apply elem_of_cons in Hin as [->|Hin]; [done|].
    destruct rest as [|b rest']; [done|].
    apply elem_of_cons in Hin as [->|Hin]; [apply list_elem_of_here|].
    apply list_elem_of_further, IH; [simpl; lia|done..].
  - apply elem_of_cons in Hin as [->|Hin]; [apply list_elem_of_here|].
    apply list_elem_of_further, IH; [simpl; lia|done..].
Qed.

Lemma erase_sublist fId l : IndexDB.erase_file_locations fId l `sublist_of` l.
Proof.
  induction l as [l IH] using (induction_ltof1 _ length). unfold ltof in IH.
  destruct l as [|a rest]; [done|]. simpl.
  destruct (Z.eqb_spec (fileId a) fId) as [Ha|Ha].
  - destruct rest as [|b rest']; [apply sublist_nil_l|].
    apply sublist_cons, sublist_skip, IH. simpl. lia.
  - apply sublist_skip, IH. simpl. lia.
Qed.

(** No two neighbours of the list belong to the file. *)
Fixpoint apart (fId : ClFileId) (l : list ClIndexTokenLocation) : Prop :=
  match l with
  | [] => True
  | a :: rest =>
      match rest with
      | [] => True
      | b :: _ => ¬ (fileId a = fId ∧ fileId b = fId)
      end ∧ apart fId rest
  end.

Lemma erase_apart fId l :
  apart fId l →
  IndexDB.erase_file_locations fId l = filter (λ loc, fileId loc ≠ fId) l.
Proof.
  induction l as [l IH] using (induction_ltof1 _ length). unfold ltof in IH.
  destruct l as [|a rest]; [done|]. intros [Hab Hrest]. simpl.
  rewrite filter_cons.
  destruct (Z.eqb_spec (fileId a) fId) as [Ha|Ha].
  - rewrite decide_False by (intros ?; done).
    destruct rest as [|b rest']; [done|].
    destruct Hrest as [_ Hrest'].
    rewrite filter_cons, decide_True by (intros ?; apply Hab; done).
    f_equal. apply IH; [simpl; lia|done].
  - rewrite decide_True by done. f_equal. apply IH; [simpl; lia|done].
Qed.

Definition erase_step (fId : ClFileId) (m : TreeMap.t ClIndexToken) (it : Z)
    : TreeMap.t ClIndexToken :=
  if negb (TreeMap.HasValue it m) then m
  else match TreeMap.GetValue (TreeMapInt.GetValue it) m with
       | Some tok =>
           TreeMap.SetValue (TreeMapInt.GetValue it)
             (set_locationList
                (IndexDB.erase_file_locations fId (locationList tok)) tok) m
       | None => m
       end.

Lemma erase_step_value fId m it id :
  TreeMap.GetValue id (erase_step fId m it)
  = if decide (id = it)
    then (λ tok, set_locationList
                   (IndexDB.erase_file_locations fId (locationList tok)) tok)
         <$> TreeMap.GetValue id m
    else TreeMap.GetValue id m.
Proof.
  unfold erase_step, TreeMapInt.GetValue.
  destruct (TreeMap.GetValue it m) as [tok|] eqn:Hv.
  - rewrite (HasValue_of_GetValue _ _ _ Hv). simpl.
    rewrite (GetValue_SetValue _ _ _ _ _ Hv).
    destruct (decide (id = it)) as [->|]; [by rewrite Hv|done].
  - destruct (negb _); destruct (decide (id = it)) as [->|]; by rewrite ?Hv.
Qed.

Lemma erase_step_ids fId m it k :
  TreeMap.GetIdSet k (erase_step fId m it) = TreeMap.GetIdSet k m.
Proof.
  unfold erase_step. destruct (negb _); [done|].
  destruct (TreeMap.GetValue _ m); [apply GetIdSet_SetValue|done].
Qed.

Lemma erase_fold_value fId l m id :
  NoDup l →
  TreeMap.GetValue id (foldl (erase_step fId) m l)
  = if bool_decide (id ∈ l)
    then (λ tok, set_locationList
                   (IndexDB.erase_file_locations fId (locationList tok)) tok)
         <$> TreeMap.GetValue id m
    else TreeMap.GetValue id m.
Proof.
  intros Hnd. revert m. induction Hnd as [|it l Hit Hnd IH]; intros m; [done|].
  simpl. rewrite IH, erase_step_value.
  destruct (decide (id = it)) as [->|Hne].
  - rewrite (bool_decide_eq_false_2 (it ∈ l)) by done.
    rewrite bool_decide_eq_true_2 by apply list_elem_of_here. done.
  - destruct (bool_decide (id ∈ l)) eqn:E.
    + apply bool_decide_eq_true in E.
      rewrite bool_decide_eq_true_2 by (by apply list_elem_of_further). done.
    + apply bool_decide_eq_false in E.
      rewrite bool_decide_eq_false_2; [done|].
      intros [?|?]%elem_of_cons; done.
Qed.

(** X14: what [RemoveFileTokens] does to the index.  Only the tokens filed
    under the file are touched, and of those only the location list: it
    goes through the erase loop, which drops no location of another file
    and, when no two neighbours of the list belong to the file, drops every
    location of the file.  No token leaves the index, whatever is left of
    its locations, and its mask stays; the associations of other files,
    the filename table and the modified flag are as before. *)
Theorem RemoveFileTokens_touches_one_file (fId : ClFileId)
    (db : ClTokenIndexDatabase) :
  let db' := IndexDB.RemoveFileTokens fId db in
  let erased tok :=
    set_locationList (IndexDB.erase_file_locations fId (locationList tok)) tok in
  (∀ id, TreeMap.GetValue id (m_pIndexTokenMap db')
         = if bool_decide (id ∈ TreeMapInt.GetIdSet (Format_d fId) (m_pFileTokens db))
           then erased <$> TreeMap.GetValue id (m_pIndexTokenMap db)
           else TreeMap.GetValue id (m_pIndexTokenMap db))
  ∧ (∀ k, TreeMap.GetIdSet k (m_pIndexTokenMap db')
          = TreeMap.GetIdSet k (m_pIndexTokenMap db))
  ∧ TreeMapInt.GetIdSet (Format_d fId) (m_pFileTokens db') = ∅
  ∧ (∀ g, g ≠ fId →
          TreeMapInt.GetIdSet (Format_d g) (m_pFileTokens db')
          = TreeMapInt.GetIdSet (Format_d g) (m_pFileTokens db))
  ∧ m_FileDB db' = m_FileDB db ∧ m_bModified db' = m_bModified db
  ∧ (∀ tok,
       tokenTypeMask (erased tok) = tokenTypeMask tok
       ∧ locationList (erased tok) `sublist_of` locationList tok
       ∧ (∀ loc, loc ∈ locationList tok → fileId loc ≠ fId →
                 loc ∈ locationList (erased tok))
       ∧ (apart fId (locationList tok) →
          locationList (erased tok)
          = filter (λ loc, fileId loc ≠ fId) (locationList tok))).
Proof.
  intros db' erased. unfold db', IndexDB.RemoveFileTokens.
  cbn [m_pIndexTokenMap m_pFileTokens m_FileDB m_bModified].
  fold (erase_step fId).
  split.
  { intros id. rewrite erase_fold_value by apply NoDup_ascending.
    destruct (bool_decide (id ∈ ascending _)) eqn:E.
    - apply bool_decide_eq_true in E. apply elem_of_ascending in E.
      by rewrite bool_decide_eq_true_2.
    - apply bool_decide_eq_false in E. rewrite elem_of_ascending in E.
      by rewrite bool_decide_eq_false_2. }
  split.
  { intros k. generalize (m_pIndexTokenMap db).
    induction (ascending _) as [|it l IH]; intros m; [done|].
    simpl. by rewrite IH, erase_step_ids. }
  split.
  { apply set_eq. intros j. rewrite elem_of_GetIdSet.
    unfold TreeMapInt.RemoveKey. rewrite elem_of_filter. set_solver. }
  split.
  { intros g Hg. apply set_eq. intros j. rewrite !elem_of_GetIdSet.
    unfold TreeMapInt.RemoveKey. rewrite elem_of_filter. simpl.
    split; [by intros [_ ?]|]. intros Hj. split; [|done].
    intros Heq. by apply Format_d_inj in Heq. }
  split; [done|]. split; [done|].
  intros tok. split; [done|]. split; [apply erase_sublist|].
  split; [intros loc; apply erase_keeps_other_files|apply erase_apart].
Qed.

(** *** [LookupTokenDisplayName] *)

(** The token [LookupTokenDisplayName] settles on. *)
Definition named (ident usr : wxString) (db : ClTokenIndexDatabase)
  : option (Z * ClIndexToken) :=
  List.find (λ it, bool_decide (usr = "") || bool_decide (usr = USR it.2))
            (IndexDB.bucket ident (m_pIndexTokenMap db)).

Lemma LookupTokenDisplayName_unfold depth ident usr db :
  IndexQueries.LookupTokenDisplayName (S depth) ident usr db
  = match named ident usr db with
    | None => Some None
    | Some it =>
        match IndexQueries.LookupTokenDisplayName depth (scope it.2).1
                                                  (scope it.2).2 db with
        | None => None
        | Some (Some parentScopeDisplayName) =>
            Some (Some (parentScopeDisplayName +:+ "::" +:+ displayName it.2))
        | Some None => Some (Some (displayName it.2))
        end
    end.
Proof. done. Qed.

Lemma LookupTokenDisplayName_more depth ident usr db r :
  IndexQueries.LookupTokenDisplayName depth ident usr db = Some r →
  IndexQueries.LookupTokenDisplayName (S depth) ident usr db = Some r.
Proof.
  revert ident usr r. induction depth as [|depth IH]; intros ident usr r; [done|].
  rewrite (LookupTokenDisplayName_unfold (S depth)), LookupTokenDisplayName_unfold.
  destruct (named ident usr db) as [it|]; [|done].
  destruct (IndexQueries.LookupTokenDisplayName depth _ _ db) as [r'|] eqn:E;
    [|done].
  by rewrite (IH _ _ _ E).
Qed.

(** X15: [LookupTokenDisplayName] answers by calling itself on the scope of
    the token it finds, and nothing bounds the chain of calls.  It answers
    [false] for a name that is not there and the display name alone for a
    token whose scope is not there; an answer, once reached, does not
    depend on the depth allowed.  For a token whose scope names the token
    itself no depth is enough: the call does not return. *)
Theorem LookupTokenDisplayName_follows_scopes (ident usr : wxString)
    (db : ClTokenIndexDatabase) :
  (∀ depth r,
     IndexQueries.LookupTokenDisplayName depth ident usr db = Some r →
     IndexQueries.LookupTokenDisplayName (S depth) ident usr db = Some r)
  ∧ (named ident usr db = None →
     ∀ depth, IndexQueries.LookupTokenDisplayName (S depth) ident usr db
              = Some None)
  ∧ (∀ it, named ident usr db = Some it →
           named (scope it.2).1 (scope it.2).2 db = None →
           ∀ depth, IndexQueries.LookupTokenDisplayName (S (S depth)) ident usr db
                    = Some (Some (displayName it.2)))
  ∧ (∀ it, named ident usr db = Some it → scope it.2 = (ident, usr) →
           ∀ depth, IndexQueries.LookupTokenDisplayName depth ident usr db = None).
Proof.
  split; [intros depth r; apply LookupTokenDisplayName_more|].
  split.
  { intros Hn depth. by rewrite LookupTokenDisplayName_unfold, Hn. }
  split.
  { intros it Hit Hscope depth.
    rewrite LookupTokenDisplayName_unfold, Hit.
    by rewrite LookupTokenDisplayName_unfold, Hscope. }
  intros it Hit Hself depth. induction depth as [|depth IH]; [done|].
  rewrite LookupTokenDisplayName_unfold, Hit, Hself. simpl. by rewrite IH.
Qed.

Module ScopeExample.
Definition r : ClTokenRange := mkRange (mkPosition 1 11) (mkPosition 1 12).
(** A namespace entered with itself as its scope. *)
Definition index : ClTokenIndexDatabase :=
  IndexDB.UpdateToken "N" "N" 1 "c:@N@N" 1 r [] ("N", "c:@N@N") IndexDB.empty.
End ScopeExample.

Lemma LookupTokenDisplayName_follows_scopes_witness :
  ∃ it, named "N" "c:@N@N" ScopeExample.index = Some it
        ∧ scope it.2 = ("N"%string, "c:@N@N"%string)
        ∧ ∀ depth, IndexQueries.LookupTokenDisplayName depth "N" "c:@N@N"
                     ScopeExample.index = None.
Proof.
  eexists. split; [vm_compute; reflexivity|]. split; [reflexivity|].
  pose proof (LookupTokenDisplayName_follows_scopes "N" "c:@N@N" ScopeExample.index)
    as (_ & _ & _ & H).
  eapply H; [vm_compute; reflexivity|reflexivity].
Defined.

(** *** [LookupTokenOverrides] *)

Lemma LookupTokenOverrides_fold (ident usr : string) (typeMask : Z)
    (l : list (Z * ClIndexToken)) (acc : gset (Z * string)) (p : Z * string) :
  p ∈ foldl (λ (retList : gset (Z * string)) (it : Z * ClIndexToken),
               let token := it.2 in
               if IndexDB.has_type (tokenTypeMask token) typeMask
               then if bool_decide ((ident, usr) ∈ parentTokenList token)
                    then foldl (λ r it2, {[ (fileId it2, USR token) ]} ∪ r)
                               retList (locationList token)
                    else retList
               else retList) acc l
  ↔ p ∈ acc ∨ ∃ it loc, it ∈ l
        ∧ IndexDB.has_type (tokenTypeMask it.2) typeMask = true
        ∧ (ident, usr) ∈ parentTokenList it.2
        ∧ loc ∈ locationList it.2 ∧ p = (fileId loc, USR it.2).
Proof.
  revert acc. induction l as [|it l IH]; intros acc; simpl.
  - split; [by left|]. intros [?|(it & loc & Hin & _)]; [done|].
    by apply elem_of_nil in Hin.
  - rewrite IH. clear IH.
    assert (∀ (u : string) locs (r : gset (Z * string)),
              p ∈ foldl (λ r it2, {[ (fileId it2, u) ]} ∪ r) r locs
              ↔ p ∈ r ∨ ∃ loc, loc ∈ locs ∧ p = (fileId loc, u)) as Hin.
    { intros u locs. induction locs as [|loc locs IHl]; intros r; simpl.
      - split; [by left|]. intros [?|(loc & Hl & _)]; [done|].
        by apply elem_of_nil in Hl.
      - rewrite IHl. split.
        + intros [[Hp|Hp]%elem_of_union|(l' & Hl & ->)].
          * apply elem_of_singleton in Hp. right. exists loc.
            split; [apply list_elem_of_here|done].
          * by left.
          * right. exists l'. split; [by apply list_elem_of_further|done].
        + intros [Hp|(l' & [->|Hl]%elem_of_cons & ->)].
          * left. set_solver.
          * left. set_solver.
          * right. by exists l'. }
    destruct (IndexDB.has_type (tokenTypeMask it.2) typeMask) eqn:Ht;
      [destruct (bool_decide ((ident, usr) ∈ parentTokenList it.2)) eqn:Hp|].
    + apply bool_decide_eq_true in Hp. rewrite Hin. split.
      * intros [[?|(loc & Hl & ->)]|(it' & loc & Hi & ?)].
        -- by left.
        -- right. exists it, loc. split; [apply list_elem_of_here|done].
        -- right. exists it', loc. split; [by apply list_elem_of_further|done].
      * intros [?|(it' & loc & [->|Hi]%elem_of_cons & H1 & H2 & H3 & H4)].
        -- left. by left.
        -- left. right. by exists loc.
        -- right. by exists it', loc.
    + apply bool_decide_eq_false in Hp. split.
      * intros [?|(it' & loc & Hi & ?)]; [by left|].
        right. exists it', loc. split; [by apply list_elem_of_further|done].
      * intros [?|(it' & loc & [->|Hi]%elem_of_cons & H1 & H2 & H3 & H4)].
        -- by left.
        -- done.
        -- right. by exists it', loc.
    + split.
      * intros [?|(it' & loc & Hi & ?)]; [by left|].
        right. exists it', loc. split; [by apply list_elem_of_further|done].
      * intros [?|(it' & loc & [->|Hi]%elem_of_cons & H1 & H2 & H3 & H4)].
        -- by left.
        -- congruence.
        -- right. by exists it', loc.
Qed.

(** X16: [LookupTokenOverrides] lists, with its USR, every file in which a
    token of the same identifier is located that names the pair
    (identifier, USR) of the query among its parents and carries every bit
    of the type mask, and nothing else.  The USR of the query is compared
    as it is: here the empty USR is no wildcard. *)
Theorem LookupTokenOverrides_lists_overriding_tokens (ident usr : wxString)
    (typeMask : ClTokenType) (db : ClTokenIndexDatabase) (f : ClFileId)
    (u : wxString) :
  (f, u) ∈ IndexQueries.LookupTokenOverrides ident usr typeMask db ↔
  ∃ id tok loc,
    id ∈ TreeMap.GetIdSet ident (m_pIndexTokenMap db)
    ∧ TreeMap.GetValue id (m_pIndexTokenMap db) = Some tok
    ∧ Z.land (tokenTypeMask tok) typeMask = typeMask
    ∧ (ident, usr) ∈ parentTokenList tok
    ∧ loc ∈ locationList tok ∧ fileId loc = f ∧ USR tok = u.
Proof.
  unfold IndexQueries.LookupTokenOverrides. rewrite LookupTokenOverrides_fold.
  split.
  - intros [Hin|([id tok] & loc & Hb & Ht & Hp & Hl & Heq)]; [set_solver|].
    apply elem_of_bucket in Hb as [Hid Hv]. apply has_type_spec in Ht.
    simpl in *. injection Heq as -> ->. by exists id, tok, loc.
  - intros (id & tok & loc & Hid & Hv & Ht & Hp & Hl & <- & <-).
    right. exists (id, tok), loc. split; [by apply elem_of_bucket|].
    split; [by apply has_type_spec|]. done.
Qed.

(** *** [ClTokenIndexDatabase::ReadIn] on streams that were not written by
    [WriteOut] *)


Section Header.
Variables CINDEX_VERSION_MAJOR CINDEX_VERSION_MINOR : Z.
Variable tag : list Z.
Hypothesis tag_length : length tag = 4%nat.
Hypothesis major_fits : fits_int CINDEX_VERSION_MAJOR.
Hypothesis minor_fits : fits_int CINDEX_VERSION_MINOR.


Let ReadIn := IndexDB.ReadIn CINDEX_VERSION_MAJOR CINDEX_VERSION_MINOR.


End Header.


(** ** [ExpandDiagnostic] and [ExpandDiagnosticSet] *)

Section ExpandFacts.
Import ExpandDiagnostics.

(** The native diagnostics that make it into the list for [fname]. *)
Definition reported (fname : wxString) (n : CXDiagnostic) : Prop :=
  location_is_null n = false
  ∧ clang_getDiagnosticSeverity n ≠ CXDiagnostic_Ignored
  ∧ clang_getDiagnosticSeverity n ≠ CXDiagnostic_Note
  ∧ spelling_file n = fname.

#[local] Instance reported_dec fname n : Decision (reported fname n).
Proof. unfold reported. apply _. Defined.

Definition wide (r : Z * Z) : bool := negb (Z.eqb r.1 r.2).

(** What the list holds for the native diagnostic [n]. *)
Definition renders (n : CXDiagnostic) (d : ClDiagnostic) : Prop :=
  Diagnostic.file d = spelling_file n
  ∧ Diagnostic.line d = spelling_line n
  ∧ (Diagnostic.range d).1 ≤ spelling_column n ≤ (Diagnostic.range d).2
  ∧ Diagnostic.severity d
    = match clang_getDiagnosticSeverity n with
      | CXDiagnostic_Error | CXDiagnostic_Fatal => sError
      | _ => sWarning
      end
  ∧ Diagnostic.text <$> Diagnostic.fixitList d = (fixits n).*1
  ∧ Diagnostic.fixit_range <$> Diagnostic.fixitList d = (fixits n).*2
  ∧ (∀ r, List.find wide (ranges n) = Some r → r.2 ≠ 0 →
          r.1 ≤ spelling_column n ≤ r.2 → Diagnostic.range d = r)
  ∧ (List.find wide (ranges n) = None →
     ∀ r, List.find wide (snd <$> fixits n) = Some r → r.2 ≠ 0 →
          r.1 ≤ spelling_column n ≤ r.2 → Diagnostic.range d = r).

Lemma scan_ranges_find rg l :
  scan_ranges rg l = match List.find wide l with
                     | Some r => r
                     | None => default rg (last l)
                     end.
Proof.
  revert rg. induction l as [|r l IH]; intros rg; [done|]. simpl.
  unfold wide at 1. destruct (negb (r.1 =? r.2)); [done|].
  rewrite IH. destruct (List.find wide l); [done|].
  destruct l as [|a l']; [done|]. rewrite last_cons_cons.
  destruct (last (a :: l')) eqn:E; [done|]. by apply last_None in E.
Qed.

Lemma find_wide_None l :
  List.find wide l = None → ∀ r, last l = Some r → r.1 = r.2.
Proof.
  intros Hn r Hl. rewrite find_None_inv in Hn.
  assert (r ∈ l) as Hin.
  { apply last_Some in Hl as [l' ->]. set_solver. }
  apply Hn in Hin. unfold wide in Hin. apply negb_false_iff in Hin. lia.
Qed.

Lemma ExpandDiagnostic_cases diag fname diags :
  (ExpandDiagnostic diag fname diags = diags
   ∧ ∀ n, diag = Some n → ¬ reported fname n)
  ∨ ∃ n d, diag = Some n ∧ reported fname n ∧ renders n d
           ∧ ExpandDiagnostic diag fname diags = diags ++ [d].
Proof.
  destruct diag as [n|]; [|left; split; [done|intros ? [=]]].
  unfold ExpandDiagnostic.
  destruct (location_is_null n) eqn:Hloc.
  { left. split; [done|]. intros ? [= <-] (Hl & _). congruence. }
  destruct (decide (spelling_file n = fname)) as [Hf|Hf]; cycle 1.
  { left. rewrite bool_decide_eq_false_2 by done.
    split; [by destruct (clang_getDiagnosticSeverity n)|].
    intros ? [= <-] (_ & _ & _ & ?). done. }
  rewrite bool_decide_eq_true_2 by done.
  destruct (decide (clang_getDiagnosticSeverity n = CXDiagnostic_Ignored
                    ∨ clang_getDiagnosticSeverity n = CXDiagnostic_Note))
    as [Hsev|Hsev].
  { left. split; [by destruct Hsev as [-> | ->]|].
    intros ? [= <-] (_ & ? & ? & _). by destruct Hsev. }
  right.
  match goal with |- context [diags ++ [?D]] => exists n, D end.
  split; [done|]. split.
  { split; [done|]. split; [tauto|]. split; [tauto|done]. }
  split; cycle 1.
  { destruct (clang_getDiagnosticSeverity n); try reflexivity;
      exfalso; apply Hsev; auto. }
  unfold renders. cbn [Diagnostic.file Diagnostic.line Diagnostic.range
                       Diagnostic.severity Diagnostic.fixitList].
  split; [done|]. split; [done|].
  set (rg1 := scan_ranges (0, 0) (ranges n)).
  set (rg2 := if rg1.1 =? rg1.2 then scan_ranges rg1 (snd <$> fixits n) else rg1).
  set (rg3 := if rg2.2 =? 0 then cursor_extent n else rg2).
  set (col := spelling_column n).
  split.
  { destruct (Z.ltb_spec rg3.2 col); simpl; [lia|].
    destruct (Z.ltb_spec col rg3.1); simpl; lia. }
  split.
  { destruct (clang_getDiagnosticSeverity n); try done;
      exfalso; apply Hsev; auto. }
  split.
  { rewrite <- list_fmap_compose. done. }
  split.
  { rewrite <- list_fmap_compose. done. }
  split.
  - intros r Hr Hr2 Hcol.
    assert (rg1 = r) as E1 by (unfold rg1; by rewrite scan_ranges_find, Hr).
    assert (wide r = true) as Hw by (by apply find_Some_inv in Hr as [? _]).
    unfold wide in Hw. apply negb_true_iff in Hw.
    assert (rg2 = r) as E2 by (unfold rg2; by rewrite E1, Hw).
    assert (rg3 = r) as E3.
    { unfold rg3. rewrite E2. by destruct (Z.eqb_spec r.2 0). }
    rewrite E3.
    destruct (Z.ltb_spec r.2 col); [lia|].
    destruct (Z.ltb_spec col r.1); [lia|]. done.
  - intros Hnone r Hr Hr2 Hcol.
    assert (rg1.1 = rg1.2) as E1.
    { unfold rg1. rewrite scan_ranges_find, Hnone.
      destruct (last (ranges n)) as [r'|] eqn:Hl; [|done].
      by apply (find_wide_None _ Hnone). }
    assert (wide r = true) as Hw by (by apply find_Some_inv in Hr as [? _]).
    unfold wide in Hw. apply negb_true_iff in Hw.
    assert (rg2 = r) as E2.
    { unfold rg2. rewrite E1, Z.eqb_refl. by rewrite scan_ranges_find, Hr. }
    assert (rg3 = r) as E3.
    { unfold rg3. rewrite E2. by destruct (Z.eqb_spec r.2 0). }
    rewrite E3.
    destruct (Z.ltb_spec r.2 col); [lia|].
    destruct (Z.ltb_spec col r.1); [lia|]. done.
Qed.

Lemma ExpandDiagnostic_app diag fname a b :
  ExpandDiagnostic diag fname (a ++ b) = a ++ ExpandDiagnostic diag fname b.
Proof.
  unfold ExpandDiagnostic. destruct diag as [n|]; [|done].
  destruct (location_is_null n); [done|].
  destruct (bool_decide (spelling_file n = fname));
    destruct (clang_getDiagnosticSeverity n); try done;
    by rewrite app_assoc.
Qed.

Lemma ExpandDiagnosticSet_app diagSet fname a b :
  ExpandDiagnosticSet diagSet fname (a ++ b)
  = a ++ ExpandDiagnosticSet diagSet fname b.
Proof.
  unfold ExpandDiagnosticSet. revert b.
  induction diagSet as [|diag diagSet IH]; intros b; [done|].
  simpl. by rewrite ExpandDiagnostic_app, IH.
Qed.

(** X18: [ExpandDiagnosticSet] appends to the list it is given, in the
    order of the set, one entry for each diagnostic of the set that has a
    location, is neither ignored nor a note, and lies in the file asked
    for, and nothing for the others; what it appends does not depend on
    what the list held.  The entry carries the line, the file
    and the fix-its of the diagnostic; its severity is error for errors
    and fatal errors and warning otherwise, never note; its column range
    always contains the column of the diagnostic, and it is the first
    range of the diagnostic whose ends differ (failing that, the first
    such fix-it range) when that range contains the column. *)
Theorem ExpandDiagnosticSet_appends_reported (diagSet : list (option CXDiagnostic))
    (fname : wxString) (diagnostics : list ClDiagnostic) :
  ∃ found,
    ExpandDiagnosticSet diagSet fname diagnostics = diagnostics ++ found
    ∧ ExpandDiagnosticSet diagSet fname [] = found
    ∧ Forall2 renders
        (filter (λ n, reported fname n) (omap id diagSet)) found
    ∧ Forall (λ d, Diagnostic.file d = fname
                   ∧ Diagnostic.severity d ≠ sNote
                   ∧ (Diagnostic.range d).1 ≤ (Diagnostic.range d).2) found.
Proof.
  exists (ExpandDiagnosticSet diagSet fname []).
  split.
  { rewrite <- (app_nil_r diagnostics) at 1. apply ExpandDiagnosticSet_app. }
  split; [done|].
  assert (∃ found,
            ExpandDiagnosticSet diagSet fname [] = [] ++ found
            ∧ Forall2 renders
                (filter (λ n, reported fname n) (omap id diagSet)) found
            ∧ Forall (λ d, Diagnostic.file d = fname
                           ∧ Diagnostic.severity d ≠ sNote
                           ∧ (Diagnostic.range d).1 ≤ (Diagnostic.range d).2)
                     found) as (found & -> & H); [|done].
  generalize (@nil ClDiagnostic). intros diagnostics'.
  clear diagnostics. rename diagnostics' into diagnostics.
  unfold ExpandDiagnosticSet. revert diagnostics.
  induction diagSet as [|diag diagSet IH]; intros diagnostics.
  { exists []. simpl. rewrite app_nil_r. split; [done|].
    split; [apply Forall2_nil_2|apply List.Forall_nil]. }
  simpl.
  destruct (ExpandDiagnostic_cases diag fname diagnostics)
    as [[E Hno]|(n & d & -> & Hrep & Hren & E)].
  - rewrite E. destruct (IH diagnostics) as (found & Hf & Hall & Hgood).
    exists found. split; [done|]. split; [|done].
    destruct diag as [n|]; simpl; [|done].
    rewrite filter_cons, decide_False; [done|]. by apply Hno.
  - rewrite E. destruct (IH (diagnostics ++ [d])) as (found & Hf & Hall & Hgood).
    exists (d :: found). split; [by rewrite Hf, <- app_assoc|]. split.
    + simpl. rewrite filter_cons, decide_True by done.
      by apply List.Forall2_cons.
    + apply List.Forall_cons; [|done].
      destruct Hren as (Hfile & _ & Hcol & Hsev & _).
      destruct Hrep as (_ & _ & _ & Hfname).
      split; [congruence|]. split; [|lia].
      rewrite Hsev. by destruct (clang_getDiagnosticSeverity n).
Qed.
End ExpandFacts.

(** ** [ClAST_Visitor] and the traversal *)

Lemma InsertToken_keeps token db :
  (∀ j, TreeMap.HasValue j (m_pTokens db) = true →
        TreeMap.GetValue j (m_pTokens (TokenDB.InsertToken token db).1)
        = TreeMap.GetValue j (m_pTokens db))
  ∧ m_pTokenIndexDB (TokenDB.InsertToken token db).1 = m_pTokenIndexDB db.
Proof.
  destruct (decide (TokenDB.GetTokenId (AbstractToken.identifier token)
                      (AbstractToken.fileId token) (AbstractToken.tokenType token)
                      (AbstractToken.tokenHash token) db = wxNOT_FOUND)) as [E|E].
  - rewrite (InsertToken_new _ _ E). cbn [fst m_pTokens m_pTokenIndexDB].
    split; [|done]. intros j Hj. rewrite GetValue_Insert.
    apply HasValue_spec in Hj. rewrite decide_False by lia. done.
  - by rewrite (InsertToken_found _ _ E).
Qed.

Lemma GetFilenameId_keeps Normalize fname db :
  let r := TokenQueries.GetFilenameId Normalize fname db in
  m_pTokens r.1 = m_pTokens db
  ∧ m_pFileTokensTU r.1 = m_pFileTokensTU db
  ∧ m_pIndexTokenMap (m_pTokenIndexDB r.1) = m_pIndexTokenMap (m_pTokenIndexDB db)
  ∧ m_pFileTokens (m_pTokenIndexDB r.1) = m_pFileTokens (m_pTokenIndexDB db)
  ∧ (∀ j, TreeMap.HasValue j (m_FileDB (m_pTokenIndexDB db)) = true →
          TreeMap.GetValue j (m_FileDB (m_pTokenIndexDB r.1))
          = TreeMap.GetValue j (m_FileDB (m_pTokenIndexDB db))).
Proof.
  unfold TokenQueries.GetFilenameId, FilenameDB.GetFilenameId.
  destruct (ascending _); cbn; [|done].
  repeat split. intros j Hj.
  change (TreeMap.mk _ _) with
    (TreeMap.Insert (Normalize fname) (mkFilenameEntry (Normalize fname) None)
                    (m_FileDB (m_pTokenIndexDB db))).1.
  rewrite GetValue_Insert. apply HasValue_spec in Hj.
  rewrite decide_False by lia. done.
Qed.

(** No two neighbours of a list of function scopes have the same scope and
    the same function name. *)
Definition no_repeat (l : list ClFunctionScope) : Prop :=
  ∀ (i : nat) a b, l !! i = Some a → l !! S i = Some b →
                   ¬ (scopeName a = scopeName b ∧ functionName a = functionName b).

Lemma no_repeat_snoc l x :
  no_repeat l →
  (∀ back, last l = Some back →
           ¬ (scopeName back = scopeName x ∧ functionName back = functionName x)) →
  no_repeat (l ++ [x]).
Proof.
  intros Hl Hback i a b Ha Hb.
  destruct (decide (S i < length l)%nat) as [Hlt|Hge].
  - rewrite lookup_app_l in Ha, Hb by lia. by apply (Hl i).
  - apply lookup_lt_Some in Hb as Hb'. rewrite length_app in Hb'. simpl in Hb'.
    assert (S i = length l) as Hi by lia.
    rewrite lookup_app_l in Ha by lia.
    rewrite Hi, list_lookup_middle in Hb by done. injection Hb as <-.
    apply Hback. rewrite last_lookup.
    replace (Nat.pred (length l)) with i by lia. done.
Qed.

Module VisitorFacts.
Record extends (ctx ctx' : Visitor.ClangVisitorContext) : Prop := mk_extends {
  scopes_extend :
    ∀ f l, Visitor.functionScopes ctx !! f = Some l →
           ∃ l', Visitor.functionScopes ctx' !! f = Some l' ∧ l `prefix_of` l';
  scopes_tidy :
    (∀ f l, Visitor.functionScopes ctx !! f = Some l → l ≠ [] ∧ no_repeat l) →
    ∀ f l, Visitor.functionScopes ctx' !! f = Some l → l ≠ [] ∧ no_repeat l;
  tokens_kept :
    ∀ j tok, TreeMap.GetValue j (m_pTokens (Visitor.database ctx)) = Some tok →
             TreeMap.GetValue j (m_pTokens (Visitor.database ctx')) = Some tok;
  filenames_kept :
    ∀ j e,
      TreeMap.GetValue j (m_FileDB (m_pTokenIndexDB (Visitor.database ctx)))
      = Some e →
      TreeMap.GetValue j (m_FileDB (m_pTokenIndexDB (Visitor.database ctx')))
      = Some e;
  index_untouched :
    m_pIndexTokenMap (m_pTokenIndexDB (Visitor.database ctx'))
    = m_pIndexTokenMap (m_pTokenIndexDB (Visitor.database ctx))
    ∧ m_pFileTokens (m_pTokenIndexDB (Visitor.database ctx'))
      = m_pFileTokens (m_pTokenIndexDB (Visitor.database ctx)) }.
End VisitorFacts.

Lemma extends_refl ctx : VisitorFacts.extends ctx ctx.
Proof. split; eauto. Qed.

Lemma extends_trans a b c :
  VisitorFacts.extends a b → VisitorFacts.extends b c → VisitorFacts.extends a c.
Proof.
  intros [E1 T1 K1 F1 [I1 J1]] [E2 T2 K2 F2 [I2 J2]]. split.
  - intros f l Hl. destruct (E1 f l Hl) as (l' & Hl' & Hp).
    destruct (E2 f l' Hl') as (l'' & Hl'' & Hp'). exists l''.
    split; [done|]. by trans l'.
  - intros H. by apply T2, T1.
  - intros j tok H. by apply K2, K1.
  - intros j e H. by apply F2, F1.
  - split; congruence.
Qed.

Fixpoint AST_induction (P : Visitor.AST → Prop)
    (step : ∀ cursor children, Forall P children → P (Visitor.Node cursor children))
    (node : Visitor.AST) : P node :=
  match node with
  | Visitor.Node cursor children =>
      step cursor children
           ((fix all (l : list Visitor.AST) : Forall P l :=
               match l with
               | [] => @List.Forall_nil _ P
               | child :: rest =>
                   @List.Forall_cons _ P child rest (AST_induction P step child) (all rest)
               end) children)
  end.

Section VisitorSteps.
Variable char_is_signed : bool.
Variable Normalize : wxString → wxString.
Variables ClTokenType_ScopeDecl ClTokenType_FuncDecl : ClTokenType.
Variables ClTokenType_VarDecl ClTokenType_ParmDecl : ClTokenType.

Let classify :=
  Visitor.classify ClTokenType_ScopeDecl ClTokenType_FuncDecl
                   ClTokenType_VarDecl ClTokenType_ParmDecl.
Let ClAST_Visitor :=
  Visitor.ClAST_Visitor char_is_signed Normalize
    ClTokenType_ScopeDecl ClTokenType_FuncDecl
    ClTokenType_VarDecl ClTokenType_ParmDecl.
Let visit_node :=
  Visitor.visit_node char_is_signed Normalize
    ClTokenType_ScopeDecl ClTokenType_FuncDecl
    ClTokenType_VarDecl ClTokenType_ParmDecl.
Let clang_visitChildren :=
  Visitor.clang_visitChildren char_is_signed Normalize
    ClTokenType_ScopeDecl ClTokenType_FuncDecl
    ClTokenType_VarDecl ClTokenType_ParmDecl.

Lemma classify_never_breaks k typ ret :
  classify k = Some (typ, ret) → ret ≠ CXChildVisit_Break.
Proof. subst classify. destruct k; simpl; intros [= <- <-]; done. Qed.

(** The database after the two calls the visitor makes on it. *)
Lemma recorded_extends ctx fname tok count scopes :
  let db := (TokenDB.InsertToken tok
               (TokenQueries.GetFilenameId Normalize fname
                                           (Visitor.database ctx)).1).1 in
  (∀ f l, Visitor.functionScopes ctx !! f = Some l →
          ∃ l', scopes !! f = Some l' ∧ l `prefix_of` l') →
  ((∀ f l, Visitor.functionScopes ctx !! f = Some l → l ≠ [] ∧ no_repeat l) →
   ∀ f l, scopes !! f = Some l → l ≠ [] ∧ no_repeat l) →
  VisitorFacts.extends ctx (Visitor.mkContext db count scopes).
Proof.
  intros db Hext Htidy.
  destruct (GetFilenameId_keeps Normalize fname (Visitor.database ctx))
    as (Htok & _ & Hmap & Hfiles & Hnames).
  destruct (InsertToken_keeps tok
              (TokenQueries.GetFilenameId Normalize fname
                                          (Visitor.database ctx)).1)
    as [Hslots Hindex].
  split; cbn [Visitor.database Visitor.functionScopes]; [done|done|..].
  - intros j t Hv. unfold db. rewrite Hslots; rewrite Htok; [done|].
    by apply (HasValue_of_GetValue _ _ t).
  - intros j e Hv. unfold db. rewrite Hindex, Hnames; [done|].
    by apply (HasValue_of_GetValue _ _ e).
  - unfold db. rewrite Hindex. by split.
Qed.

Lemma ClAST_Visitor_step cursor ctx :
  (ClAST_Visitor cursor ctx).1 ≠ CXChildVisit_Break
  ∧ VisitorFacts.extends ctx (ClAST_Visitor cursor ctx).2.
Proof.
  subst ClAST_Visitor. unfold Visitor.ClAST_Visitor.
  fold classify.
  destruct (classify (Visitor.kind cursor)) as [[typ ret]|] eqn:Hk;
    [|split; [done|apply extends_refl]].
  apply classify_never_breaks in Hk.
  destruct (Nat.eqb _ 0); [split; [done|apply extends_refl]|].
  destruct (Hash.HashToken _ _ _) as [tokenHash ident].
  destruct (Nat.eqb _ 0); [split; [done|apply extends_refl]|].
  destruct (foldl _ _ _) as [display scopeN].
  destruct (TokenQueries.GetFilenameId Normalize (Visitor.spelling_file cursor)
              (Visitor.database ctx)) as [db fId] eqn:Hdb.
  assert (db = (TokenQueries.GetFilenameId Normalize (Visitor.spelling_file cursor)
                  (Visitor.database ctx)).1) as -> by (by rewrite Hdb).
  destruct (Nat.ltb 0 _);
    [|split; [done|apply recorded_extends; [eauto|done]]].
  set (scopes := default [] (Visitor.functionScopes ctx !! fId)).
  destruct (match last scopes with Some _ => _ | None => false end) eqn:Hdup;
    [split; [done|apply recorded_extends; [eauto|done]]|].
  split; [done|]. apply recorded_extends.
  - intros f l Hl. destruct (decide (f = fId)) as [->|Hne].
    + rewrite lookup_insert_eq. eexists. split; [done|].
      unfold scopes. rewrite Hl. simpl. by apply prefix_app_r.
    + rewrite lookup_insert_ne by done. eauto.
  - intros Htidy f l. destruct (decide (f = fId)) as [->|Hne].
    + rewrite lookup_insert_eq. intros [= <-]. split; [by destruct scopes|].
      apply no_repeat_snoc.
      * unfold scopes. destruct (Visitor.functionScopes ctx !! fId) as [l|] eqn:El.
        -- simpl. by apply (Htidy fId).
        -- simpl. intros i a b Ha. by rewrite lookup_nil in Ha.
      * intros back Hback. rewrite Hback in Hdup.
        destruct back as [backFunction backScope backPos]. simpl.
        intros [-> ->]. by rewrite !bool_decide_eq_true_2 in Hdup.
    + rewrite lookup_insert_ne by done. apply Htidy.
Qed.

Lemma visit_node_unfold cursor children ctx :
  visit_node (Visitor.Node cursor children) ctx
  = match (ClAST_Visitor cursor ctx).1 with
    | CXChildVisit_Break => (true, (ClAST_Visitor cursor ctx).2)
    | CXChildVisit_Continue => (false, (ClAST_Visitor cursor ctx).2)
    | CXChildVisit_Recurse =>
        clang_visitChildren children (ClAST_Visitor cursor ctx).2
    end.
Proof.
  subst visit_node clang_visitChildren ClAST_Visitor. simpl.
  by destruct (Visitor.ClAST_Visitor _ _ _ _ _ _ cursor ctx) as [[| |] ctx'].
Qed.

Lemma clang_visitChildren_all children :
  Forall (λ node, ∀ ctx, (visit_node node ctx).1 = false
                         ∧ VisitorFacts.extends ctx (visit_node node ctx).2)
         children →
  ∀ ctx, (clang_visitChildren children ctx).1 = false
         ∧ VisitorFacts.extends ctx (clang_visitChildren children ctx).2.
Proof.
  induction 1 as [|child rest Hchild _ IH]; intros ctx.
  - split; [done|apply extends_refl].
  - subst clang_visitChildren. simpl. fold visit_node.
    destruct (Hchild ctx) as [Hstop Hext].
    destruct (visit_node child ctx) as [stop ctx']. simpl in Hstop, Hext.
    subst stop. destruct (IH ctx') as [Hstop' Hext']. split; [done|].
    by apply (extends_trans _ ctx').
Qed.

Lemma visit_node_ok node ctx :
  (visit_node node ctx).1 = false
  ∧ VisitorFacts.extends ctx (visit_node node ctx).2.
Proof.
  revert ctx. induction node as [cursor children IH] using AST_induction.
  intros ctx. rewrite visit_node_unfold.
  destruct (ClAST_Visitor_step cursor ctx) as [Hret Hext].
  destruct (ClAST_Visitor cursor ctx).1; [done|done|].
  destruct (clang_visitChildren_all children IH (ClAST_Visitor cursor ctx).2)
    as [Hstop Hext'].
  split; [done|]. by apply (extends_trans _ (ClAST_Visitor cursor ctx).2).
Qed.

(** X19: the traversal [ProcessAllTokens] starts with [ClAST_Visitor] on a
    fresh context is never cut short, since the visitor never answers
    [Break].  In the function scopes it produces, no list is empty and no
    two neighbours of a list have the same scope and function name.  The
    tokens and the file names the database held before are still in their
    slots afterwards, and the tokens of the project index are not
    touched. *)
Theorem traversal_keeps_function_scopes_tidy (children : list Visitor.AST)
    (database : ClTokenDatabase) :
  let r := clang_visitChildren children (Visitor.mkContext database 0 ∅) in
  r.1 = false
  ∧ (∀ f l, Visitor.functionScopes r.2 !! f = Some l → l ≠ [] ∧ no_repeat l)
  ∧ (∀ j tok, TreeMap.GetValue j (m_pTokens database) = Some tok →
              TreeMap.GetValue j (m_pTokens (Visitor.database r.2)) = Some tok)
  ∧ (∀ j e, TreeMap.GetValue j (m_FileDB (m_pTokenIndexDB database)) = Some e →
            TreeMap.GetValue j (m_FileDB (m_pTokenIndexDB (Visitor.database r.2)))
            = Some e)
  ∧ m_pIndexTokenMap (m_pTokenIndexDB (Visitor.database r.2))
    = m_pIndexTokenMap (m_pTokenIndexDB database).
Proof.
  intros r.
  destruct (clang_visitChildren_all children) with
    (ctx := Visitor.mkContext database 0 ∅) as [Hstop [_ Htidy Htok Hnames [Hidx _]]].
  { apply Forall_forall. intros node _ ctx. apply visit_node_ok. }
  split; [done|]. split; [|done].
  apply Htidy. intros f l Hl. cbn [Visitor.functionScopes] in Hl.
  by rewrite lookup_empty in Hl.
Qed.

(** X20: what one call of [ClAST_Visitor] records.  A cursor of a kind the
    visitor does not list, one without a file, and one whose completion
    string has no typed text leave the context as it is.  Any other cursor
    counts as a token, and afterwards the database finds a token for its
    identifier, the id of its file, its type and its hash; fields, enum
    constants and typedefs are recorded with the unknown type. *)
Theorem ClAST_Visitor_records_declarations (cursor : Visitor.CXCursor)
    (ctx : Visitor.ClangVisitorContext) :
  let r := ClAST_Visitor cursor ctx in
  let hashed := Hash.HashToken char_is_signed
                  (Visitor.clang_getCursorCompletionString cursor) "" in
  let fId := (TokenQueries.GetFilenameId Normalize (Visitor.spelling_file cursor)
                                         (Visitor.database ctx)).2 in
  r.1 ≠ CXChildVisit_Break
  ∧ (classify (Visitor.kind cursor) = None → r = (CXChildVisit_Recurse, ctx))
  ∧ (∀ typ ret,
       classify (Visitor.kind cursor) = Some (typ, ret) →
       r.1 = ret
       ∧ (Visitor.spelling_file cursor = "" ∨ hashed.2 = "" → r.2 = ctx)
       ∧ (Visitor.spelling_file cursor ≠ "" → hashed.2 ≠ "" →
          Visitor.tokenCount r.2 = (Visitor.tokenCount ctx + 1) mod 2 ^ 64
          ∧ TokenDB.GetTokenId hashed.2 fId typ hashed.1 (Visitor.database r.2)
            ≠ wxNOT_FOUND))
  ∧ classify CXCursor_FieldDecl = Some (ClTokenType_Unknown, CXChildVisit_Continue)
  ∧ classify CXCursor_EnumConstantDecl
    = Some (ClTokenType_Unknown, CXChildVisit_Continue)
  ∧ classify CXCursor_TypedefDecl
    = Some (ClTokenType_Unknown, CXChildVisit_Continue).
Proof.
  intros r hashed fId.
  split; [apply ClAST_Visitor_step|].
  split.
  { intros Hk. unfold r. subst ClAST_Visitor. unfold Visitor.ClAST_Visitor.
    fold classify. by rewrite Hk. }
  split; [|done].
  intros typ ret Hk. unfold r, hashed, fId. subst ClAST_Visitor.
  unfold Visitor.ClAST_Visitor. fold classify. rewrite Hk.
  destruct (Visitor.spelling_file cursor) as [|c0 file0] eqn:Hfile.
  { simpl. split; [done|]. split; [done|]. by intros []. }
  cbn [String.length Nat.eqb].
  destruct (Hash.HashToken _ _ _) as [tokenHash ident]. cbn [fst snd].
  destruct ident as [|i0 ident0] eqn:Hident.
  { simpl. split; [done|]. split; [done|]. by intros _ []. }
  cbn [String.length Nat.eqb].
  destruct (foldl _ _ _) as [display scopeN].
  destruct (TokenQueries.GetFilenameId Normalize (String c0 file0)
              (Visitor.database ctx)) as [db fId'] eqn:Hdb.
  cbn [snd].
  set (tok := Visitor.ClAbstractToken_at typ fId' _ (String i0 ident0) tokenHash).
  pose proof (InsertToken_then_GetTokenId tok db) as [Hfound Hne].
  cbn [AbstractToken.identifier AbstractToken.fileId AbstractToken.tokenType
       AbstractToken.tokenHash tok Visitor.ClAbstractToken_at] in Hfound.
  assert (TokenDB.GetTokenId (String i0 ident0) fId' typ tokenHash
            (TokenDB.InsertToken tok db).1 ≠ wxNOT_FOUND) as Hthere
    by (by rewrite Hfound).
  destruct (Nat.ltb 0 _); [|split; [done|]; split; [by intros [|]|done]].
  destruct (match last _ with Some _ => _ | None => false end);
    (split; [done|]; split; [by intros [|]|done]).
Qed.
End VisitorSteps.

(** ** The include list of [ProcessAllTokens] *)

(** What the loop of [std::unique] has reached before it looks at index
    [k]: the part behind [result] is as it was, and every value of the
    first [k] elements is among the first [result + 1]. *)
Definition unique_reached (v : list Z) (k : nat) (st : list Z * nat) : Prop :=
  length st.1 = length v
  ∧ (st.2 < k ≤ length v)%nat
  ∧ (∀ j, (st.2 < j)%nat → st.1 !! j = v !! j)
  ∧ ∀ x, x ∈ take k v → x ∈ take (S st.2) st.1.

Lemma unique_step_reached v k st :
  (k < length v)%nat → unique_reached v k st →
  unique_reached v (S k) (Std.unique_step st k).
Proof.
  destruct st as [v' result]. intros Hk (Hlen & Hres & Hrest & Hval).
  simpl in *. unfold Std.unique_step.
  destruct (v' !! result) as [a|] eqn:Ha; cycle 1.
  { apply lookup_ge_None in Ha. lia. }
  destruct (v !! k) as [b|] eqn:Hb; cycle 1.
  { apply lookup_ge_None in Hb. lia. }
  rewrite (Hrest k), Hb by lia.
  assert (∀ x, x ∈ take (S k) v → x ∈ take k v ∨ x = b) as Hsplit.
  { intros x. rewrite (take_S_r _ _ _ Hb).
    intros [?|[->|[]%elem_of_nil]%elem_of_cons]%elem_of_app; auto. }
  destruct (Z.eqb_spec a b) as [->|Hab].
  - unfold unique_reached. simpl. split; [done|]. split; [lia|].
    split; [done|].
    intros x [Hx| ->]%Hsplit; [by apply Hval|].
    rewrite (take_S_r _ _ _ Ha). set_solver.
  - destruct k as [|k']; [lia|].
    destruct (Nat.eqb_spec result k') as [<-|Hne].
    + unfold unique_reached. simpl. split; [done|]. split; [lia|].
      split; [intros j Hj; apply Hrest; lia|].
      assert (v' !! S result = Some b) as Hb' by (rewrite Hrest; [done|lia]).
      intros x [Hx| ->]%Hsplit.
      * rewrite (take_S_r _ _ _ Hb'). apply elem_of_app. left. by apply Hval.
      * rewrite (take_S_r _ _ _ Hb'). set_solver.
    + unfold unique_reached. simpl. rewrite length_insert.
      split; [done|]. split; [lia|]. split.
      { intros j Hj. rewrite list_lookup_insert_ne by lia. apply Hrest. lia. }
      assert (<[S result:=b]> v' !! S result = Some b) as Hb'.
      { apply list_lookup_insert_eq. lia. }
      intros x Hx. rewrite (take_S_r _ _ _ Hb').
      rewrite take_insert_ge by lia.
      apply Hsplit in Hx as [Hx| ->]; [|set_solver].
      apply elem_of_app. left. by apply Hval.
Qed.

Lemma unique_loop_reached v m k st :
  (k + m ≤ length v)%nat → unique_reached v k st →
  unique_reached v (k + m) (foldl Std.unique_step st (seq k m)).
Proof.
  revert k st. induction m as [|m IH]; intros k st Hk Hst.
  - by rewrite Nat.add_0_r.
  - simpl. replace (k + S m)%nat with (S k + m)%nat by lia.
    apply IH; [lia|]. apply unique_step_reached; [lia|done].
Qed.

Lemma unique_keeps_values v x : x ∈ v → x ∈ (Std.unique v).1.
Proof.
  intros Hx. unfold Std.unique. destruct v as [|a v]; [done|].
  pose proof (unique_loop_reached (a :: v) (length (a :: v) - 1) 1 (a :: v, 0%nat))
    as H.
  destruct (foldl Std.unique_step _ _) as [v' result]. simpl.
  destruct H as (_ & _ & _ & Hval).
  - simpl. lia.
  - unfold unique_reached. simpl. split; [done|]. split; [lia|].
    split; [done|]. by rewrite take_0.
  - simpl in Hval. apply (subseteq_take (S result) v'), Hval.
    by rewrite Nat.sub_0_r, firstn_all.
Qed.

Lemma elem_of_sort v x : x ∈ Std.sort v ↔ x ∈ v.
Proof. unfold Std.sort. by rewrite merge_sort_Permutation. Qed.

Section IncludeList.
Variable inclusions_result : list TranslationUnit.NativeCall → list wxString.
Variable ast_result :
  list TranslationUnit.NativeCall → ClTokenDatabase →
  ClTokenDatabase * gmap ClFileId (list ClFunctionScope).
Variable Normalize : wxString → wxString.
Variable MakeAbsolute : wxString → option wxString.

(** X21: [ProcessAllTokens] loses no file.  On a unit with a handle, the
    include list it hands back holds the id of the unit's own file, every
    id the list held on entry and every id [ClInclusionVisitor] got from
    [GetFilenameId] for an included file whose path could be made
    absolute, and nothing else; it is one longer than what the inclusion
    visitor left, and the native library was asked for the inclusions and
    then for the children of the unit. *)
Theorem ProcessAllTokens_include_list_is_complete (database : ClTokenDatabase)
    (files : list ClFileId) (scopes : gmap ClFileId (list ClFunctionScope))
    (tu : TranslationUnit.t) (log : list TranslationUnit.NativeCall) :
  TranslationUnit.m_ClTranslUnit tu ≠ TranslationUnit.nullptr →
  let r := TranslationUnit.ProcessAllTokens inclusions_result ast_result
             Normalize MakeAbsolute database files scopes tu log in
  let visited :=
    foldl (λ data f, TranslationUnit.ClInclusionVisitor Normalize MakeAbsolute f data)
          (files, database)
          (inclusions_result
             (log ++ [TranslationUnit.clang_getInclusions
                        (TranslationUnit.m_ClTranslUnit tu)])) in
  (∀ x, x ∈ r.1.1.2 ↔ x = TranslationUnit.m_FileId tu ∨ x ∈ visited.1)
  ∧ files `prefix_of` visited.1
  ∧ length r.1.1.2 = S (length visited.1)
  ∧ r.2 = log ++ [TranslationUnit.clang_getInclusions
                    (TranslationUnit.m_ClTranslUnit tu);
                  TranslationUnit.clang_visitChildren
                    (TranslationUnit.m_ClTranslUnit tu)]
  ∧ (∀ data f,
       TranslationUnit.ClInclusionVisitor Normalize MakeAbsolute f data
       = match MakeAbsolute f with
         | None => data
         | Some fullPath =>
             (data.1 ++ [(TokenQueries.GetFilenameId Normalize fullPath data.2).2],
              (TokenQueries.GetFilenameId Normalize fullPath data.2).1)
         end).
Proof.
  intros Hnull r visited.
  assert (∀ data f,
            TranslationUnit.ClInclusionVisitor Normalize MakeAbsolute f data
            = match MakeAbsolute f with
              | None => data
              | Some fullPath =>
                  (data.1 ++ [(TokenQueries.GetFilenameId Normalize fullPath
                                                          data.2).2],
                   (TokenQueries.GetFilenameId Normalize fullPath data.2).1)
              end) as Hstep.
  { intros data f. unfold TranslationUnit.ClInclusionVisitor,
      TokenQueries.GetFilenameId.
    destruct (MakeAbsolute f); [|done].
    by destruct (FilenameDB.GetFilenameId _ _ _). }
  assert (r = ((ast_result r.2 visited.2).1,
               TranslationUnit.finish_include_list (TranslationUnit.m_FileId tu)
                                                   visited.1,
               (ast_result r.2 visited.2).2,
               log ++ [TranslationUnit.clang_getInclusions
                         (TranslationUnit.m_ClTranslUnit tu);
                       TranslationUnit.clang_visitChildren
                         (TranslationUnit.m_ClTranslUnit tu)])) as Hr.
  { unfold r at 1 2 3. unfold TranslationUnit.ProcessAllTokens,
      TranslationUnit.is_null.
    destruct (Z.eqb_spec (TranslationUnit.m_ClTranslUnit tu)
                         TranslationUnit.nullptr); [done|].
    unfold mbind, TranslationUnit.Native_bind, TranslationUnit.native, mret,
      TranslationUnit.Native_ret.
    fold visited. destruct visited as [fs db]. simpl.
    by rewrite <- app_assoc. }
  split.
  { intros x. rewrite Hr. cbn [fst snd].
    unfold TranslationUnit.finish_include_list. split.
    - intros Hx. apply unique_values, elem_of_sort, elem_of_app in Hx.
      destruct Hx as [Hx|Hx]; [by right|].
      apply elem_of_cons in Hx as [->|Hx]; [by left|].
      by apply elem_of_nil in Hx.
    - intros Hx. apply unique_keeps_values, elem_of_sort, elem_of_app.
      destruct Hx as [->|Hx]; [right; apply list_elem_of_here|by left]. }
  split.
  { unfold visited. generalize database.
    generalize (inclusions_result
                  (log ++ [TranslationUnit.clang_getInclusions
                             (TranslationUnit.m_ClTranslUnit tu)])).
    intros included. generalize files.
    induction included as [|f included IH]; intros fs db; [done|].
    simpl. rewrite Hstep. destruct (MakeAbsolute f) as [full|]; [|apply IH].
    simpl. etrans; [|apply IH]. by apply prefix_app_r. }
  split.
  { rewrite Hr. cbn [fst snd]. apply finish_include_list_length. }
  split; [by rewrite Hr|done].
Qed.
End IncludeList.

Lemma ProcessAllTokens_include_list_is_complete_witness :
  TranslationUnit.m_ClTranslUnit
    (TranslationUnit.mk 0 0 [0] 1000 2000 TranslationUnit.nullptr
                        (mkPosition (-1) (-1)) false 0 ∅)
  ≠ TranslationUnit.nullptr
  ∧ ∀ x, x ∈ (TranslationUnit.ProcessAllTokens
                (λ _, ["a.h"; "gone.h"; "a.h"]%string) (λ _ db, (db, ∅)) (λ f, f)
                (λ f, if bool_decide (f = "gone.h") then None else Some ("/" +:+ f))
                TokenDB.empty [] ∅
                (TranslationUnit.mk 0 0 [0] 1000 2000 TranslationUnit.nullptr
                                    (mkPosition (-1) (-1)) false 0 ∅) []).1.1.2
         ↔ x = 0 ∨ x ∈ [0; 0].
Proof.
  split; [done|].
  pose proof (ProcessAllTokens_include_list_is_complete
                (λ _, ["a.h"; "gone.h"; "a.h"]%string) (λ _ db, (db, ∅)) (λ f, f)
                (λ f, if bool_decide (f = "gone.h") then None else Some ("/" +:+ f))
                TokenDB.empty [] ∅
                (TranslationUnit.mk 0 0 [0] 1000 2000 TranslationUnit.nullptr
                                    (mkPosition (-1) (-1)) false 0 ∅) [])
    as H.
  destruct H as [H _]; [done|]. exact H.
Defined.

(** ** Going to the next and the previous diagnostic *)

Definition by_line (a b : ClDiagnostic) : Prop :=
  Diagnostic.line a ≤ Diagnostic.line b.

(** X22: with the diagnostics in the order of their lines,
    [OnGotoNextDiagnostic] takes the caret to the nearest line below it
    that has a diagnostic and makes the lines around it visible; when no
    diagnostic lies below the caret, or when there is no active editor, it
    tells the editor nothing. *)
Theorem OnGotoNextDiagnostic_goes_to_nearest_below
    (stc : ClangDiagnostics.cbStyledTextCtrl) (m_Diagnostics : list ClDiagnostic) :
  StronglySorted by_line m_Diagnostics →
  let current := ClangDiagnostics.GetCurrentLine stc in
  ClangDiagnostics.OnGotoNextDiagnostic None m_Diagnostics = []
  ∧ match ClangDiagnostics.OnGotoNextDiagnostic (Some stc) m_Diagnostics with
    | [] => ∀ d, d ∈ m_Diagnostics → Diagnostic.line d - 1 ≤ current
    | calls =>
        ∃ target,
          calls = [ClangDiagnostics.GotoLine target;
                   ClangDiagnostics.MakeNearbyLinesVisible target]
          ∧ current < target
          ∧ (∃ d, d ∈ m_Diagnostics ∧ Diagnostic.line d - 1 = target)
          ∧ ∀ d, d ∈ m_Diagnostics → current < Diagnostic.line d - 1 →
                 target ≤ Diagnostic.line d - 1
    end.
Proof.
  intros Hsorted current. split; [done|].
  unfold ClangDiagnostics.OnGotoNextDiagnostic. fold current.
  destruct (List.find _ m_Diagnostics) as [it|] eqn:E.
  - apply find_Some_inv in E as (HP & l1 & l2 & -> & Hl1).
    apply Z.ltb_lt in HP. eexists. split; [reflexivity|]. split; [done|].
    split; [exists it; split; [set_solver|done]|].
    intros d Hd Hbelow.
    apply elem_of_app in Hd as [Hd|Hd].
    { apply Hl1, Z.ltb_ge in Hd. lia. }
    apply StronglySorted_app_1_r in Hsorted.
    apply elem_of_cons in Hd as [->|Hd]; [lia|].
    apply StronglySorted_inv in Hsorted as [_ Hall].
    rewrite Forall_forall in Hall. specialize (Hall d Hd).
    unfold by_line in Hall. lia.
  - rewrite find_None_inv in E. intros d Hd. apply E, Z.ltb_ge in Hd. lia.
Qed.

Module NavigationExample.
Definition at_line (n : Z) : ClDiagnostic :=
  Diagnostic.mk n (1, 1) sWarning "main.cpp" "unused variable" [].
Definition diagnostics : list ClDiagnostic := [at_line 3; at_line 8; at_line 8; at_line 20].
Definition editor : ClangDiagnostics.cbStyledTextCtrl :=
  ClangDiagnostics.mkStc 7 10 30.
End NavigationExample.

Lemma NavigationExample_sorted :
  StronglySorted by_line NavigationExample.diagnostics.
Proof.
  unfold NavigationExample.diagnostics.
  repeat (apply SSorted_cons;
          [|repeat (apply List.Forall_cons; [unfold by_line; simpl; lia|]);
            apply List.Forall_nil]).
  apply SSorted_nil.
Qed.

Lemma OnGotoNextDiagnostic_goes_to_nearest_below_witness :
  StronglySorted by_line NavigationExample.diagnostics
  ∧ ClangDiagnostics.OnGotoNextDiagnostic (Some NavigationExample.editor)
      NavigationExample.diagnostics
    = [ClangDiagnostics.GotoLine 19; ClangDiagnostics.MakeNearbyLinesVisible 19]
  ∧ ∀ d, d ∈ NavigationExample.diagnostics → 7 < Diagnostic.line d - 1 →
         19 ≤ Diagnostic.line d - 1.
Proof.
  split; [apply NavigationExample_sorted|]. split; [reflexivity|].
  pose proof (OnGotoNextDiagnostic_goes_to_nearest_below NavigationExample.editor
                NavigationExample.diagnostics NavigationExample_sorted)
    as [_ (target & Hcalls & _ & _ & Hleast)].
  injection Hcalls as <-. exact Hleast.
Defined.

Lemma last_above_spec current prevLine l :
  StronglySorted by_line l →
  let t := ClangDiagnostics.last_above current prevLine l in
  (t = prevLine ∧ ∀ d, d ∈ l → current ≤ Diagnostic.line d - 1)
  ∨ (t < current
     ∧ (∃ d, d ∈ l ∧ Diagnostic.line d - 1 = t)
     ∧ ∀ d, d ∈ l → Diagnostic.line d - 1 < current → Diagnostic.line d - 1 ≤ t).
Proof.
  intros Hsorted. revert prevLine.
  induction Hsorted as [|it rest Hrest IH Hall]; intros prevLine.
  { left. split; [done|]. intros d Hd. by apply elem_of_nil in Hd. }
  rewrite Forall_forall in Hall. simpl.
  destruct (Z.ltb_spec (Diagnostic.line it - 1) current) as [Hlt|Hge].
  - right. destruct (IH (Diagnostic.line it - 1)) as [[-> Hnone]|(Ht & Hd & Hmax)].
    + split; [done|]. split; [exists it; split; [set_solver|done]|].
      intros d [->|Hd]%elem_of_cons Hdlt; [lia|].
      apply Hnone in Hd. lia.
    + split; [done|]. destruct Hd as (d & Hd & Hdt).
      split; [exists d; split; [set_solver|done]|].
      intros d' [->|Hd']%elem_of_cons Hdlt; [|by apply Hmax].
      specialize (Hall d Hd). unfold by_line in Hall. lia.
  - left. split; [done|]. intros d [->|Hd]%elem_of_cons; [lia|].
    specialize (Hall d Hd). unfold by_line in Hall. lia.
Qed.

(** X23: with the diagnostics in the order of their lines, all on lines
    from 1 on, [OnGotoPrevDiagnostic] takes the caret to the nearest line
    above it that has a diagnostic.  When that line is above the first
    visible line it scrolls back by half a screen, otherwise it makes the
    lines around the target visible; when no diagnostic lies above the
    caret, or when there is no active editor, it tells the editor
    nothing. *)
Theorem OnGotoPrevDiagnostic_goes_to_nearest_above
    (stc : ClangDiagnostics.cbStyledTextCtrl) (m_Diagnostics : list ClDiagnostic) :
  StronglySorted by_line m_Diagnostics →
  (∀ d, d ∈ m_Diagnostics → 1 ≤ Diagnostic.line d) →
  let current := ClangDiagnostics.GetCurrentLine stc in
  ClangDiagnostics.OnGotoPrevDiagnostic None m_Diagnostics = []
  ∧ match ClangDiagnostics.OnGotoPrevDiagnostic (Some stc) m_Diagnostics with
    | [] => ∀ d, d ∈ m_Diagnostics → current ≤ Diagnostic.line d - 1
    | calls =>
        ∃ target,
          calls
          = (if Z.ltb target (ClangDiagnostics.GetFirstVisibleLine stc)
             then [ClangDiagnostics.GotoLine target;
                   ClangDiagnostics.ScrollLines
                     (Z.quot (- ClangDiagnostics.LinesOnScreen stc) 2)]
             else [ClangDiagnostics.GotoLine target;
                   ClangDiagnostics.MakeNearbyLinesVisible target])
          ∧ target < current
          ∧ (∃ d, d ∈ m_Diagnostics ∧ Diagnostic.line d - 1 = target)
          ∧ ∀ d, d ∈ m_Diagnostics → Diagnostic.line d - 1 < current →
                 Diagnostic.line d - 1 ≤ target
    end.
Proof.
  intros Hsorted Hlines current. split; [done|].
  unfold ClangDiagnostics.OnGotoPrevDiagnostic. fold current.
  destruct (last_above_spec current (-1) m_Diagnostics Hsorted)
    as [[-> Hnone]|(Ht & Hd & Hmax)].
  - done.
  - set (t := ClangDiagnostics.last_above current (-1) m_Diagnostics) in *.
    assert (0 ≤ t) as H0.
    { destruct Hd as (d & Hd & <-). apply Hlines in Hd. lia. }
    destruct (Z.leb_spec 0 t); [|lia].
    destruct (Z.ltb t (ClangDiagnostics.GetFirstVisibleLine stc)) eqn:Hvis.
    + exists t. by rewrite Hvis.
    + exists t. by rewrite Hvis.
Qed.

Lemma OnGotoPrevDiagnostic_goes_to_nearest_above_witness :
  StronglySorted by_line NavigationExample.diagnostics
  ∧ (∀ d, d ∈ NavigationExample.diagnostics → 1 ≤ Diagnostic.line d)
  ∧ ClangDiagnostics.OnGotoPrevDiagnostic (Some NavigationExample.editor)
      NavigationExample.diagnostics
    = [ClangDiagnostics.GotoLine 2; ClangDiagnostics.ScrollLines (-15)]
  ∧ ∀ d, d ∈ NavigationExample.diagnostics → Diagnostic.line d - 1 < 7 →
         Diagnostic.line d - 1 ≤ 2.
Proof.
  assert (∀ d, d ∈ NavigationExample.diagnostics → 1 ≤ Diagnostic.line d) as Hlines.
  { intros d Hd. unfold NavigationExample.diagnostics in Hd.
    repeat (apply elem_of_cons in Hd as [->|Hd]; [simpl; lia|]).
    by apply elem_of_nil in Hd. }
  split; [apply NavigationExample_sorted|]. split; [exact Hlines|].
  split; [reflexivity|].
  pose proof (OnGotoPrevDiagnostic_goes_to_nearest_above NavigationExample.editor
                NavigationExample.diagnostics NavigationExample_sorted Hlines)
    as [_ (target & Hcalls & _ & _ & Hmax)].
  assert (target = 2) as ->.
  { destruct (Z.ltb target _); by injection Hcalls as <-. }
  exact Hmax.
Defined.

(** *** [GetFileTokens] *)

Lemma GetFileTokens_fold typeMask (m : TreeMap.t ClIndexToken) ids out :
  (∀ id, id ∈ ids → is_Some (TreeMap.GetValue id m)) →
  foldl (λ out it,
           out_tokens ← out;
           match TreeMap.GetValue (TreeMapInt.GetValue it) m with
           | Some tok =>
               if Z.eqb typeMask 0
                  || negb (Z.eqb (Z.land (tokenTypeMask tok) typeMask) 0)
               then Returned (out_tokens ++ [tok])
               else Returned out_tokens
           | None => Undefined
           end) (Returned out) ids
  = Returned
      (out ++ filter (λ tok, typeMask = 0 ∨ Z.land (tokenTypeMask tok) typeMask ≠ 0)
                     (omap (λ id, TreeMap.GetValue id m) ids)).
Proof.
  revert out. induction ids as [|id ids IH]; intros out Hall.
  { simpl. by rewrite app_nil_r. }
  destruct (Hall id (list_elem_of_here _ _)) as [tok Hv]. simpl.
  unfold TreeMapInt.GetValue. rewrite Hv. simpl.
  assert (∀ j, j ∈ ids → is_Some (TreeMap.GetValue j m)) as Hrest
    by (intros j Hj; by apply Hall, list_elem_of_further).
  rewrite filter_cons.
  destruct (Z.eqb_spec typeMask 0) as [Hz|Hz]; simpl.
  - rewrite decide_True by (by left). rewrite IH by done.
    by rewrite <- app_assoc.
  - destruct (Z.eqb_spec (Z.land (tokenTypeMask tok) typeMask) 0) as [Hl|Hl];
      simpl.
    + rewrite decide_False by (intros [?|?]; done). by rewrite IH.
    + rewrite decide_True by (by right). rewrite IH by done.
      by rewrite <- app_assoc.
Qed.

(** X24: [GetFileTokens] appends the tokens filed under the file, in the
    order of their ids, that share a bit with the type mask (all of them
    for the mask 0).  It relies on every filed id having its slot in the
    token table.  Right after [RemoveFileTokens] for the file it appends
    nothing, whatever locations of the file the tokens have kept; right
    after [UpdateToken] it appends a token with the USR and the location
    that were passed. *)
Theorem GetFileTokens_follows_the_file_index (fId : ClFileId) (typeMask : Z)
    (db : ClTokenIndexDatabase) (out_tokens : list ClIndexToken) :
  (∀ k id, (k, id) ∈ m_pFileTokens db →
           is_Some (TreeMap.GetValue id (m_pIndexTokenMap db))) →
  (∃ found,
     IndexQueries.GetFileTokens fId typeMask db out_tokens
     = Returned (out_tokens ++ found)
     ∧ ∀ tok, tok ∈ found ↔
              ∃ id, id ∈ TreeMapInt.GetIdSet (Format_d fId) (m_pFileTokens db)
                    ∧ TreeMap.GetValue id (m_pIndexTokenMap db) = Some tok
                    ∧ (typeMask = 0 ∨ Z.land (tokenTypeMask tok) typeMask ≠ 0))
  ∧ IndexQueries.GetFileTokens fId typeMask (IndexDB.RemoveFileTokens fId db)
                               out_tokens
    = Returned out_tokens
  ∧ (∀ ident name usr tokType tokenRange overrides scp,
       ∃ found tok,
         IndexQueries.GetFileTokens fId 0
           (IndexDB.UpdateToken ident name fId usr tokType tokenRange overrides
                                scp db) out_tokens
         = Returned (out_tokens ++ found)
         ∧ tok ∈ found ∧ USR tok = usr
         ∧ mkLocation tokType fId tokenRange ∈ locationList tok).
Proof.
  intros Hslots.
  assert (∀ db' mask,
            (∀ k id, (k, id) ∈ m_pFileTokens db' →
                     is_Some (TreeMap.GetValue id (m_pIndexTokenMap db'))) →
            ∃ found,
              IndexQueries.GetFileTokens fId mask db' out_tokens
              = Returned (out_tokens ++ found)
              ∧ ∀ tok, tok ∈ found ↔
                  ∃ id, id ∈ TreeMapInt.GetIdSet (Format_d fId) (m_pFileTokens db')
                        ∧ TreeMap.GetValue id (m_pIndexTokenMap db') = Some tok
                        ∧ (mask = 0 ∨ Z.land (tokenTypeMask tok) mask ≠ 0))
    as Hget.
  { intros db' mask Hs. eexists. split.
    - unfold IndexQueries.GetFileTokens. apply GetFileTokens_fold.
      intros id Hid. apply elem_of_ascending, elem_of_GetIdSet in Hid.
      by apply (Hs _ _ Hid).
    - intros tok. rewrite list_elem_of_filter, list_elem_of_omap. split.
      + intros [Hm (id & Hid & Hv)]. exists id.
        by apply elem_of_ascending in Hid.
      + intros (id & Hid & Hv & Hm). split; [done|]. exists id.
        by apply elem_of_ascending in Hid. }
  split; [by apply Hget|]. split.
  - unfold IndexQueries.GetFileTokens.
    by rewrite RemoveFileTokens_clears_index.
  - intros ident name usr tokType tokenRange overrides scp.
    set (db' := IndexDB.UpdateToken _ _ _ _ _ _ _ _ db).
    destruct (Hget db' 0) as (found & Hfound & Hspec).
    { intros k id Hk. unfold db', IndexDB.UpdateToken in *.
      fold (matched ident usr (m_pIndexTokenMap db)) in *.
      destruct (matched ident usr (m_pIndexTokenMap db)) as [[id0 token]|] eqn:Hm.
      - apply matched_inv in Hm as (_ & Hv0 & _).
        cbn [m_pFileTokens m_pIndexTokenMap] in *.
        rewrite (GetValue_SetValue _ _ _ _ _ Hv0).
        destruct (decide (id = id0)) as [->|Hne]; [by eexists|].
        apply (Hslots k). unfold TreeMapInt.Insert, TreeMapInt.Remove in Hk.
        set_solver.
      - destruct (TreeMap.Insert ident _ (m_pIndexTokenMap db)) as [map id'] eqn:Hins.
        assert (Hmap : map = (TreeMap.Insert ident
                  (ClIndexToken_new ident name fId usr tokType tokenRange
                                    overrides scp) (m_pIndexTokenMap db)).1)
          by (by rewrite Hins).
        assert (Hid : id' = TreeMap.GetCount (m_pIndexTokenMap db)).
        { rewrite <- (Insert_id (m_pIndexTokenMap db) ident
                       (ClIndexToken_new ident name fId usr tokType tokenRange
                                         overrides scp)). by rewrite Hins. }
        cbn [m_pFileTokens m_pIndexTokenMap] in *. rewrite Hmap, GetValue_Insert.
        destruct (decide (id = TreeMap.GetCount (m_pIndexTokenMap db)));
          [by eexists|].
        apply (Hslots k). unfold TreeMapInt.Insert in Hk. set_solver. }
    destruct (indexed_UpdateToken_new ident name fId usr tokType tokenRange
                overrides scp db) as (id & tok & _ & Hv & Hu & Hl & _ & Hf).
    exists found, tok. split; [done|]. split; [|done].
    apply Hspec. exists id. split; [by apply elem_of_GetIdSet|].
    split; [done|by left].
Qed.

Lemma GetFileTokens_follows_the_file_index_witness :
  IndexQueries.GetFileTokens 1 0 ScopeExample.index []
  = Returned [mkIndexToken "N" "N" "c:@N@N" 1
                [mkLocation 1 1 ScopeExample.r] [] ("N", "c:@N@N")]%string
  ∧ IndexQueries.GetFileTokens 1 0 (IndexDB.RemoveFileTokens 1 ScopeExample.index) []
    = Returned [].
Proof.
  split; [vm_compute; reflexivity|].
  apply (GetFileTokens_follows_the_file_index 1 0 ScopeExample.index []).
  intros k id Hk. apply elem_of_elements in Hk. vm_compute in Hk.
  apply elem_of_cons in Hk as [[= -> ->]|Hk]; [by eexists|].
  by apply elem_of_nil in Hk.
Defined.

(** ** The completion results of a unit, from the first request to the
    destructor *)

Section CompletionResults.
Variable reparse_result : list TranslationUnit.NativeCall → Z.
Variable codeComplete_result : list TranslationUnit.NativeCall → Z.
Variable wxDateTime_Now : list TranslationUnit.NativeCall → Z.

(** What a client may ask of a unit between its construction and its end. *)
Inductive Request :=
| AskCodeCompleteAt (fname : wxString) (pos : ClTokenPosition)
| AskReparse (unsavedFiles : list (wxString * wxString)).

Definition serve (request : Request) (tu : TranslationUnit.t)
    : TranslationUnit.Native TranslationUnit.t :=
  match request with
  | AskCodeCompleteAt fname pos =>
      r ← TranslationUnit.CodeCompleteAt codeComplete_result fname pos tu;
      mret r.2
  | AskReparse unsavedFiles =>
      TranslationUnit.Reparse reparse_result wxDateTime_Now unsavedFiles tu
  end.

Fixpoint serve_all (requests : list Request) (tu : TranslationUnit.t)
    : TranslationUnit.Native TranslationUnit.t :=
  match requests with
  | [] => mret tu
  | request :: rest => tu ← serve request tu; serve_all rest tu
  end.

(** The completion results the library handed out in the calls [todo] that
    follow the calls [made]: what it answered to each [clang_codeCompleteAt],
    null answers left out. *)
Fixpoint issued (made todo : list TranslationUnit.NativeCall) : list Z :=
  match todo with
  | [] => []
  | c :: rest =>
      match c with
      | TranslationUnit.clang_codeCompleteAt _ _ _ =>
          if TranslationUnit.is_null (codeComplete_result (made ++ [c])) then []
          else [codeComplete_result (made ++ [c])]
      | _ => []
      end ++ issued (made ++ [c]) rest
  end.

(** The completion results the calls gave back to the library. *)
Definition disposed (log : list TranslationUnit.NativeCall) : list Z :=
  omap (λ c, match c with
             | TranslationUnit.clang_disposeCodeCompleteResults cc => Some cc
             | _ => None
             end) log.

Definition held (tu : TranslationUnit.t) : list Z :=
  if TranslationUnit.is_null (TranslationUnit.m_LastCC tu) then []
  else [TranslationUnit.m_LastCC tu].

(** Every result handed out so far has been given back, in the order it
    was handed out, except the one the unit still holds. *)
Definition accounted (st : TranslationUnit.t * list TranslationUnit.NativeCall)
  : Prop :=
  issued [] st.2 = disposed st.2 ++ held st.1.

Lemma issued_app made a b :
  issued made (a ++ b) = issued made a ++ issued (made ++ a) b.
Proof.
  revert made. induction a as [|c a IH]; intros made.
  - by rewrite app_nil_r.
  - simpl. rewrite IH, <- !app_assoc. done.
Qed.

Lemma disposed_app a b : disposed (a ++ b) = disposed a ++ disposed b.
Proof. apply omap_app. Qed.

Lemma CodeCompleteAt_accounted fname pos tu log :
  accounted (tu, log) →
  accounted ((TranslationUnit.CodeCompleteAt codeComplete_result fname pos tu log).1.2,
             (TranslationUnit.CodeCompleteAt codeComplete_result fname pos tu log).2).
Proof.
  unfold accounted, held. simpl. intros Hacc.
  unfold TranslationUnit.CodeCompleteAt.
  destruct (TranslationUnit.is_null (TranslationUnit.m_ClTranslUnit tu));
    [done|].
  unfold mbind, TranslationUnit.Native_bind, TranslationUnit.when,
    TranslationUnit.native, mret, TranslationUnit.Native_ret.
  destruct (TranslationUnit.is_null (TranslationUnit.m_LastCC tu)) eqn:Hold;
    simpl.
  - set (c := TranslationUnit.clang_codeCompleteAt _ _ _).
    destruct (TranslationUnit.is_null (codeComplete_result (log ++ [c]))) eqn:Hcc;
      simpl.
    + rewrite Hcc. rewrite issued_app, disposed_app, Hacc. simpl.
      fold c. by rewrite ?Hcc, ?app_nil_r, <- ?app_assoc.
    + rewrite Hcc. rewrite !issued_app, !disposed_app, Hacc. simpl.
      fold c. by rewrite ?Hcc, ?app_nil_r, <- ?app_assoc.
  - set (d := TranslationUnit.clang_disposeCodeCompleteResults _).
    set (c := TranslationUnit.clang_codeCompleteAt _ _ _).
    destruct (TranslationUnit.is_null (codeComplete_result ((log ++ [d]) ++ [c])))
      eqn:Hcc; simpl.
    + rewrite Hcc. rewrite !issued_app, !disposed_app, Hacc. simpl.
      fold c. by rewrite ?Hcc, ?app_nil_r, <- ?app_assoc.
    + rewrite Hcc. rewrite !issued_app, !disposed_app, Hacc. simpl.
      fold c. by rewrite ?Hcc, ?app_nil_r, <- ?app_assoc.
Qed.

Lemma Reparse_accounted unsavedFiles tu log :
  accounted (tu, log) →
  accounted (TranslationUnit.Reparse reparse_result wxDateTime_Now
                                     unsavedFiles tu log).
Proof.
  unfold accounted, held. simpl. intros Hacc.
  unfold TranslationUnit.Reparse.
  destruct (TranslationUnit.is_null (TranslationUnit.m_ClTranslUnit tu));
    [done|].
  unfold mbind, TranslationUnit.Native_bind, TranslationUnit.when,
    TranslationUnit.native, mret, TranslationUnit.Native_ret,
    TranslationUnit.host_time.
  simpl. destruct (negb (Z.eqb _ 0)); simpl.
  - rewrite !issued_app, !disposed_app, Hacc. simpl. by rewrite !app_nil_r.
  - destruct (TranslationUnit.is_null (TranslationUnit.m_LastCC tu)) eqn:Hold;
      simpl.
    + rewrite Hold. rewrite !issued_app, !disposed_app, Hacc. simpl.
      by rewrite !app_nil_r.
    + rewrite !issued_app, !disposed_app, Hacc. simpl.
      by rewrite !app_nil_r.
Qed.

Lemma serve_all_accounted requests tu log :
  accounted (tu, log) → accounted (serve_all requests tu log).
Proof.
  revert tu log. induction requests as [|request rest IH]; intros tu log Hacc;
    [done|].
  simpl. unfold mbind, TranslationUnit.Native_bind.
  destruct (serve request tu log) as [tu' log'] eqn:Hs. apply IH.
  destruct request as [fname pos|unsavedFiles]; simpl in Hs.
  - pose proof (CodeCompleteAt_accounted fname pos tu log Hacc) as H.
    unfold mbind, TranslationUnit.Native_bind, mret,
      TranslationUnit.Native_ret in Hs.
    destruct (TranslationUnit.CodeCompleteAt _ _ _ _ _) as [[cc tu1] log1].
    by injection Hs as <- <-.
  - pose proof (Reparse_accounted unsavedFiles tu log Hacc) as H.
    by rewrite Hs in H.
Qed.

(** X25: no completion result is lost or given back twice.  Take a unit
    that holds no completion result and a log without completion calls,
    serve it any sequence of [CodeCompleteAt] and [Reparse] requests,
    succeeding or failing, and destroy it: the results the destructor and
    the calls before it disposed of are the results the native library
    handed out, one for one and in the same order. *)
Theorem completion_results_are_disposed_once (requests : list Request)
    (tu : TranslationUnit.t) :
  TranslationUnit.m_LastCC tu = TranslationUnit.nullptr →
  let served := serve_all requests tu [] in
  let log := (UnitLifetime.Destroy served.1 served.2).2 in
  disposed log = issued [] log
  ∧ served.2 `prefix_of` log.
Proof.
  intros Hnull served log.
  assert (accounted served) as Hacc.
  { apply serve_all_accounted. unfold accounted, held. simpl.
    by rewrite Hnull. }
  unfold accounted, held in Hacc. unfold log, UnitLifetime.Destroy.
  destruct served as [tu' log']. simpl in *.
  unfold mbind, TranslationUnit.Native_bind, TranslationUnit.when,
    TranslationUnit.native, mret, TranslationUnit.Native_ret.
  destruct (TranslationUnit.is_null (TranslationUnit.m_LastCC tu')) eqn:Hcc;
    destruct (TranslationUnit.is_null (TranslationUnit.m_ClTranslUnit tu'));
    simpl; rewrite ?issued_app, ?disposed_app, Hacc; simpl;
    rewrite ?app_nil_r; (split; [done|]).
  - done.
  - by apply prefix_app_r.
  - by apply prefix_app_r.
  - rewrite <- app_assoc. by apply prefix_app_r.
Qed.
End CompletionResults.

Module LifetimeExample.
Definition unit_m : TranslationUnit.t :=
  TranslationUnit.mk 0 0 [0] 1000 2000 TranslationUnit.nullptr
                     (mkPosition (-1) (-1)) false 0 ∅.
(** The library answers every completion request with a new handle. *)
Definition answers (log : list TranslationUnit.NativeCall) : Z :=
  3000 + Z.of_nat (length log).
Definition requests : list Request :=
  [AskCodeCompleteAt "m.cpp" (mkPosition 3 7); AskReparse [];
   AskCodeCompleteAt "m.cpp" (mkPosition 3 8);
   AskCodeCompleteAt "m.cpp" (mkPosition 3 9)].
End LifetimeExample.

Lemma completion_results_are_disposed_once_witness :
  let served := serve_all (λ _, 0) LifetimeExample.answers (λ _, 0)
                          LifetimeExample.requests LifetimeExample.unit_m [] in
  let log := (UnitLifetime.Destroy served.1 served.2).2 in
  disposed log = [3001; 3005; 3008]
  ∧ disposed log = issued LifetimeExample.answers [] log.
Proof.
  intros served log. split; [vm_compute; reflexivity|].
  apply (completion_results_are_disposed_once (λ _, 0) LifetimeExample.answers
           (λ _, 0) LifetimeExample.requests LifetimeExample.unit_m).
  reflexivity.
Defined.
